(** * Concurrency toolkit of [common/concurrency.go]

    A shallow embedding of the thread-safe map, the counting semaphore, the
    rate limiter, the bounded parallel runner, the batch splitter and the
    worker pool, followed by the properties established about them.

    Conventions of the embedding.
    - A Go [interface{}] value is an [any]; a Go [error] is an [option err]
      with [None] for [nil].
    - A [Task] is opaque to the toolkit, which only invokes it once: a task
      is modelled by what its invocation does, [Returns value err] or
      [Panics r].  Tasks that never come back (an endless loop,
      [runtime.Goexit], [os.Exit]) are outside the model.
    - Go's [int] and [int64] are 64-bit two's complement integers: [Z] with
      the wrap-around written out ([wrap64]).
    - A buffered channel is its capacity, its buffered elements and its
      closed flag; an operation that cannot proceed is [Blocked].
    - Goroutines are modelled by interleaving: every component with more
      than one thread of control is a transition function
      [state -> action -> option state], where the action names the thread
      that moves (and, for a [select] with several ready cases, the case the
      runtime picked); [None] means that the action is not enabled. *)

From stdpp Require Import base numbers list strings gmap.
From Stdlib Require Import ZArith Lia Wellfounded.

Open Scope Z_scope.

(** ** Go values, errors and task outcomes *)

(** [interface{}]: the nil interface and a few dynamic values. *)
Inductive any : Type :=
  | Nil
  | Int (z : Z)
  | Str (s : string)
  | PanicNilError.

(** Non-nil error values that occur in the package. *)
Inductive err : Type :=
  | ErrorsNew (msg : string)
  | DeadlineExceeded
  | Canceled
  | Errorf_panic (r : any).

Definition error : Type := option err.

#[global] Instance any_eq_dec : EqDecision any.
Proof. solve_decision. Defined.
#[global] Instance err_eq_dec : EqDecision err.
Proof. solve_decision. Defined.

(** What invoking a function does: it returns, or it panics with a value. *)
Inductive call (A : Type) : Type :=
  | Returned (a : A)
  | Panicked (r : any).
Arguments Returned {A} a.
Arguments Panicked {A} r.

(** [type Task func() (interface{}, error)], by the outcome of its call. *)
Inductive Task : Type :=
  | Returns (value : any) (e : error)
  | Panics (r : any).

#[global] Instance Task_eq_dec : EqDecision Task.
Proof. unfold error. solve_decision. Defined.

(** [recover()] in a deferred function of a panicking goroutine.  Since Go
    1.21 [panic(nil)] is delivered as a [*runtime.PanicNilError], so the
    recovered value is never nil. *)
Definition recover (r : any) : any :=
  match r with
  | Nil => PanicNilError
  | _ => r
  end.

(** [type TaskResult struct { Value interface{}; Error error; Index int }] *)
Record TaskResult : Type := mkTaskResult {
  Value : any;
  Error : error;
  Index : Z
}.

#[global] Instance TaskResult_eq_dec : EqDecision TaskResult.
Proof. solve_decision. Defined.

(** The zero value of the struct, as [make([]TaskResult, n)] fills it. *)
Definition zeroTaskResult : TaskResult := mkTaskResult Nil None 0.

(** ** Machine integers *)

Definition maxInt : Z := 2 ^ 63 - 1.
Definition minInt : Z := - 2 ^ 63.

(** Two's complement wrap-around of a 64-bit signed result. *)
Definition wrap64 (z : Z) : Z := (z + 2 ^ 63) mod 2 ^ 64 - 2 ^ 63.

Definition int_add (a b : Z) : Z := wrap64 (a + b).
Definition int_sub (a b : Z) : Z := wrap64 (a - b).

(** Go's [/] on integers truncates toward zero; the divisor is not zero
    where this is used (a zero divisor panics, which the callers test). *)
Definition int_quo (a b : Z) : Z := wrap64 (Z.quot a b).

(** ** Buffered channels *)

Record chan (A : Type) : Type := mkChan {
  ch_cap : nat;
  ch_buf : list A;
  ch_closed : bool
}.
Arguments mkChan {A} _ _ _.
Arguments ch_cap {A} _.
Arguments ch_buf {A} _.
Arguments ch_closed {A} _.

(** [make(chan A, size)] panics on a negative size. *)
Definition make_chan {A : Type} (size : Z) : call (chan A) :=
  if size <? 0 then Panicked (Str "makechan: size out of range")
  else Returned (mkChan (Z.to_nat size) [] false).

(** [len(c)] and [cap(c)]. *)
Definition chan_len {A : Type} (c : chan A) : nat := length (ch_buf c).

(** Outcome of attempting a channel operation. *)
Inductive attempt (A : Type) : Type :=
  | Proceeds (a : A)
  | Blocked
  | Faults (r : any).
Arguments Proceeds {A} a.
Arguments Blocked {A}.
Arguments Faults {A} r.

(** [c <- x] when no receiver is parked on [c]. *)
Definition chan_send {A : Type} (c : chan A) (x : A) : attempt (chan A) :=
  if ch_closed c then Faults (Str "send on closed channel")
  else if (chan_len c <? ch_cap c)%nat
       then Proceeds (mkChan (ch_cap c) (ch_buf c ++ [x]) false)
       else Blocked.

(** [x, ok := <-c] when no sender is parked on [c]; a closed and drained
    channel yields no element and [ok = false]. *)
Definition chan_recv {A : Type} (c : chan A) : attempt (chan A * option A) :=
  match ch_buf c with
  | x :: rest => Proceeds (mkChan (ch_cap c) rest (ch_closed c), Some x)
  | [] => if ch_closed c then Proceeds (c, None) else Blocked
  end.

(** ** Counting *)

(** How many elements of a list satisfy a test. *)
Fixpoint count {A : Type} (f : A → bool) (l : list A) : nat :=
  match l with
  | [] => 0
  | x :: rest => ((if f x then 1 else 0) + count f rest)%nat
  end.

(** ** SafeCounter *)

Module SafeCounter.

(** [value int64], read and written by single atomic operations. *)
Record SafeCounter : Type := mk { value : Z }.

(** [atomic.AddInt64(&c.value, delta)], with the new value. *)
Definition AddInt64 (c : SafeCounter) (delta : Z) : SafeCounter * Z :=
  let v := wrap64 (value c + delta) in (mk v, v).

Definition Increment (c : SafeCounter) : SafeCounter * Z := AddInt64 c 1.
Definition Decrement (c : SafeCounter) : SafeCounter * Z := AddInt64 c (-1).
Definition Get (c : SafeCounter) : Z := value c.
Definition Set_ (c : SafeCounter) (v : Z) : SafeCounter := mk v.

End SafeCounter.

(** ** SafeMap *)

Module SafeMap.

(** [data map[string]interface{}]; every method runs under the mutex, so
    each one is a single atomic access to the map. *)
Record SafeMap : Type := mk { data : gmap string any }.

Definition NewSafeMap : SafeMap := mk ∅.

Definition Set_ (m : SafeMap) (key : string) (value : any) : SafeMap :=
  mk (<[key := value]> (data m)).

(** [return m.data[key]]: indexing a Go map yields the zero value, the nil
    interface, for a missing key. *)
Definition Get (m : SafeMap) (key : string) : any :=
  match data m !! key with
  | Some value => value
  | None => Nil
  end.

Definition GetWithDefault (m : SafeMap) (key : string) (defaultValue : any) : any :=
  match data m !! key with
  | Some value => value
  | None => defaultValue
  end.

Definition Has (m : SafeMap) (key : string) : bool :=
  match data m !! key with
  | Some _ => true
  | None => false
  end.

Definition Delete (m : SafeMap) (key : string) : SafeMap :=
  mk (delete key (data m)).

Definition Len (m : SafeMap) : nat := size (data m).

Definition Clear (m : SafeMap) : SafeMap := mk ∅.

(** An order in which [range m.data] may visit the entries of the map; Go
    leaves the order open, and it may differ from one loop to the next. *)
Definition visits (m : SafeMap) (entries : list (string * any)) : Prop :=
  entries ≡ₚ map_to_list (data m).

(** [for k := range m.data { keys = append(keys, k) }], over the entries in
    the order of the visit. *)
Definition Keys (entries : list (string * any)) : list string :=
  foldl (λ keys entry, keys ++ [entry.1]) [] entries.

(** [for _, v := range m.data { values = append(values, v) }] *)
Definition Values (entries : list (string * any)) : list any :=
  foldl (λ values entry, values ++ [entry.2]) [] entries.

End SafeMap.

(** ** Semaphore *)

Module Semaphore.

(** [type Semaphore struct { sem chan struct{} }]: a slot is held by every
    element buffered in [sem]. *)
Record Semaphore : Type := mk { sem : chan unit }.

Definition NewSemaphore (size : Z) : call Semaphore :=
  match make_chan size with
  | Returned c => Returned (mk c)
  | Panicked r => Panicked r
  end.

Definition capacity (s : Semaphore) : nat := ch_cap (sem s).
Definition outstanding (s : Semaphore) : nat := chan_len (sem s).

(** [cap(s.sem) - len(s.sem)] *)
Definition Available (s : Semaphore) : Z :=
  Z.of_nat (ch_cap (sem s)) - Z.of_nat (chan_len (sem s)).

(** [s.sem <- struct{}{}] *)
Definition Acquire (s : Semaphore) : attempt Semaphore :=
  match chan_send (sem s) () with
  | Proceeds c => Proceeds (mk c)
  | Blocked => Blocked
  | Faults r => Faults r
  end.

(** The [select] between the send and [timer.C].  [timer_fired] tells
    whether the timer has expired when the caller is served; when the send
    and the timer are both ready the runtime picks one, [pick_timer]. *)
Definition AcquireWithTimeout (s : Semaphore) (timer_fired pick_timer : bool)
  : attempt (Semaphore * bool) :=
  match chan_send (sem s) () with
  | Proceeds c =>
      if timer_fired && pick_timer then Proceeds (s, false)
      else Proceeds (mk c, true)
  | Blocked => if timer_fired then Proceeds (s, false) else Blocked
  | Faults r => if timer_fired && pick_timer then Proceeds (s, false) else Faults r
  end.

(** [<-s.sem] *)
Definition Release (s : Semaphore) : attempt Semaphore :=
  match chan_recv (sem s) with
  | Proceeds (c, _) => Proceeds (mk c)
  | Blocked => Blocked
  | Faults r => Faults r
  end.

(** The [select] between the send and [default]. *)
Definition TryAcquire (s : Semaphore) : attempt (Semaphore * bool) :=
  match chan_send (sem s) () with
  | Proceeds c => Proceeds (mk c, true)
  | Blocked => Proceeds (s, false)
  | Faults r => Faults r
  end.

(** A sequence of operations on one semaphore, each taken at the moment it
    completes; an operation that is [Blocked] in a state cannot be the next
    one to complete there. *)
Inductive op : Type :=
  | OpAcquire
  | OpAcquireWithTimeout (timer_fired pick_timer : bool)
  | OpTryAcquire
  | OpRelease.

(** A completed operation with the value it returned. *)
Inductive event : Type :=
  | EvAcquire
  | EvAcquireWithTimeout (ok : bool)
  | EvTryAcquire (ok : bool)
  | EvRelease.

Definition step (s : Semaphore) (o : op) : attempt (Semaphore * event) :=
  match o with
  | OpAcquire =>
      match Acquire s with
      | Proceeds s' => Proceeds (s', EvAcquire)
      | Blocked => Blocked
      | Faults r => Faults r
      end
  | OpAcquireWithTimeout timer_fired pick_timer =>
      match AcquireWithTimeout s timer_fired pick_timer with
      | Proceeds (s', ok) => Proceeds (s', EvAcquireWithTimeout ok)
      | Blocked => Blocked
      | Faults r => Faults r
      end
  | OpTryAcquire =>
      match TryAcquire s with
      | Proceeds (s', ok) => Proceeds (s', EvTryAcquire ok)
      | Blocked => Blocked
      | Faults r => Faults r
      end
  | OpRelease =>
      match Release s with
      | Proceeds s' => Proceeds (s', EvRelease)
      | Blocked => Blocked
      | Faults r => Faults r
      end
  end.

(** The state and the events after a sequence of completed operations. *)
Fixpoint run (s : Semaphore) (ops : list op) : option (Semaphore * list event) :=
  match ops with
  | [] => Some (s, [])
  | o :: rest =>
      match step s o with
      | Proceeds (s', ev) =>
          match run s' rest with
          | Some (s'', evs) => Some (s'', ev :: evs)
          | None => None
          end
      | _ => None
      end
  end.

(** Successful acquisitions and releases among the events. *)
Definition is_acquired (ev : event) : bool :=
  match ev with
  | EvAcquire => true
  | EvAcquireWithTimeout ok => ok
  | EvTryAcquire ok => ok
  | EvRelease => false
  end.

Definition is_released (ev : event) : bool :=
  match ev with
  | EvRelease => true
  | _ => false
  end.

Fixpoint acquired (evs : list event) : nat :=
  match evs with
  | [] => 0
  | ev :: rest => ((if is_acquired ev then 1 else 0) + acquired rest)%nat
  end.

Fixpoint released (evs : list event) : nat :=
  match evs with
  | [] => 0
  | ev :: rest => ((if is_released ev then 1 else 0) + released rest)%nat
  end.

(** *** Vocabulary of the properties *)

(** The channel of a semaphore is never closed and never over-full. *)
Definition sem_ok (s : Semaphore) : Prop :=
  ch_closed (sem s) = false ∧ (chan_len (sem s) ≤ ch_cap (sem s))%nat.

End Semaphore.

(** ** RateLimiter *)

Module RateLimiter.

(** [time.Second] as a [time.Duration], in nanoseconds. *)
Definition Second : Z := 1000000000.

(** [interval], the token channel and whether [cancel] has been called on
    [ctx]. *)
Record RateLimiter : Type := mk {
  interval : Z;
  tokens : chan unit;
  ctx_done : bool
}.

(** [time.Second / time.Duration(maxRequestsPerSecond)] panics on a zero
    divisor; nothing else is tested before the limiter is built. *)
Definition NewRateLimiter (maxRequestsPerSecond : Z) : call RateLimiter :=
  if maxRequestsPerSecond =? 0
  then Panicked (Str "runtime error: integer divide by zero")
  else
    let interval := int_quo Second maxRequestsPerSecond in
    match make_chan 1 with
    | Returned c => Returned (mk interval c false)
    | Panicked r => Panicked r
    end.

(** [time.NewTicker(d)] panics unless [d] is positive. *)
Definition NewTicker (d : Z) : call unit :=
  if d <=? 0 then Panicked (Str "non-positive interval for NewTicker")
  else Returned ().

(** The inner [select] of [generateTokens]: deposit a token, or drop the
    tick when the send cannot proceed. *)
Definition deposit (r : RateLimiter) : attempt RateLimiter :=
  match chan_send (tokens r) () with
  | Proceeds c => Proceeds (mk (interval r) c (ctx_done r))
  | Blocked => Proceeds r
  | Faults x => Faults x
  end.

(** [<-r.tokens] *)
Definition Wait (r : RateLimiter) : attempt RateLimiter :=
  match chan_recv (tokens r) with
  | Proceeds (c, _) => Proceeds (mk (interval r) c (ctx_done r))
  | Blocked => Blocked
  | Faults x => Faults x
  end.

(** The [select] between the receive and [default]. *)
Definition TryWait (r : RateLimiter) : attempt (RateLimiter * bool) :=
  match chan_recv (tokens r) with
  | Proceeds (c, _) => Proceeds (mk (interval r) c (ctx_done r), true)
  | Blocked => Proceeds (r, false)
  | Faults x => Faults x
  end.

(** [r.cancel()] *)
Definition Close (r : RateLimiter) : RateLimiter :=
  mk (interval r) (tokens r) true.

(** The goroutine running [generateTokens]. *)
Inductive gen_pc : Type :=
  | GenNewTicker   (* started, about to create the ticker *)
  | GenSelect      (* in the loop, at the outer select *)
  | GenExited.     (* returned after ctx.Done() *)

(** The limiter with its generator; [crashed] holds the value of a panic
    that no goroutine recovered, which ends the process. *)
Record system : Type := mkSystem {
  lim : RateLimiter;
  gen : gen_pc;
  crashed : option any
}.

(** The state in which [NewRateLimiter] hands the limiter to its caller. *)
Definition start (r : RateLimiter) : system := mkSystem r GenNewTicker None.

Inductive op : Type :=
  | GenStep (tick : bool)  (* the generator moves; at the select, on a tick
                              or on ctx.Done() *)
  | OpWait
  | OpTryWait
  | OpClose.

Definition generateTokens (sys : system) (tick : bool) : option system :=
  match gen sys with
  | GenNewTicker =>
      match NewTicker (interval (lim sys)) with
      | Returned _ => Some (mkSystem (lim sys) GenSelect None)
      | Panicked r => Some (mkSystem (lim sys) GenNewTicker (Some r))
      end
  | GenSelect =>
      if tick then
        match deposit (lim sys) with
        | Proceeds r => Some (mkSystem r GenSelect None)
        | Blocked => None
        | Faults x => Some (mkSystem (lim sys) GenSelect (Some x))
        end
      else if ctx_done (lim sys) then Some (mkSystem (lim sys) GenExited None)
      else None
  | GenExited => None
  end.

Definition step (sys : system) (o : op) : option system :=
  match crashed sys with
  | Some _ => None
  | None =>
      match o with
      | GenStep tick => generateTokens sys tick
      | OpWait =>
          match Wait (lim sys) with
          | Proceeds r => Some (mkSystem r (gen sys) None)
          | Blocked => None
          | Faults x => Some (mkSystem (lim sys) (gen sys) (Some x))
          end
      | OpTryWait =>
          match TryWait (lim sys) with
          | Proceeds (r, _) => Some (mkSystem r (gen sys) None)
          | Blocked => None
          | Faults x => Some (mkSystem (lim sys) (gen sys) (Some x))
          end
      | OpClose => Some (mkSystem (Close (lim sys)) (gen sys) None)
      end
  end.

Fixpoint run (sys : system) (ops : list op) : option system :=
  match ops with
  | [] => Some sys
  | o :: rest =>
      match step sys o with
      | Some sys' => run sys' rest
      | None => None
      end
  end.

(** *** The history of a limiter and [RunWithRateLimit] *)

(** The operation, taken in this state, is a tick that the generator
    serves. *)
Definition is_tick (sys : system) (o : op) : bool :=
  match o, gen sys with
  | GenStep true, GenSelect => true
  | _, _ => false
  end.

(** The operation, taken in this state, hands a token to its caller:
    [Wait] returns, or [TryWait] returns true. *)
Definition takes_token (sys : system) (o : op) : bool :=
  match o with
  | OpWait => match Wait (lim sys) with Proceeds _ => true | _ => false end
  | OpTryWait => match TryWait (lim sys) with Proceeds (_, ok) => ok | _ => false end
  | _ => false
  end.

(** The ticks served and the tokens handed out along a run. *)
Fixpoint tally (sys : system) (ops : list op) : nat * nat :=
  match ops with
  | [] => (0%nat, 0%nat)
  | o :: rest =>
      match step sys o with
      | Some sys' =>
          let '(ticks, taken) := tally sys' rest in
          (((if is_tick sys o then 1 else 0) + ticks)%nat,
           ((if takes_token sys o then 1 else 0) + taken)%nat)
      | None => (0%nat, 0%nat)
      end
  end.

(** Where the caller stands in [RunWithRateLimit]; [fn] is modelled by the
    outcome of its call. *)
Inductive rwl_pc : Type :=
  | RWait                       (* at [limiter.Wait()] *)
  | RFn                         (* before [fn()] *)
  | RClose (p : option any)     (* deferred [limiter.Close()]; [p] is the
                                   panic of [fn], if it panicked *)
  | RDone (p : option any).     (* returned, or panicking on with [p] *)

Inductive rwl_action : Type :=
  | RCaller
  | RGen (tick : bool).

Definition rwl_step (fn : call unit) (st : system * rwl_pc) (a : rwl_action)
  : option (system * rwl_pc) :=
  match a with
  | RGen tick =>
      match step st.1 (GenStep tick) with
      | Some sys => Some (sys, st.2)
      | None => None
      end
  | RCaller =>
      match st.2 with
      | RWait =>
          match step st.1 OpWait with
          | Some sys => Some (sys, RFn)
          | None => None
          end
      | RFn =>
          match crashed st.1, fn with
          | Some _, _ => None
          | None, Returned _ => Some (st.1, RClose None)
          | None, Panicked r => Some (st.1, RClose (Some r))
          end
      | RClose p =>
          match step st.1 OpClose with
          | Some sys => Some (sys, RDone p)
          | None => None
          end
      | RDone _ => None
      end
  end.

Fixpoint rwl_run (fn : call unit) (st : system * rwl_pc) (acts : list rwl_action)
  : option (system * rwl_pc) :=
  match acts with
  | [] => Some st
  | a :: rest =>
      match rwl_step fn st a with
      | Some st' => rwl_run fn st' rest
      | None => None
      end
  end.

(** [RunWithRateLimit(maxRequestsPerSecond, fn)] under a schedule of the
    caller and the generator: the panic of the constructor, or the state
    after the schedule ([None] when the schedule asks for a move that is
    not enabled). *)
Definition RunWithRateLimit (maxRequestsPerSecond : Z) (fn : call unit)
  (acts : list rwl_action) : call (option (system * rwl_pc)) :=
  match NewRateLimiter maxRequestsPerSecond with
  | Returned limiter => Returned (rwl_run fn (start limiter, RWait) acts)
  | Panicked r => Panicked r
  end.

(** [fn] has been called, or is about to be. *)
Definition past_Wait (pc : rwl_pc) : bool :=
  match pc with
  | RWait => false
  | _ => true
  end.

(** *** Vocabulary of the properties *)

(** The token channel has capacity one, is open and holds at most one
    token. *)
Definition tokens_ok (r : RateLimiter) : Prop :=
  ch_cap (tokens r) = 1%nat ∧ ch_closed (tokens r) = false ∧
  (chan_len (tokens r) ≤ 1)%nat.

(** The generator has returned only after [Close]. *)
Definition gen_ok (sys : system) : Prop :=
  gen sys = GenExited → ctx_done (lim sys) = true.

(** The states of a call: the interval is the limiter's, the generator has
    created its ticker before any token exists, the caller is past [Wait]
    only if it does, and the limiter is closed exactly when the call is
    over, with the panic of [fn] if it panicked. *)
Definition rwl_ok (fn : call unit) (l : RateLimiter) (sys : system) (pc : rwl_pc)
  : Prop :=
  interval (lim sys) = interval l ∧
  tokens_ok (lim sys) ∧
  (gen sys ≠ GenNewTicker → 0 < interval l) ∧
  (gen sys = GenNewTicker → chan_len (tokens (lim sys)) = 0%nat ∧ pc = RWait) ∧
  (∀ p, pc = RClose p ∨ pc = RDone p →
        p = match fn with Panicked r => Some r | Returned _ => None end) ∧
  (ctx_done (lim sys) = true ↔ ∃ p, pc = RDone p).

End RateLimiter.

(** ** Parallelizer *)

Module Parallelizer.

(** [type Parallelizer struct { MaxGoroutines int; Timeout time.Duration }] *)
Record Parallelizer : Type := mk {
  MaxGoroutines : Z;
  Timeout : Z
}.

Definition NewParallelizer (maxGoroutines timeout : Z) : Parallelizer :=
  mk maxGoroutines timeout.

(** The caller's [context.Context], as far as the runner depends on it:
    [ctx_err] is [ctx.Err()] when [RunWithContext] is entered (non-nil when
    the context is done already), and [ctx_later] is the error with which
    its owner may still end it while the run goes on. *)
Record Context : Type := mkContext {
  ctx_err : error;
  ctx_later : option err
}.

(** [context.Background()] is never done. *)
Definition Background : Context := mkContext None None.

(** Where the calling goroutine stands in [RunWithContext]. *)
Inductive main_pc : Type :=
  | MInit              (* entry: the [var] block and the derived context *)
  | MAdd (i : nat)     (* loop head for task [i], before [wg.Add(1)] *)
  | MSend (i : nat)    (* before [sem <- struct{}{}] *)
  | MGo (i : nat)      (* before [go func(...)(i, task)] *)
  | MWait              (* at [wg.Wait()] *)
  | MReturned.         (* after [return results] *)

(** Where a task goroutine stands in its body. *)
Inductive go_pc : Type :=
  | GCheck             (* at the select on [ctxWithTO.Done()] *)
  | GCall              (* before [t()] under the deferred [recover] *)
  | GRelease           (* deferred: before [<-sem] *)
  | GDone              (* deferred: before [wg.Done()] *)
  | GExited.

#[global] Instance main_pc_eq_dec : EqDecision main_pc.
Proof. solve_decision. Defined.
#[global] Instance go_pc_eq_dec : EqDecision go_pc.
Proof. solve_decision. Defined.

(** A goroutine started by [go func(index int, t Task) {...}(i, task)]. *)
Record goroutine : Type := mkGo {
  g_index : nat;
  g_task : Task;
  g_pc : go_pc
}.

(** The shared variables of one call: the [results] slice, the [sem]
    channel, the [WaitGroup] counter, [ctxWithTO.Err()] (non-nil once the
    derived context is done), the goroutines started so far, and the value
    of a panic that nothing recovered. *)
Record state : Type := mkState {
  pc : main_pc;
  results : list TaskResult;
  sem : chan unit;
  wg : nat;
  done : error;
  gos : list goroutine;
  crashed : option any
}.

Definition init : state := mkState MInit [] (mkChan 0 [] false) 0 None [] None.

Definition set_pc (s : state) (x : main_pc) : state :=
  mkState x (results s) (sem s) (wg s) (done s) (gos s) (crashed s).
Definition set_results (s : state) (x : list TaskResult) : state :=
  mkState (pc s) x (sem s) (wg s) (done s) (gos s) (crashed s).
Definition set_sem (s : state) (x : chan unit) : state :=
  mkState (pc s) (results s) x (wg s) (done s) (gos s) (crashed s).
Definition set_wg (s : state) (x : nat) : state :=
  mkState (pc s) (results s) (sem s) x (done s) (gos s) (crashed s).
Definition set_done (s : state) (x : error) : state :=
  mkState (pc s) (results s) (sem s) (wg s) x (gos s) (crashed s).
Definition set_gos (s : state) (x : list goroutine) : state :=
  mkState (pc s) (results s) (sem s) (wg s) (done s) x (crashed s).
Definition set_crashed (s : state) (r : any) : state :=
  mkState (pc s) (results s) (sem s) (wg s) (done s) (gos s) (Some r).

(** The goroutine at position [k] moves on to [x]. *)
Definition set_go_pc (s : state) (k : nat) (g : goroutine) (x : go_pc) : state :=
  set_gos s (<[k := mkGo (g_index g) (g_task g) x]> (gos s)).

(** [results[index] = TaskResult{Value: nil, Error: ctxWithTO.Err(), Index: index}] *)
Definition deadline_result (e : err) (index : nat) : TaskResult :=
  mkTaskResult Nil (Some e) (Z.of_nat index).

(** [value, err := t(); results[index] = TaskResult{value, err, index}]
    under the deferred function that stores the panic as an error when
    [recover()] is not nil. *)
Definition invoke (results : list TaskResult) (index : nat) (t : Task)
  : list TaskResult :=
  match t with
  | Returns value e =>
      <[index := mkTaskResult value e (Z.of_nat index)]> results
  | Panics r =>
      let r := recover r in
      if decide (r = Nil) then results
      else <[index := mkTaskResult Nil (Some (Errorf_panic r)) (Z.of_nat index)]> results
  end.

(** The deferred [cancelFunc()] ends the derived context if nothing else
    has. *)
Definition cancelFunc (e : error) : error :=
  match e with
  | Some _ => e
  | None => Some Canceled
  end.

Definition main_step (p : Parallelizer) (ctx : Context) (tasks : list Task)
  (s : state) : option state :=
  match pc s with
  | MInit =>
      match make_chan (MaxGoroutines p) with
      | Returned c =>
          Some (mkState (MAdd 0) (replicate (length tasks) zeroTaskResult)
                  c 0 (ctx_err ctx) [] None)
      | Panicked r => Some (set_crashed s r)
      end
  | MAdd i =>
      if (i <? length tasks)%nat
      then Some (set_pc (set_wg s (S (wg s))) (MSend i))
      else Some (set_pc s MWait)
  | MSend i =>
      match chan_send (sem s) () with
      | Proceeds c => Some (set_pc (set_sem s c) (MGo i))
      | Blocked => None
      | Faults r => Some (set_crashed s r)
      end
  | MGo i =>
      match tasks !! i with
      | Some task => Some (set_pc (set_gos s (gos s ++ [mkGo i task GCheck])) (MAdd (S i)))
      | None => None
      end
  | MWait =>
      match wg s with
      | O => Some (set_pc (set_done s (cancelFunc (done s))) MReturned)
      | S _ => None
      end
  | MReturned => None
  end.

Definition go_step (s : state) (k : nat) : option state :=
  match gos s !! k with
  | Some g =>
      match g_pc g with
      | GCheck =>
          match done s with
          | Some e =>
              Some (set_go_pc
                      (set_results s (<[g_index g := deadline_result e (g_index g)]> (results s)))
                      k g GRelease)
          | None => Some (set_go_pc s k g GCall)
          end
      | GCall =>
          Some (set_go_pc
                  (set_results s (invoke (results s) (g_index g) (g_task g)))
                  k g GRelease)
      | GRelease =>
          match chan_recv (sem s) with
          | Proceeds (c, _) => Some (set_go_pc (set_sem s c) k g GDone)
          | Blocked => None
          | Faults r => Some (set_crashed s r)
          end
      | GDone =>
          match wg s with
          | S n => Some (set_go_pc (set_wg s n) k g GExited)
          | O => Some (set_crashed s (Str "sync: negative WaitGroup counter"))
          end
      | GExited => None
      end
  | None => None
  end.

(** The derived context exists from the entry step until the return. *)
Definition ctx_live (s : state) : bool :=
  match pc s with
  | MInit | MReturned => false
  | _ => true
  end.

(** Who moves: the caller, the goroutine at position [k], the timer of
    [context.WithTimeout], or the owner of the caller's context. *)
Inductive action : Type :=
  | AMain
  | AGo (k : nat)
  | ATimer
  | AParent.

Definition step (p : Parallelizer) (ctx : Context) (tasks : list Task)
  (s : state) (a : action) : option state :=
  match crashed s with
  | Some _ => None
  | None =>
      match a with
      | AMain => main_step p ctx tasks s
      | AGo k => go_step s k
      | ATimer =>
          if (0 <? Timeout p) && ctx_live s then
            match done s with
            | None => Some (set_done s (Some DeadlineExceeded))
            | Some _ => None
            end
          else None
      | AParent =>
          if ctx_live s then
            match ctx_later ctx, done s with
            | Some e, None => Some (set_done s (Some e))
            | _, _ => None
            end
          else None
      end
  end.

Fixpoint run (p : Parallelizer) (ctx : Context) (tasks : list Task)
  (s : state) (acts : list action) : option state :=
  match acts with
  | [] => Some s
  | a :: rest =>
      match step p ctx tasks s a with
      | Some s' => run p ctx tasks s' rest
      | None => None
      end
  end.

(** A call, by the schedule it is run under: the state after the actions,
    or [None] when the schedule asks for a move that is not enabled. *)
Definition RunWithContext (p : Parallelizer) (ctx : Context) (tasks : list Task)
  : list action → option state :=
  run p ctx tasks init.

Definition Run (p : Parallelizer) (tasks : list Task) : list action → option state :=
  RunWithContext p Background tasks.

Definition RunTasksWithTimeout (timeout : Z) (tasks : list Task)
  : list action → option state :=
  let parallelizer := NewParallelizer (Z.of_nat (length tasks)) timeout in
  Run parallelizer tasks.

Definition RunTasksConcurrently (maxGoroutines : Z) (tasks : list Task)
  : list action → option state :=
  let parallelizer := NewParallelizer maxGoroutines 0 in
  Run parallelizer tasks.

(** The call returns [rs] under some schedule. *)
Definition returns (call : list action → option state) (rs : list TaskResult) : Prop :=
  ∃ acts s, call acts = Some s ∧ pc s = MReturned ∧ results s = rs.

(** The runner as the specification words it: a one-shot runner with the
    given bound and deadline, run on the tasks. *)
Definition spec_runner (maxConcurrency timeout : Z) (tasks : list Task)
  (rs : list TaskResult) : Prop :=
  ∃ p, MaxGoroutines p = maxConcurrency ∧ Timeout p = timeout ∧
       returns (Run p tasks) rs.

(** *** Vocabulary of the properties *)

(** What the goroutine of task [t] at position [i] stores when it gets to
    call the task. *)
Definition task_result (t : Task) (i : nat) : TaskResult :=
  match t with
  | Returns value e => mkTaskResult value e (Z.of_nat i)
  | Panics r => mkTaskResult Nil (Some (Errorf_panic (recover r))) (Z.of_nat i)
  end.

(** The errors with which the derived context can be done while the call
    runs: the deadline when a timeout is set, or the caller's context. *)
Definition may_end (p : Parallelizer) (ctx : Context) (e : err) : Prop :=
  (0 < Timeout p ∧ e = DeadlineExceeded) ∨ ctx_err ctx = Some e ∨ ctx_later ctx = Some e.

(** The result at position [k] is the one of a goroutine that is through
    with its task: the task's own, or the record of a context that was
    done before the task was started. *)
Definition settled (p : Parallelizer) (ctx : Context) (t : Task) (k : nat)
  (r : TaskResult) : Prop :=
  r = task_result t k ∨ ∃ e, may_end p ctx e ∧ r = deadline_result e k.

Definition holds_slot (g : goroutine) : bool :=
  match g_pc g with
  | GCheck | GCall | GRelease => true
  | GDone | GExited => false
  end.

Definition unfinished (g : goroutine) : bool :=
  match g_pc g with
  | GExited => false
  | _ => true
  end.

(** Goroutines started so far, by the caller's position. *)
Definition spawned (n : nat) (m : main_pc) : nat :=
  match m with
  | MInit => 0
  | MAdd i | MSend i | MGo i => i
  | MWait | MReturned => n
  end.

Definition pc_ok (n : nat) (m : main_pc) : Prop :=
  match m with
  | MAdd i => (i ≤ n)%nat
  | MSend i | MGo i => (i < n)%nat
  | MInit | MWait | MReturned => True
  end.

(** The slot and the [WaitGroup] unit that the caller has taken for a
    goroutine it has not started yet. *)
Definition main_slot (m : main_pc) : nat :=
  match m with
  | MGo _ => 1
  | _ => 0
  end.

Definition main_wg (m : main_pc) : nat :=
  match m with
  | MSend _ | MGo _ => 1
  | _ => 0
  end.

Definition slot_ok (p : Parallelizer) (ctx : Context) (tasks : list Task)
  (rs : list TaskResult) (k : nat) (g : goroutine) : Prop :=
  g_index g = k ∧ tasks !! k = Some (g_task g) ∧
  match g_pc g with
  | GCheck | GCall => True
  | GRelease | GDone | GExited =>
      ∃ r, rs !! k = Some r ∧ settled p ctx (g_task g) k r
  end.

(** The invariant of a call after its entry step. *)
Record Inv (p : Parallelizer) (ctx : Context) (tasks : list Task) (s : state)
  : Prop := mkInv {
  inv_crashed : crashed s = None;
  inv_pc : pc s ≠ MInit ∧ pc_ok (length tasks) (pc s);
  inv_len : length (results s) = length tasks;
  inv_spawned : length (gos s) = spawned (length tasks) (pc s);
  inv_cap : ch_cap (sem s) = Z.to_nat (MaxGoroutines p) ∧ ch_closed (sem s) = false;
  inv_sem : chan_len (sem s) = (count holds_slot (gos s) + main_slot (pc s))%nat;
  inv_wg : wg s = (count unfinished (gos s) + main_wg (pc s))%nat;
  inv_returned : pc s = MReturned → wg s = 0%nat;
  inv_done : ∀ e, done s = Some e → may_end p ctx e ∨ pc s = MReturned;
  inv_slots : ∀ k g, gos s !! k = Some g → slot_ok p ctx tasks (results s) k g
}.

(** Steps that are left at most: to the caller, to a goroutine, and in
    all. *)
Definition main_weight (n : nat) (m : main_pc) : nat :=
  match m with
  | MInit => 7 * n + 3
  | MAdd i => 7 * (n - i) + 2
  | MSend i => 7 * (n - i) + 1
  | MGo i => 7 * (n - i)
  | MWait => 1
  | MReturned => 0
  end.

Definition go_weight (g : goroutine) : nat :=
  match g_pc g with
  | GCheck => 4
  | GCall => 3
  | GRelease => 2
  | GDone => 1
  | GExited => 0
  end.

Fixpoint go_weights (l : list goroutine) : nat :=
  match l with
  | [] => 0
  | g :: rest => go_weight g + go_weights rest
  end.

Definition measure (n : nat) (s : state) : nat :=
  match crashed s with
  | Some _ => 0
  | None =>
      1 + main_weight n (pc s) + go_weights (gos s)
        + (match done s with None => 1 | Some _ => 0 end)
  end.


(** A schedule that serves the caller and then each started goroutine to
    its end, in turn; used to run examples. *)
Fixpoint serial (n k : nat) : list action :=
  match n with
  | O => []
  | S n' => [AMain; AMain; AMain; AGo k; AGo k; AGo k; AGo k] ++ serial n' (S k)
  end.

Definition serial_schedule (n : nat) : list action :=
  [AMain] ++ serial n 0 ++ [AMain; AMain].

(** The goroutine is at the call of its task. *)
Definition calling (g : goroutine) : bool :=
  match g_pc g with
  | GCall => true
  | _ => false
  end.

(** The states of a call that was entered with a context that is done
    with [e]: the derived context is done with [e], no goroutine is at the
    call of its task, and a goroutine that is past its test has stored the
    error of the context. *)
Definition entered_done (e : err) (s : state) : Prop :=
  pc s ≠ MInit →
  done s = Some e ∧
  ∀ k g, gos s !! k = Some g →
         g_pc g ≠ GCall ∧
         (g_pc g ≠ GCheck → results s !! k = Some (deadline_result e k)).

(** The goroutine at position [k] runs [t] and has got to the call of it:
    it is at the call, or past it with the result of [t] stored at [k]. *)
Definition started (t : Task) (k : nat) (s : state) : Prop :=
  ∃ g, gos s !! k = Some g ∧ g_task g = t ∧
       (g_pc g = GCall ∨
        (g_pc g ≠ GCheck ∧ g_pc g ≠ GCall ∧
         results s !! k = Some (task_result t k))).

(** The states of a call under a bound of zero with a task to run: the
    caller has not got past its first send, and nothing was started. *)
Definition blocked_at_first_send (s : state) : Prop :=
  crashed s = None ∧ gos s = [] ∧
  (pc s = MInit ∨
   (ch_cap (sem s) = 0%nat ∧ ch_closed (sem s) = false ∧
    (pc s = MAdd 0 ∨ pc s = MSend 0))).

End Parallelizer.

(** ** BatchProcess *)

Module Batch.
Import Parallelizer.

(** [make([][]T, 0, n)] panics on a negative capacity (an upper limit, which
    depends on the memory of the machine, is not modelled). *)
Definition make_slice_cap (n : Z) : call unit :=
  if n <? 0 then Panicked (Str "runtime error: makeslice: cap out of range")
  else Returned ().

(** [items[lo:hi]] with its bounds check. *)
Definition slice {T : Type} (items : list T) (lo hi : Z) : call (list T) :=
  if (0 <=? lo) && (lo <=? hi) && (hi <=? Z.of_nat (length items))
  then Returned (take (Z.to_nat (hi - lo)) (drop (Z.to_nat lo) items))
  else Panicked (Str "runtime error: slice bounds out of range").

(** [(len(items) + batchSize - 1) / batchSize] *)
Definition batchCount {T : Type} (items : list T) (batchSize : Z) : call Z :=
  if batchSize =? 0 then Panicked (Str "runtime error: integer divide by zero")
  else Returned (int_quo (int_sub (int_add (Z.of_nat (length items)) batchSize) 1)
                         batchSize).

(** The splitting loop, [for i := 0; i < len(items); i += batchSize], from
    index [i] on with the batches appended so far; [None] when the fuel does
    not reach the end of the loop. *)
Fixpoint split_loop {T : Type} (fuel : nat) (items : list T) (batchSize i : Z)
  (batches : list (list T)) : option (call (list (list T))) :=
  match fuel with
  | O => None
  | S fuel' =>
      if i <? Z.of_nat (length items) then
        let end_ := int_add i batchSize in
        let end_ := if end_ >? Z.of_nat (length items)
                    then Z.of_nat (length items) else end_ in
        match slice items i end_ with
        | Returned batch =>
            split_loop fuel' items batchSize (int_add i batchSize) (batches ++ [batch])
        | Panicked r => Some (Panicked r)
        end
      else Some (Returned batches)
  end.

(** The first part of [BatchProcess]: the batches. *)
Definition split {T : Type} (items : list T) (batchSize : Z)
  : option (call (list (list T))) :=
  match batchCount items batchSize with
  | Panicked r => Some (Panicked r)
  | Returned n =>
      match make_slice_cap n with
      | Panicked r => Some (Panicked r)
      | Returned _ => split_loop (S (length items)) items batchSize 0 []
      end
  end.

(** [func() (interface{}, error) { return nil, processBatch(batchCopy) }] *)
Definition batch_task {T : Type} (processBatch : list T → call error)
  (batch : list T) : Task :=
  match processBatch batch with
  | Returned e => Returns Nil e
  | Panicked r => Panics r
  end.

(** The scan of the results for the first error that is not nil. *)
Fixpoint first_error (results : list TaskResult) : error :=
  match results with
  | [] => None
  | result :: rest =>
      match Error result with
      | Some e => Some e
      | None => first_error rest
      end
  end.

(** How a call of [BatchProcess] stands under a schedule of the runner. *)
Inductive outcome : Type :=
  | BReturned (e : error)
  | BPanicked (r : any)
  | BRunning.

Definition BatchProcess {T : Type} (items : list T) (batchSize maxGoroutines : Z)
  (processBatch : list T → call error) (acts : list action) : outcome :=
  match split items batchSize with
  | None => BRunning
  | Some (Panicked r) => BPanicked r
  | Some (Returned batches) =>
      let tasks := map (batch_task processBatch) batches in
      match RunTasksConcurrently maxGoroutines tasks acts with
      | Some s =>
          match crashed s with
          | Some r => BPanicked r
          | None =>
              if decide (pc s = MReturned) then BReturned (first_error (results s))
              else BRunning
          end
      | None => BRunning
      end
  end.

(** *** Vocabulary of the properties *)

(** The error that the batch function leaves in the result of its chunk. *)
Definition batch_error {T : Type} (processBatch : list T → call error)
  (batch : list T) : error :=
  match processBatch batch with
  | Returned e => e
  | Panicked r => Some (Errorf_panic (recover r))
  end.

(** The first error that is not nil in a list of errors. *)
Fixpoint first_non_nil (es : list error) : error :=
  match es with
  | [] => None
  | Some e :: _ => Some e
  | None :: rest => first_non_nil rest
  end.

(** Consecutive chunks of [items] from index [i] on: each of at most
    [batchSize] elements and not empty, all but the last one full. *)
Definition chunks_of {T : Type} (items : list T) (batchSize : Z) (i : Z)
  (chunks : list (list T)) : Prop :=
  concat chunks = drop (Z.to_nat i) items ∧
  Forall (λ b, 0 < Z.of_nat (length b) ≤ batchSize) chunks ∧
  (∀ j b, chunks !! j = Some b → (S j < length chunks)%nat →
          Z.of_nat (length b) = batchSize).

End Batch.

(** ** ThreadPool *)

Module ThreadPool.

(** [errors.New("线程池已停止")], the error of a pool that is closed. *)
Definition PoolClosed : err := ErrorsNew "线程池已停止".

(** Where a worker stands in [worker]. *)
Inductive worker_pc : Type :=
  | WSelect             (* at the select, not parked yet *)
  | WParked             (* parked in the select: nothing was ready *)
  | WRun (task : Task)  (* received a task, before [task()] *)
  | WDecr               (* before [p.taskCount.Decrement()] *)
  | WReturn             (* leaving: before the deferred [pool.wg.Done()] *)
  | WExited.

(** Where a caller of [Submit] stands. *)
Inductive submit_pc : Type :=
  | SubInit                  (* before [p.mu.Lock()] *)
  | SubIncr                  (* unlocked, before [p.taskCount.Increment()] *)
  | SubSelect                (* at the select, not parked yet *)
  | SubParked                (* parked in the select: nothing was ready *)
  | SubWoken                 (* the case [<-p.ctx.Done()] was taken *)
  | SubReturned (e : error)
  | SubPanicked (r : any).   (* send on the closed channel *)

(** Where a caller of [Stop] stands. *)
Inductive stop_pc : Type :=
  | StopInit      (* before [p.mu.Lock()] *)
  | StopCancel    (* holds the lock, [stopped] set, before [p.cancelFunc()] *)
  | StopClose     (* before [close(p.tasks)] *)
  | StopWait      (* at [p.wg.Wait()] *)
  | StopReturned.

(** A call in progress or finished, made by some goroutine of the program. *)
Inductive caller : Type :=
  | CSubmit (task : Task) (pc : submit_pc)
  | CStop (pc : stop_pc).

#[global] Instance worker_pc_eq_dec : EqDecision worker_pc.
Proof. solve_decision. Defined.
#[global] Instance submit_pc_eq_dec : EqDecision submit_pc.
Proof. solve_decision. Defined.
#[global] Instance stop_pc_eq_dec : EqDecision stop_pc.
Proof. solve_decision. Defined.
#[global] Instance caller_eq_dec : EqDecision caller.
Proof. solve_decision. Defined.

(** The pool with its threads: the fields of [ThreadPool] ([ctx_done] tells
    whether [cancelFunc] was called, [mu] whether the mutex is held, [wg] is
    the [WaitGroup] counter), the workers, the callers, the callers parked
    on the send and the workers parked on the receive, oldest first, and the
    value of a panic that no goroutine recovered, which ends the process. *)
Record state : Type := mkState {
  tasks : chan Task;
  taskCount : SafeCounter.SafeCounter;
  ctx_done : bool;
  stopped : bool;
  mu : bool;
  wg : nat;
  ws : list worker_pc;
  callers : list caller;
  sendq : list nat;
  recvq : list nat;
  crashed : option any
}.

(** [NewThreadPool(workers, queueSize)]: the channel, and one started
    worker and one [wg.Add(1)] for each of [workers]. *)
Definition NewThreadPool (workers queueSize : Z) : call state :=
  match make_chan queueSize with
  | Returned c =>
      Returned (mkState c (SafeCounter.mk 0) false false false (Z.to_nat workers)
                  (replicate (Z.to_nat workers) WSelect) [] [] [] None)
  | Panicked r => Panicked r
  end.

Definition set_tasks (s : state) (x : chan Task) : state :=
  mkState x (taskCount s) (ctx_done s) (stopped s) (mu s) (wg s) (ws s)
    (callers s) (sendq s) (recvq s) (crashed s).
Definition set_taskCount (s : state) (x : SafeCounter.SafeCounter) : state :=
  mkState (tasks s) x (ctx_done s) (stopped s) (mu s) (wg s) (ws s)
    (callers s) (sendq s) (recvq s) (crashed s).
Definition set_ctx_done (s : state) (x : bool) : state :=
  mkState (tasks s) (taskCount s) x (stopped s) (mu s) (wg s) (ws s)
    (callers s) (sendq s) (recvq s) (crashed s).
Definition set_stopped (s : state) (x : bool) : state :=
  mkState (tasks s) (taskCount s) (ctx_done s) x (mu s) (wg s) (ws s)
    (callers s) (sendq s) (recvq s) (crashed s).
Definition set_mu (s : state) (x : bool) : state :=
  mkState (tasks s) (taskCount s) (ctx_done s) (stopped s) x (wg s) (ws s)
    (callers s) (sendq s) (recvq s) (crashed s).
Definition set_wg (s : state) (x : nat) : state :=
  mkState (tasks s) (taskCount s) (ctx_done s) (stopped s) (mu s) x (ws s)
    (callers s) (sendq s) (recvq s) (crashed s).
Definition set_ws (s : state) (x : list worker_pc) : state :=
  mkState (tasks s) (taskCount s) (ctx_done s) (stopped s) (mu s) (wg s) x
    (callers s) (sendq s) (recvq s) (crashed s).
Definition set_callers (s : state) (x : list caller) : state :=
  mkState (tasks s) (taskCount s) (ctx_done s) (stopped s) (mu s) (wg s) (ws s)
    x (sendq s) (recvq s) (crashed s).
Definition set_sendq (s : state) (x : list nat) : state :=
  mkState (tasks s) (taskCount s) (ctx_done s) (stopped s) (mu s) (wg s) (ws s)
    (callers s) x (recvq s) (crashed s).
Definition set_recvq (s : state) (x : list nat) : state :=
  mkState (tasks s) (taskCount s) (ctx_done s) (stopped s) (mu s) (wg s) (ws s)
    (callers s) (sendq s) x (crashed s).
Definition set_crashed (s : state) (r : any) : state :=
  mkState (tasks s) (taskCount s) (ctx_done s) (stopped s) (mu s) (wg s) (ws s)
    (callers s) (sendq s) (recvq s) (Some r).

Definition set_worker (s : state) (k : nat) (x : worker_pc) : state :=
  set_ws s (<[k := x]> (ws s)).
Definition set_caller (s : state) (j : nat) (x : caller) : state :=
  set_callers s (<[j := x]> (callers s)).

(** Closing the channel of [ctx.Done()] wakes every goroutine parked in a
    select on it, with that case. *)
Definition wake_on_done_caller (c : caller) : caller :=
  match c with
  | CSubmit task SubParked => CSubmit task SubWoken
  | _ => c
  end.

Definition wake_on_done_worker (w : worker_pc) : worker_pc :=
  match w with
  | WParked => WReturn
  | _ => w
  end.

(** [close(p.tasks)] makes every parked sender panic and hands every parked
    receiver [ok = false]. *)
Definition wake_on_close_caller (c : caller) : caller :=
  match c with
  | CSubmit task SubParked => CSubmit task (SubPanicked (Str "send on closed channel"))
  | _ => c
  end.

(** The oldest caller parked on the send, with its task. *)
Definition parked_sender (s : state) : option (nat * Task * list nat) :=
  match sendq s with
  | j :: rest =>
      match callers s !! j with
      | Some (CSubmit task SubParked) => Some (j, task, rest)
      | _ => None
      end
  | [] => None
  end.

(** The oldest worker parked on the receive. *)
Definition parked_receiver (s : state) : option (nat * list nat) :=
  match recvq s with
  | k :: rest =>
      match ws s !! k with
      | Some WParked => Some (k, rest)
      | _ => None
      end
  | [] => None
  end.

(** The send of [Submit]'s select can fire: the channel is closed (and the
    send panics), a worker is parked on the receive, or the buffer has
    room. *)
Definition send_ready (s : state) : bool :=
  ch_closed (tasks s)
  || bool_decide (is_Some (parked_receiver s))
  || (chan_len (tasks s) <? ch_cap (tasks s))%nat.

(** The receive of the worker's select can fire: a task is buffered, the
    channel is closed, or a caller is parked on the send. *)
Definition recv_ready (s : state) : bool :=
  bool_decide (ch_buf (tasks s) ≠ [])
  || ch_closed (tasks s)
  || bool_decide (is_Some (parked_sender s)).

(** One step of the caller [j] of [Submit(task)] standing at [pc]; when the
    send and [ctx.Done()] are both ready, [pick_send] is the runtime's
    choice. *)
Definition Submit (s : state) (j : nat) (task : Task) (pc : submit_pc)
  (pick_send : bool) : option state :=
  match pc with
  | SubInit =>
      if mu s then None
      else if stopped s
           then Some (set_caller s j (CSubmit task (SubReturned (Some PoolClosed))))
           else Some (set_caller s j (CSubmit task SubIncr))
  | SubIncr =>
      Some (set_caller (set_taskCount s (SafeCounter.Increment (taskCount s)).1) j
              (CSubmit task SubSelect))
  | SubSelect =>
      if send_ready s && (negb (ctx_done s) || pick_send) then
        if ch_closed (tasks s)
        then Some (set_caller s j
                     (CSubmit task (SubPanicked (Str "send on closed channel"))))
        else
          match parked_receiver s with
          | Some (k, rest) =>
              Some (set_caller (set_recvq (set_worker s k (WRun task)) rest) j
                      (CSubmit task (SubReturned None)))
          | None =>
              Some (set_caller
                      (set_tasks s (mkChan (ch_cap (tasks s))
                                      (ch_buf (tasks s) ++ [task]) false))
                      j (CSubmit task (SubReturned None)))
          end
      else if ctx_done s then Some (set_caller s j (CSubmit task SubWoken))
      else Some (set_caller (set_sendq s (sendq s ++ [j])) j (CSubmit task SubParked))
  | SubParked => None
  | SubWoken =>
      Some (set_caller (set_taskCount s (SafeCounter.Decrement (taskCount s)).1) j
              (CSubmit task (SubReturned (Some PoolClosed))))
  | SubReturned _ => None
  | SubPanicked _ => None
  end.

(** One step of the caller [j] of [Stop()] standing at [pc]. *)
Definition Stop (s : state) (j : nat) (pc : stop_pc) : option state :=
  match pc with
  | StopInit =>
      if mu s then None
      else if stopped s then Some (set_caller s j (CStop StopReturned))
           else Some (set_caller (set_stopped (set_mu s true) true) j (CStop StopCancel))
  | StopCancel =>
      let s := set_ctx_done s true in
      let s := set_callers s (wake_on_done_caller <$> callers s) in
      let s := set_ws s (wake_on_done_worker <$> ws s) in
      let s := set_recvq (set_sendq s []) [] in
      Some (set_caller s j (CStop StopClose))
  | StopClose =>
      if ch_closed (tasks s)
      then Some (set_crashed s (Str "close of closed channel"))
      else
        let s := set_tasks s (mkChan (ch_cap (tasks s)) (ch_buf (tasks s)) true) in
        let s := set_callers s (wake_on_close_caller <$> callers s) in
        let s := set_ws s (wake_on_done_worker <$> ws s) in
        let s := set_recvq (set_sendq s []) [] in
        Some (set_caller s j (CStop StopWait))
  | StopWait =>
      match wg s with
      | O => Some (set_caller (set_mu s false) j (CStop StopReturned))
      | S _ => None
      end
  | StopReturned => None
  end.

(** One step of the worker [k] standing at [pc]; when [ctx.Done()] and the
    receive are both ready, [pick_recv] is the runtime's choice. *)
Definition worker (s : state) (k : nat) (pc : worker_pc) (pick_recv : bool)
  : option state :=
  match pc with
  | WSelect =>
      if recv_ready s && (negb (ctx_done s) || pick_recv) then
        match ch_buf (tasks s) with
        | task :: rest =>
            match parked_sender s with
            | Some (j, task', q) =>
                (* the buffer was full: the parked sender's task takes the
                   place that the received one leaves *)
                let s := set_tasks s (mkChan (ch_cap (tasks s)) (rest ++ [task'])
                                        (ch_closed (tasks s))) in
                let s := set_caller (set_sendq s q) j (CSubmit task' (SubReturned None)) in
                Some (set_worker s k (WRun task))
            | None =>
                Some (set_worker
                        (set_tasks s (mkChan (ch_cap (tasks s)) rest (ch_closed (tasks s))))
                        k (WRun task))
            end
        | [] =>
            match parked_sender s with
            | Some (j, task', q) =>
                let s := set_caller (set_sendq s q) j (CSubmit task' (SubReturned None)) in
                Some (set_worker s k (WRun task'))
            | None => Some (set_worker s k WReturn)   (* closed: [ok] is false *)
            end
        end
      else if ctx_done s then Some (set_worker s k WReturn)
      else Some (set_worker (set_recvq s (recvq s ++ [k])) k WParked)
  | WParked => None
  | WRun task =>
      match task with
      | Returns _ _ => Some (set_worker s k WDecr)
      | Panics r => Some (set_crashed s r)
      end
  | WDecr =>
      Some (set_worker (set_taskCount s (SafeCounter.Decrement (taskCount s)).1) k WSelect)
  | WReturn =>
      match wg s with
      | S n => Some (set_worker (set_wg s n) k WExited)
      | O => Some (set_crashed s (Str "sync: negative WaitGroup counter"))
      end
  | WExited => None
  end.

(** Who moves: some goroutine of the program calls [Submit] or [Stop], a
    caller goes on, or a worker goes on. *)
Inductive action : Type :=
  | ACallSubmit (task : Task)
  | ACallStop
  | ACaller (j : nat) (pick_send : bool)
  | AWorker (k : nat) (pick_recv : bool).

Definition step (s : state) (a : action) : option state :=
  match crashed s with
  | Some _ => None
  | None =>
      match a with
      | ACallSubmit task => Some (set_callers s (callers s ++ [CSubmit task SubInit]))
      | ACallStop => Some (set_callers s (callers s ++ [CStop StopInit]))
      | ACaller j pick_send =>
          match callers s !! j with
          | Some (CSubmit task pc) => Submit s j task pc pick_send
          | Some (CStop pc) => Stop s j pc
          | None => None
          end
      | AWorker k pick_recv =>
          match ws s !! k with
          | Some pc => worker s k pc pick_recv
          | None => None
          end
      end
  end.

Fixpoint run (s : state) (acts : list action) : option state :=
  match acts with
  | [] => Some s
  | a :: rest =>
      match step s a with
      | Some s' => run s' rest
      | None => None
      end
  end.

(** *** Vocabulary of the properties *)

(** A call of [Stop] that holds the mutex. *)
Definition stop_in_progress (c : caller) : bool :=
  match c with
  | CStop StopCancel | CStop StopClose | CStop StopWait => true
  | _ => false
  end.

Definition stop_returned (c : caller) : bool :=
  match c with
  | CStop StopReturned => true
  | _ => false
  end.

(** A call of [Stop] that has cancelled the context and not returned. *)
Definition stop_past_cancel (c : caller) : bool :=
  match c with
  | CStop StopClose | CStop StopWait => true
  | _ => false
  end.

Definition submit_parked (c : caller) : bool :=
  match c with
  | CSubmit _ SubParked => true
  | _ => false
  end.

(** A call of [Submit] that has added its unit to the pending counter and
    has neither handed its task over nor taken the unit back. *)
Definition submit_pending (c : caller) : bool :=
  match c with
  | CSubmit _ (SubSelect | SubParked | SubWoken | SubPanicked _) => true
  | _ => false
  end.

(** A worker that holds a task whose unit is still on the pending counter. *)
Definition worker_busy (w : worker_pc) : bool :=
  match w with
  | WRun _ | WDecr => true
  | _ => false
  end.

(** Tasks that were submitted and are not completed: with a caller that
    has counted them, in the queue, or with a worker. *)
Definition pending (s : state) : nat :=
  (count submit_pending (callers s) + length (ch_buf (tasks s))
   + count worker_busy (ws s))%nat.

(** The pending counter holds the number of pending tasks. *)
Definition counted (s : state) : Prop :=
  SafeCounter.value (taskCount s) = wrap64 (Z.of_nat (pending s)).

(** The invariant of a pool: the mutex is held exactly while one call of
    [Stop] is under way, which is the one that set [stopped]; no call of
    [Stop] has got anywhere while [stopped] is false, or has returned while
    the mutex is held; and no caller of [Submit] is parked once the context
    is cancelled, which it is when [Stop] gets to close the channel. *)
Record Inv (s : state) : Prop := mkInv {
  inv_mu : count stop_in_progress (callers s) = if mu s then 1%nat else 0%nat;
  inv_stopped : stopped s = false →
                count stop_in_progress (callers s) = 0%nat ∧
                count stop_returned (callers s) = 0%nat;
  inv_locked : mu s = true → count stop_returned (callers s) = 0%nat;
  inv_done : ctx_done s = true → count submit_parked (callers s) = 0%nat;
  inv_past : ctx_done s = false → count stop_past_cancel (callers s) = 0%nat
}.

(** A worker whose goroutine has not called [pool.wg.Done()] yet. *)
Definition alive (w : worker_pc) : bool :=
  match w with
  | WExited => false
  | _ => true
  end.

(** A call of [Stop] that holds the mutex and has not closed the channel,
    and one that has and waits for the workers. *)
Definition stop_before_close (c : caller) : bool :=
  match c with
  | CStop StopCancel | CStop StopClose => true
  | _ => false
  end.

Definition stop_waiting (c : caller) : bool :=
  match c with
  | CStop StopWait => true
  | _ => false
  end.

(** One round of the loop of [Wait]: true when the test
    [p.taskCount.Get() > 0] fails and [Wait] returns, false when it
    sleeps and tests again. *)
Definition Wait (s : state) : bool :=
  negb (SafeCounter.Get (taskCount s) >? 0).

(** A call of [Submit] that panicked, and one that panicked with anything
    but the panic of a send on a closed channel. *)
Definition submit_panicked (c : caller) : bool :=
  match c with
  | CSubmit _ (SubPanicked _) => true
  | _ => false
  end.

Definition submit_panicked_otherwise (c : caller) : bool :=
  match c with
  | CSubmit _ (SubPanicked r) =>
      negb (bool_decide (r = Str "send on closed channel"))
  | _ => false
  end.

(** A call of [Submit] that has passed the test of [stopped] and has
    neither got through its select nor returned. *)
Definition in_flight (c : caller) : bool :=
  match c with
  | CSubmit _ (SubIncr | SubSelect | SubPanicked _) => true
  | _ => false
  end.

(** A panic with the value [r] has been raised and not recovered: in the
    goroutine of a worker or of a call of [Stop], which the state files
    under [crashed], or in a call of [Submit], which it files under the
    caller.  Nothing in the package recovers either. *)
Definition panicked (s : state) (r : any) : Prop :=
  crashed s = Some r ∨
  ∃ j task, callers s !! j = Some (CSubmit task (SubPanicked r)).

(** The accounts of a pool: the [WaitGroup] counter is the number of
    workers that have not called [Done]; the channel is closed by the one
    call of [Stop] that got to it, after the context was cancelled, and
    that call waits only once the channel is closed; when the pool is
    stopped and the mutex is free, that call has seen every worker leave;
    a panic filed under [crashed] is the panic of a task in the hands of a
    worker; and a call of [Submit] has panicked only on the closed
    channel, with the panic of the send. *)
Record Accounts (s : state) : Prop := mkAccounts {
  acc_wg : wg s = count alive (ws s);
  acc_closed : ch_closed (tasks s) = true →
               stopped s = true ∧ ctx_done s = true ∧
               count stop_before_close (callers s) = 0%nat;
  acc_open : ch_closed (tasks s) = false →
             count stop_waiting (callers s) = 0%nat ∧
             count submit_panicked (callers s) = 0%nat;
  acc_halted : stopped s = true → mu s = false →
               ch_closed (tasks s) = true ∧ wg s = 0%nat;
  acc_crashed : ∀ r, crashed s = Some r →
                ∃ k, ws s !! k = Some (WRun (Panics r));
  acc_send : count submit_panicked_otherwise (callers s) = 0%nat
}.

(** The pool after a call of [Stop] has returned: stopped, the mutex free,
    the context cancelled, the channel closed, and no worker left. *)
Definition halted (s : state) : Prop :=
  stopped s = true ∧ mu s = false ∧ ctx_done s = true ∧
  ch_closed (tasks s) = true ∧ wg s = 0%nat ∧
  ∀ k w, ws s !! k = Some w → w = WExited.

End ThreadPool.

(** * Properties *)

(** ** Channels and machine integers *)

Module ChanFacts.

Lemma chan_send_inv {A} (c c' : chan A) x :
  chan_send c x = Proceeds c' →
  ch_cap c' = ch_cap c ∧ ch_closed c' = false ∧
  chan_len c' = S (chan_len c) ∧ (chan_len c < ch_cap c)%nat.
Proof.
  unfold chan_send. destruct (ch_closed c); [discriminate|].
  destruct (chan_len c <? ch_cap c)%nat eqn:Hlt; [|discriminate].
  intros [= <-]. apply Nat.ltb_lt in Hlt.
  unfold chan_len in *; simpl. rewrite length_app; simpl. repeat split; lia.
Qed.

Lemma chan_send_blocked {A} (c : chan A) x :
  chan_send c x = Blocked → ch_closed c = false ∧ (ch_cap c ≤ chan_len c)%nat.
Proof.
  unfold chan_send. destruct (ch_closed c); [discriminate|].
  destruct (chan_len c <? ch_cap c)%nat eqn:Hlt; [discriminate|].
  apply Nat.ltb_ge in Hlt. auto.
Qed.

Lemma chan_send_full {A} (c : chan A) x :
  ch_closed c = false → (ch_cap c ≤ chan_len c)%nat → chan_send c x = Blocked.
Proof.
  intros Hc Hfull. unfold chan_send. rewrite Hc.
  destruct (chan_len c <? ch_cap c)%nat eqn:Hlt; [|reflexivity].
  apply Nat.ltb_lt in Hlt. lia.
Qed.

Lemma chan_recv_inv {A} (c c' : chan A) o :
  chan_recv c = Proceeds (c', o) →
  ch_cap c' = ch_cap c ∧ ch_closed c' = ch_closed c ∧
  ((∃ x, o = Some x ∧ chan_len c = S (chan_len c')) ∨
   (o = None ∧ ch_closed c = true ∧ c' = c ∧ chan_len c = 0%nat)).
Proof.
  unfold chan_recv, chan_len. destruct (ch_buf c) as [|x rest] eqn:Hbuf.
  - destruct (ch_closed c) eqn:Hc; [|discriminate].
    intros [= <- <-]. rewrite Hbuf. auto 10.
  - intros [= <- <-]. simpl. eauto 10.
Qed.

Lemma wrap64_small z : minInt ≤ z ≤ maxInt → wrap64 z = z.
Proof.
  unfold minInt, maxInt, wrap64. intros H.
  rewrite Z.mod_small; lia.
Qed.

Lemma wrap64_add_l a b : wrap64 (wrap64 a + b) = wrap64 (a + b).
Proof.
  unfold wrap64.
  replace ((a + 2 ^ 63) mod 2 ^ 64 - 2 ^ 63 + b + 2 ^ 63)
    with ((a + 2 ^ 63) mod 2 ^ 64 + b) by lia.
  rewrite Zplus_mod_idemp_l. f_equal. f_equal. lia.
Qed.

End ChanFacts.

(** ** Counting *)

Module CountFacts.

Lemma count_app {A} (f : A → bool) (l : list A) (x : A) :
  count f (l ++ [x]) = (count f l + (if f x then 1 else 0))%nat.
Proof. induction l as [|y l IH]; simpl; lia. Qed.

Lemma count_insert {A} (f : A → bool) (l : list A) : ∀ k x y,
  l !! k = Some x →
  (count f (<[k := y]> l) + (if f x then 1 else 0)
   = count f l + (if f y then 1 else 0))%nat.
Proof.
  induction l as [|z l IH]; intros [|k] x y; simpl; try discriminate.
  - intros [= ->]. lia.
  - intros H. specialize (IH _ _ y H). lia.
Qed.

Lemma count_pos {A} (f : A → bool) (l : list A) :
  (0 < count f l)%nat → ∃ k x, l !! k = Some x ∧ f x = true.
Proof.
  induction l as [|z l IH]; simpl; [lia|].
  destruct (f z) eqn:Hz.
  - intros _. by exists 0%nat, z.
  - intros H. destruct IH as (k & x & Hk & Hx); [lia|]. by exists (S k), x.
Qed.

Lemma count_zero {A} (f : A → bool) (l : list A) k x :
  count f l = 0%nat → l !! k = Some x → f x = false.
Proof.
  revert k. induction l as [|z l IH]; intros [|k]; simpl; try discriminate.
  - intros H [= ->]. destruct (f x); [lia|done].
  - intros H Hk. eapply IH; [|exact Hk]. lia.
Qed.

Lemma count_lookup {A} (f : A → bool) (l : list A) k x :
  l !! k = Some x → f x = true → (0 < count f l)%nat.
Proof.
  revert k. induction l as [|z l IH]; intros [|k]; simpl; try done.
  - intros [= ->] ->. lia.
  - intros Hk Hx. specialize (IH _ Hk Hx). lia.
Qed.

Lemma count_fmap_ext {A} (f : A → bool) (g : A → A) (l : list A) :
  (∀ x, f (g x) = f x) → count f (g <$> l) = count f l.
Proof.
  intros H. induction l as [|x l IH]; csimpl; [done|]. by rewrite H, IH.
Qed.

Lemma count_fmap_none {A} (f : A → bool) (g : A → A) (l : list A) :
  (∀ x, f (g x) = false) → count f (g <$> l) = 0%nat.
Proof.
  intros H. induction l as [|x l IH]; csimpl; [done|]. by rewrite H, IH.
Qed.

End CountFacts.

(** ** SafeMap *)

Module SafeMapFacts.
Import SafeMap.

Lemma Has_true m key : Has m key = true ↔ ∃ v, data m !! key = Some v.
Proof.
  unfold Has. destruct (data m !! key) as [v|]; split.
  - eauto.
  - reflexivity.
  - discriminate.
  - intros [v Hv]. discriminate.
Qed.

Lemma Has_false m key : Has m key = false ↔ data m !! key = None.
Proof.
  unfold Has. destruct (data m !! key); split; congruence.
Qed.

Lemma Has_Set m key value : Has (Set_ m key value) key = true.
Proof. unfold Has, Set_; simpl. by rewrite lookup_insert_eq. Qed.

Lemma Has_Delete m key : Has (Delete m key) key = false.
Proof. unfold Has, Delete; simpl. by rewrite lookup_delete_eq. Qed.

(** C10. [Get] of a key that is not in the map is nil; [GetWithDefault] of a
    key that is in the map is the stored value, also when that value is nil,
    and is the default only for a key that is not in the map; hence [Get]
    gives the same answer for a missing key and for a key stored with nil,
    although [Has] tells the two maps apart. *)
Theorem Get_absent_nil_GetWithDefault_present :
  (∀ m key, Has m key = false → Get m key = Nil) ∧
  (∀ m key v d, data m !! key = Some v → GetWithDefault m key d = v) ∧
  (∀ m key d, GetWithDefault (Set_ m key Nil) key d = Nil) ∧
  (∀ m key d, Has m key = false → GetWithDefault m key d = d) ∧
  (∀ m key,
     Get (Delete m key) key = Get (Set_ m key Nil) key ∧
     Has (Delete m key) key = false ∧
     Has (Set_ m key Nil) key = true).
Proof.
  repeat split.
  - intros m key H. apply Has_false in H. unfold Get. by rewrite H.
  - intros m key v d H. unfold GetWithDefault. by rewrite H.
  - intros m key d. unfold GetWithDefault, Set_; simpl.
    by rewrite lookup_insert_eq.
  - intros m key d H. apply Has_false in H. unfold GetWithDefault.
    by rewrite H.
  - unfold Get, Delete, Set_; simpl.
    by rewrite lookup_delete_eq, lookup_insert_eq.
  - apply Has_Delete.
  - apply Has_Set.
Qed.

End SafeMapFacts.

(** ** Semaphore *)

Module SemaphoreFacts.
Import Semaphore ChanFacts.

Lemma NewSemaphore_inv size s0 :
  NewSemaphore size = Returned s0 →
  0 ≤ size ∧ Z.of_nat (capacity s0) = size ∧ outstanding s0 = 0%nat ∧ sem_ok s0.
Proof.
  unfold NewSemaphore, make_chan, capacity, outstanding, sem_ok.
  destruct (size <? 0) eqn:Hneg; [discriminate|].
  intros [= <-]. apply Z.ltb_ge in Hneg. unfold chan_len; simpl.
  repeat split; lia.
Qed.

(** One completed operation: the capacity stays, the channel stays open and
    within its capacity, and the number of held slots moves with the event. *)
Lemma sem_step_inv s o s' ev :
  sem_ok s → step s o = Proceeds (s', ev) →
  sem_ok s' ∧ capacity s' = capacity s ∧
  (outstanding s' + (if is_released ev then 1 else 0) =
   outstanding s + (if is_acquired ev then 1 else 0))%nat.
Proof.
  intros [Hopen Hle]. unfold capacity, outstanding, sem_ok.
  destruct o as [|timer_fired pick_timer| |]; simpl.
  - unfold Acquire. destruct (chan_send (sem s) ()) as [c| |r] eqn:Hs; try discriminate.
    intros [= <- <-]. apply chan_send_inv in Hs as (Hcap & Hcl & Hlen & Hlt).
    simpl. repeat split; lia || done.
  - unfold AcquireWithTimeout.
    destruct (chan_send (sem s) ()) as [c| |r] eqn:Hs.
    + apply chan_send_inv in Hs as (Hcap & Hcl & Hlen & Hlt).
      destruct (timer_fired && pick_timer); intros [= <- <-]; simpl;
        repeat split; lia || done.
    + destruct timer_fired; [|discriminate].
      intros [= <- <-]; simpl. repeat split; lia || done.
    + unfold chan_send in Hs. rewrite Hopen in Hs.
      destruct (chan_len (sem s) <? ch_cap (sem s))%nat; discriminate.
  - unfold TryAcquire. destruct (chan_send (sem s) ()) as [c| |r] eqn:Hs; try discriminate.
    + intros [= <- <-]. apply chan_send_inv in Hs as (Hcap & Hcl & Hlen & Hlt).
      simpl. repeat split; lia || done.
    + intros [= <- <-]. simpl. repeat split; lia || done.
  - unfold Release. destruct (chan_recv (sem s)) as [[c o]| |r] eqn:Hr; try discriminate.
    intros [= <- <-]. apply chan_recv_inv in Hr as (Hcap & Hcl & Hcase).
    simpl. destruct Hcase as [(x & _ & Hlen)|(_ & Hclosed & _)]; [|congruence].
    repeat split; lia || congruence.
Qed.

Lemma sem_run_inv ops : ∀ s s' evs,
  sem_ok s → run s ops = Some (s', evs) →
  sem_ok s' ∧ capacity s' = capacity s ∧
  (outstanding s' + released evs = outstanding s + acquired evs)%nat.
Proof.
  induction ops as [|o rest IH]; intros s s' evs Hok; simpl.
  - intros [= <- <-]. simpl. repeat split; lia || apply Hok.
  - destruct (step s o) as [[s1 ev]| |r] eqn:Hstep; try discriminate.
    destruct (run s1 rest) as [[s2 evs']|] eqn:Hrun; [|discriminate].
    intros [= <- <-].
    destruct (sem_step_inv _ _ _ _ Hok Hstep) as (Hok1 & Hcap1 & Hcount1).
    destruct (IH _ _ _ Hok1 Hrun) as (Hok2 & Hcap2 & Hcount2).
    simpl. repeat split; try apply Hok2; lia.
Qed.

(** [TryAcquire] on a semaphore all of whose slots are held. *)
Lemma TryAcquire_full s :
  sem_ok s → outstanding s = capacity s → TryAcquire s = Proceeds (s, false).
Proof.
  intros [Hopen Hle] Hfull. unfold TryAcquire, outstanding, capacity in *.
  rewrite chan_send_full; [reflexivity|done|lia].
Qed.

(** C6. After any sequence of completed Acquire, AcquireWithTimeout,
    TryAcquire and Release operations on a semaphore made with capacity
    [size], the number of held slots is the number of successful acquisitions
    minus the number of releases (so every release that completed took the
    slot of an earlier successful acquisition) and lies between 0 and
    [size]; and when all [size] slots are held, [TryAcquire] returns false
    at once, without blocking, and leaves the semaphore as it was. *)
Theorem outstanding_within_capacity
  (size : Z) (s0 s : Semaphore) (ops : list op) (evs : list event)
  (Hnew : NewSemaphore size = Returned s0)
  (Hrun : run s0 ops = Some (s, evs)) :
  Z.of_nat (capacity s) = size ∧
  0 ≤ Z.of_nat (outstanding s) ≤ size ∧
  Z.of_nat (outstanding s) = Z.of_nat (acquired evs) - Z.of_nat (released evs) ∧
  Available s = size - Z.of_nat (outstanding s) ∧
  (Z.of_nat (outstanding s) = size → TryAcquire s = Proceeds (s, false)).
Proof.
  apply NewSemaphore_inv in Hnew as (Hsize & Hcap0 & Hout0 & Hok0).
  destruct (sem_run_inv _ _ _ _ Hok0 Hrun) as (Hok & Hcap & Hcount).
  assert (Hle : (outstanding s ≤ capacity s)%nat) by apply Hok.
  repeat split; try lia.
  - unfold Available. fold (capacity s) (outstanding s). lia.
  - intros Hfull. apply TryAcquire_full; [done|lia].
Qed.

(** Capacity 2: two acquisitions succeed, a third [TryAcquire] is refused,
    and after a release a timed acquisition succeeds again. *)
Lemma outstanding_within_capacity_witness :
  let s0 := mk (mkChan 2 [] false) in
  let s := mk (mkChan 2 [(); ()] false) in
  let evs := [EvAcquire; EvTryAcquire true; EvTryAcquire false; EvRelease;
              EvAcquireWithTimeout true] in
  Z.of_nat (capacity s) = 2 ∧
  0 ≤ Z.of_nat (outstanding s) ≤ 2 ∧
  Z.of_nat (outstanding s) = Z.of_nat (acquired evs) - Z.of_nat (released evs) ∧
  Available s = 2 - Z.of_nat (outstanding s) ∧
  (Z.of_nat (outstanding s) = 2 → TryAcquire s = Proceeds (s, false)).
Proof.
  exact (outstanding_within_capacity 2
           (mk (mkChan 2 [] false)) (mk (mkChan 2 [(); ()] false))
           [OpAcquire; OpTryAcquire; OpTryAcquire; OpRelease;
            OpAcquireWithTimeout false false]
           _ eq_refl eq_refl).
Defined.

End SemaphoreFacts.

(** ** RateLimiter *)

Module RateLimiterFacts.
Import RateLimiter ChanFacts.

Lemma quot_Second_bounds rate :
  rate ≠ 0 → - Second ≤ Z.quot Second rate ≤ Second.
Proof.
  intros Hne. unfold Second.
  destruct (Z.lt_total rate 0) as [Hneg|[H0|Hpos]]; [|done|].
  - assert (H : Z.quot 1000000000 rate = - Z.quot 1000000000 (- rate)).
    { rewrite Z.quot_opp_r by done. lia. }
    rewrite H. rewrite Z.quot_div_nonneg by lia.
    assert (0 ≤ 1000000000 / - rate) by (apply Z.div_pos; lia).
    assert (1000000000 / - rate ≤ 1000000000)
      by (apply Z.div_le_upper_bound; nia).
    lia.
  - rewrite Z.quot_div_nonneg by lia.
    assert (0 ≤ 1000000000 / rate) by (apply Z.div_pos; lia).
    assert (1000000000 / rate ≤ 1000000000)
      by (apply Z.div_le_upper_bound; nia).
    lia.
Qed.

Lemma int_quo_Second rate : rate ≠ 0 → int_quo Second rate = Z.quot Second rate.
Proof.
  intros Hne. unfold int_quo. apply wrap64_small.
  pose proof (quot_Second_bounds rate Hne) as H.
  unfold Second, minInt, maxInt in *. lia.
Qed.

Lemma NewRateLimiter_returned rate :
  rate ≠ 0 →
  NewRateLimiter rate = Returned (mk (Z.quot Second rate) (mkChan 1 [] false) false).
Proof.
  intros Hne. unfold NewRateLimiter.
  destruct (rate =? 0) eqn:H0; [apply Z.eqb_eq in H0; done|].
  simpl. by rewrite int_quo_Second.
Qed.

(** C7, as the code has it.  The interval is one second divided by the rate,
    truncated toward zero, and the only rate on which construction fails is
    zero, by the division itself: every rate from 1 to 10^9 gives a limiter
    with a positive interval, while a negative rate, or one above 10^9, is
    accepted and gives a limiter whose interval is negative or zero. *)
Theorem NewRateLimiter_interval (rate : Z) :
  (rate = 0 → ∃ r, NewRateLimiter rate = Panicked r) ∧
  (rate ≠ 0 →
     ∃ l, NewRateLimiter rate = Returned l ∧
          interval l = Z.quot Second rate ∧
          (1 ≤ rate ≤ Second → 0 < interval l) ∧
          (rate < 0 ∨ Second < rate → interval l ≤ 0)).
Proof.
  split.
  - intros ->. eexists. reflexivity.
  - intros Hne. eexists. split; [by apply NewRateLimiter_returned|].
    simpl. split; [reflexivity|]. split.
    + intros [Hlo Hhi]. rewrite Z.quot_div_nonneg by (unfold Second; lia).
      apply Z.div_str_pos. unfold Second in *. lia.
    + intros [Hneg|Hbig].
      * assert (H : Z.quot Second rate = - Z.quot Second (- rate)).
        { rewrite Z.quot_opp_r by done. lia. }
        rewrite H. rewrite Z.quot_div_nonneg by (unfold Second; lia).
        assert (0 ≤ Second / - rate) by (apply Z.div_pos; unfold Second; lia).
        lia.
      * rewrite Z.quot_div_nonneg by (unfold Second in *; lia).
        rewrite Z.div_small; [lia|]. unfold Second in *. lia.
Qed.

(** A rate of -1 is accepted: the limiter is handed out with an interval of
    minus one second. *)
Lemma NewRateLimiter_negative_rate :
  ∃ l, NewRateLimiter (-1) = Returned l ∧ interval l = -1000000000 ∧ interval l ≤ 0.
Proof. eexists. split; [reflexivity|]. split; [reflexivity|]. vm_compute. discriminate. Qed.

(** The generator of such a limiter panics when it creates its ticker. *)
Lemma generateTokens_nonpositive_interval l :
  interval l ≤ 0 → ∃ r, step (start l) (GenStep true) = Some (mkSystem l GenNewTicker (Some r)).
Proof.
  intros Hle. unfold step, start, generateTokens, NewTicker; simpl.
  destruct (interval l <=? 0) eqn:H; [eauto|]. apply Z.leb_gt in H. lia.
Qed.

Lemma deposit_ok r r' : tokens_ok r → deposit r = Proceeds r' → tokens_ok r'.
Proof.
  intros (Hcap & Hopen & Hlen). unfold deposit, tokens_ok.
  destruct (chan_send (tokens r) ()) as [c| |x] eqn:Hs; try discriminate.
  - intros [= <-]. simpl. apply chan_send_inv in Hs as (? & ? & ? & ?).
    repeat split; lia || done.
  - intros [= <-]. done.
Qed.

Lemma deposit_never_faults r : tokens_ok r → ∃ r', deposit r = Proceeds r'.
Proof.
  intros (Hcap & Hopen & Hlen). unfold deposit, chan_send. rewrite Hopen.
  destruct (chan_len (tokens r) <? ch_cap (tokens r))%nat; eauto.
Qed.

(** A tick that finds a token in the buffer is dropped. *)
Lemma deposit_full r :
  tokens_ok r → chan_len (tokens r) = 1%nat → deposit r = Proceeds r.
Proof.
  intros (Hcap & Hopen & Hlen) Hfull. unfold deposit.
  rewrite chan_send_full; [reflexivity|done|lia].
Qed.

Lemma Wait_ok r r' : tokens_ok r → Wait r = Proceeds r' → tokens_ok r'.
Proof.
  intros (Hcap & Hopen & Hlen). unfold Wait, tokens_ok.
  destruct (chan_recv (tokens r)) as [[c o]| |x] eqn:Hr; try discriminate.
  intros [= <-]. simpl. apply chan_recv_inv in Hr as (? & ? & Hcase).
  destruct Hcase as [(y & _ & ?)|(_ & ? & _)]; [|congruence].
  repeat split; lia || congruence.
Qed.

Lemma TryWait_ok r r' b : tokens_ok r → TryWait r = Proceeds (r', b) → tokens_ok r'.
Proof.
  intros (Hcap & Hopen & Hlen). unfold TryWait, tokens_ok.
  destruct (chan_recv (tokens r)) as [[c o]| |x] eqn:Hr; try discriminate.
  - intros [= <- <-]. simpl. apply chan_recv_inv in Hr as (? & ? & Hcase).
    destruct Hcase as [(y & _ & ?)|(_ & ? & _)]; [|congruence].
    repeat split; lia || congruence.
  - intros [= <- <-]. done.
Qed.

Lemma step_ok sys o sys' :
  tokens_ok (lim sys) → step sys o = Some sys' → tokens_ok (lim sys').
Proof.
  intros Hok. unfold step. destruct (crashed sys); [discriminate|].
  destruct o as [tick| | |].
  - unfold generateTokens. destruct (gen sys).
    + destruct (NewTicker _); intros [= <-]; done.
    + destruct tick.
      * destruct (deposit (lim sys)) as [r| |x] eqn:Hd; try discriminate.
        -- intros [= <-]. simpl. by eapply deposit_ok.
        -- intros [= <-]. done.
      * destruct (ctx_done (lim sys)); [|discriminate]. intros [= <-]. done.
    + discriminate.
  - destruct (Wait (lim sys)) as [r| |x] eqn:Hw; try discriminate.
    + intros [= <-]. simpl. by eapply Wait_ok.
    + intros [= <-]. done.
  - destruct (TryWait (lim sys)) as [[r b]| |x] eqn:Hw; try discriminate.
    + intros [= <-]. simpl. by eapply TryWait_ok.
    + intros [= <-]. done.
  - intros [= <-]. done.
Qed.

Lemma run_ok ops : ∀ sys sys',
  tokens_ok (lim sys) → run sys ops = Some sys' → tokens_ok (lim sys').
Proof.
  induction ops as [|o rest IH]; intros sys sys' Hok; simpl.
  - intros [= <-]. done.
  - destruct (step sys o) as [sys1|] eqn:Hstep; [|discriminate].
    intros Hrun. eapply IH; [|exact Hrun]. by eapply step_ok.
Qed.

Lemma NewRateLimiter_inv rate l0 :
  NewRateLimiter rate = Returned l0 →
  tokens_ok l0 ∧ chan_len (tokens l0) = 0%nat.
Proof.
  unfold NewRateLimiter. destruct (rate =? 0); [discriminate|].
  simpl. intros [= <-]. unfold tokens_ok, chan_len; simpl.
  repeat split; lia.
Qed.

(** C8. The token buffer of a limiter is empty when [NewRateLimiter] hands
    it out, so [TryWait] at that moment returns false and leaves the limiter
    as it is; and after any sequence of ticks, [Wait], [TryWait] and [Close]
    the buffer holds at most one token, a tick that finds a token buffered
    being dropped. *)
Theorem token_buffer_at_most_one
  (rate : Z) (l0 : RateLimiter) (ops : list op) (sys : system)
  (Hnew : NewRateLimiter rate = Returned l0)
  (Hrun : run (start l0) ops = Some sys) :
  chan_len (tokens l0) = 0%nat ∧
  TryWait l0 = Proceeds (l0, false) ∧
  ch_cap (tokens (lim sys)) = 1%nat ∧
  (chan_len (tokens (lim sys)) ≤ 1)%nat ∧
  (chan_len (tokens (lim sys)) = 1%nat → deposit (lim sys) = Proceeds (lim sys)).
Proof.
  apply NewRateLimiter_inv in Hnew as [Hok0 Hempty].
  assert (Hok : tokens_ok (lim sys)) by (eapply run_ok; [|exact Hrun]; exact Hok0).
  split; [exact Hempty|]. split.
  - destruct Hok0 as (_ & Hopen & _). unfold TryWait, chan_recv.
    unfold chan_len in Hempty. apply length_zero_iff_nil in Hempty.
    by rewrite Hempty, Hopen.
  - split; [apply Hok|]. split; [apply Hok|].
    by apply deposit_full.
Qed.

(** Ten requests per second: two ticks in a row leave one token, which a
    [TryWait] takes. *)
Lemma token_buffer_at_most_one_witness :
  let l0 := mk 100000000 (mkChan 1 [] false) false in
  let sys := mkSystem (mk 100000000 (mkChan 1 [()] false) false) GenSelect None in
  chan_len (tokens l0) = 0%nat ∧
  TryWait l0 = Proceeds (l0, false) ∧
  ch_cap (tokens (lim sys)) = 1%nat ∧
  (chan_len (tokens (lim sys)) ≤ 1)%nat ∧
  (chan_len (tokens (lim sys)) = 1%nat → deposit (lim sys) = Proceeds (lim sys)).
Proof.
  exact (token_buffer_at_most_one 10
           (mk 100000000 (mkChan 1 [] false) false)
           [GenStep true; GenStep true; GenStep true; OpTryWait; GenStep true]
           _ eq_refl eq_refl).
Defined.

End RateLimiterFacts.

(** ** Parallelizer *)

Module ParallelizerFacts.
Import Parallelizer ChanFacts CountFacts.

Lemma go_weights_app l g : go_weights (l ++ [g]) = (go_weights l + go_weight g)%nat.
Proof. induction l as [|y l IH]; simpl; lia. Qed.

Lemma go_weights_insert l : ∀ k x y,
  l !! k = Some x →
  (go_weights (<[k := y]> l) + go_weight x = go_weights l + go_weight y)%nat.
Proof.
  induction l as [|z l IH]; intros [|k] x y; simpl; try discriminate.
  - intros [= ->]. lia.
  - intros H. specialize (IH _ _ y H). lia.
Qed.

Lemma recover_not_nil r : recover r ≠ Nil.
Proof. by destruct r. Qed.

Lemma invoke_eq rs k t :
  invoke rs k t = <[k := task_result t k]> rs.
Proof.
  destruct t as [v e|r]; simpl; [done|].
  destruct (decide (recover r = Nil)) as [H|_]; [|done].
  by destruct (recover_not_nil r).
Qed.

Section Run.

Variable p : Parallelizer.
Variable ctx : Context.
Variable tasks : list Task.

Local Abbreviation N := (length tasks).
Local Abbreviation step := (step p ctx tasks).
Local Abbreviation run := (run p ctx tasks).
Local Abbreviation Inv := (Inv p ctx tasks).
Local Abbreviation slot_ok := (slot_ok p ctx tasks).

(** The goroutine at position [k] moves from [g] to a later point [x],
    having stored [rs]. *)
Lemma slots_after_go (s : state) (rs : list TaskResult) k g x :
  length (results s) = N → length rs = N →
  (∀ j, j ≠ k → rs !! j = results s !! j) →
  (∀ k g, gos s !! k = Some g → slot_ok (results s) k g) →
  gos s !! k = Some g →
  slot_ok rs k (mkGo (g_index g) (g_task g) x) →
  ∀ j h, <[k := mkGo (g_index g) (g_task g) x]> (gos s) !! j = Some h →
         slot_ok rs j h.
Proof.
  intros Hlen Hlen' Hother Hslots Hk Hnew j h Hj.
  destruct (decide (j = k)) as [->|Hne].
  - rewrite list_lookup_insert_eq in Hj by (by eapply lookup_lt_Some).
    by injection Hj as <-.
  - rewrite list_lookup_insert_ne in Hj by done.
    destruct (Hslots _ _ Hj) as (Hi & Ht & Hr). split; [done|]. split; [done|].
    destruct (g_pc h); try done; by rewrite Hother.
Qed.

Hypothesis Hcap : 0 ≤ MaxGoroutines p.

Lemma Inv_entry s : step init AMain = Some s → Inv s.
Proof.
  unfold Parallelizer.step, main_step; simpl. unfold make_chan.
  destruct (MaxGoroutines p <? 0) eqn:Hneg; [apply Z.ltb_lt in Hneg; lia|].
  intros [= <-]. split; simpl; try done.
  - split; [done|lia].
  - by rewrite length_replicate.
  - intros e He. left. by right; left.
Qed.

Lemma step_init a s : step init a = Some s → a = AMain.
Proof.
  unfold Parallelizer.step; destruct a as [|k| |]; simpl; try done.
  destruct (0 <? Timeout p); done.
Qed.

Lemma unfinished_not_returned s k g :
  Inv s → gos s !! k = Some g → unfinished g = true → pc s ≠ MReturned.
Proof.
  intros HI Hk Hu Hret.
  pose proof (inv_returned _ _ _ _ HI Hret) as Hw.
  pose proof (inv_wg _ _ _ _ HI) as Hwg. rewrite Hw in Hwg.
  assert (Hz : count unfinished (gos s) = 0%nat) by lia.
  pose proof (count_zero _ _ _ _ Hz Hk). congruence.
Qed.

Ltac keep_done Hdone :=
  try (let e := fresh "e" in let He := fresh "He" in
       intros e He; destruct (Hdone e He) as [?|?]; [by left|done]).

Ltac count_at Hc g x :=
  let H := fresh in
  pose proof (Hc (mkGo (g_index g) (g_task g) x)) as H;
  cbn in H.

Lemma Inv_step s a s' : Inv s → step s a = Some s' → Inv s'.
Proof.
  intros HI.
  pose proof (unfinished_not_returned s) as Hnr. specialize (Hnr) with (1 := HI).
  destruct HI as [Hcr [Hpc0 Hpc] Hlen Hsp [Hc Hopen] Hsem Hwg Hret Hdone Hslots].
  unfold Parallelizer.step. rewrite Hcr.
  destruct s as [m rs c w d gs cr]; simpl in *. subst cr.
  destruct a as [|k| |].
  - (* the caller *)
    unfold main_step; simpl. destruct m as [|i|i|i| |]; simpl in *; try done.
    + destruct (i <? N)%nat eqn:Hi; intros [= <-].
      * apply Nat.ltb_lt in Hi.
        split; simpl; try done; try lia; keep_done Hdone.
      * apply Nat.ltb_ge in Hi.
        split; simpl; try done; try lia; keep_done Hdone.
    + destruct (chan_send c ()) as [c'| |r] eqn:Hs; try done.
      * intros [= <-]. apply chan_send_inv in Hs as (Hc' & Hcl' & Hlen' & _).
        split; simpl; try done; try lia; keep_done Hdone.
        by rewrite Hc'.
      * unfold chan_send in Hs. rewrite Hopen in Hs.
        destruct (chan_len c <? ch_cap c)%nat; done.
    + destruct (tasks !! i) as [t|] eqn:Ht; [|done].
      intros [= <-].
      split; simpl; rewrite ?length_app, ?count_app; simpl;
        try done; try lia; keep_done Hdone.
      intros k g Hk. apply lookup_app_Some in Hk as [Hk|[Hge Hk]].
      * by apply Hslots.
      * apply list_lookup_singleton_Some in Hk as [Hz <-].
        assert (k = i) as -> by lia. done.
    + destruct w; [|done]. intros [= <-].
      split; simpl; try done; try lia.
      intros e He. by right.
  - (* a goroutine *)
    unfold go_step; simpl. destruct (gs !! k) as [g|] eqn:Hk; [|done].
    destruct (Hslots _ _ Hk) as (Hidx & Htask & Hset).
    assert (Hkn : (k < N)%nat) by (by eapply lookup_lt_Some).
    pose proof (λ y, count_insert holds_slot gs k g y Hk) as Hcs.
    pose proof (λ y, count_insert unfinished gs k g y Hk) as Hcu.
    unfold holds_slot in Hcs at 2. unfold unfinished in Hcu at 2.
    specialize (Hnr k g Hk). unfold unfinished in Hnr.
    destruct (g_pc g) eqn:Hg.
    + (* the check of the context *)
      destruct d as [e|].
      * intros [= <-]. count_at Hcs g GRelease. count_at Hcu g GRelease.
        split; simpl; rewrite ?length_insert; try done; try lia; keep_done Hdone.
        apply (slots_after_go (mkState m rs c w (Some e) gs None)); simpl; try done.
        -- by rewrite length_insert.
        -- intros j Hj. rewrite list_lookup_insert_ne; [done|]. congruence.
        -- split; [done|]. split; [done|]. simpl.
           exists (deadline_result e k). rewrite Hidx. split.
           ++ apply list_lookup_insert_eq. lia.
           ++ right. exists e. split; [|done].
              destruct (Hdone e eq_refl) as [Hd|Hd]; [done|]. by destruct Hnr.
      * intros [= <-]. count_at Hcs g GCall. count_at Hcu g GCall.
        split; simpl; rewrite ?length_insert; try done; try lia; keep_done Hdone.
        apply (slots_after_go (mkState m rs c w None gs None)); simpl; try done.
    + (* the call of the task *)
      intros [= <-]. count_at Hcs g GRelease. count_at Hcu g GRelease.
      rewrite invoke_eq.
      split; simpl; rewrite ?length_insert; try done; try lia; keep_done Hdone.
      apply (slots_after_go (mkState m rs c w d gs None)); simpl; try done.
      * by rewrite length_insert.
      * intros j Hj. rewrite list_lookup_insert_ne; [done|]. congruence.
      * split; [done|]. split; [done|]. simpl.
        exists (task_result (g_task g) k). rewrite Hidx. split.
        -- apply list_lookup_insert_eq. lia.
        -- by left.
    + (* the release of the slot *)
      destruct (chan_recv c) as [[c' o]| |r] eqn:Hr; try done.
      * intros [= <-]. apply chan_recv_inv in Hr as (Hc' & Hcl' & Hcase).
        destruct Hcase as [(x & _ & Hl)|(_ & Hcl & _)]; [|congruence].
        count_at Hcs g GDone. count_at Hcu g GDone.
        split; simpl; rewrite ?length_insert; try done; try lia; keep_done Hdone.
        -- split; congruence.
        -- apply (slots_after_go (mkState m rs c w d gs None)); simpl; try done.
      * unfold chan_recv in Hr. destruct (ch_buf c); [|done].
        rewrite Hopen in Hr. done.
    + (* wg.Done() *)
      count_at Hcs g GExited. count_at Hcu g GExited.
      destruct w as [|n]; [lia|].
      intros [= <-].
      split; simpl; rewrite ?length_insert; try done; try lia; keep_done Hdone.
      * intros ->. by destruct Hnr.
      * apply (slots_after_go (mkState m rs c (S n) d gs None)); simpl; try done.
    + done.
  - (* the timer *)
    destruct (0 <? Timeout p) eqn:Ht; simpl; [|done]. apply Z.ltb_lt in Ht.
    unfold ctx_live; simpl.
    destruct m; try done; destruct d; try done; intros [= <-];
      split; simpl; try done;
      intros e [= <-]; left; left; done.
  - (* the owner of the caller's context *)
    unfold ctx_live; simpl.
    destruct m; try done; destruct (ctx_later ctx) as [e0|] eqn:Hl; try done;
      destruct d; try done; intros [= <-]; split; simpl; try done;
      intros e [= <-]; left; right; by right.
Qed.

(** Every step uses up some of the measure. *)
Lemma measure_step s a s' :
  Inv s → step s a = Some s' → (measure N s' < measure N s)%nat.
Proof.
  intros [Hcr [Hpc0 Hpc] _ _ _ _ _ _ _ _].
  unfold Parallelizer.step, measure. rewrite Hcr.
  destruct s as [m rs c w d gs cr]; simpl in *. subst cr.
  destruct a as [|k| |].
  - unfold main_step; simpl. destruct m as [|i|i|i| |]; simpl in *; try done.
    + destruct (i <? N)%nat eqn:Hi; intros [= <-]; cbn; destruct d; lia.
    + destruct (chan_send c ()); try done; intros [= <-]; cbn; destruct d; lia.
    + destruct (tasks !! i); [|done]. intros [= <-]; cbn.
      rewrite go_weights_app; cbn. destruct d; lia.
    + destruct w; [|done]. intros [= <-]; cbn. destruct d; cbn; lia.
  - unfold go_step; simpl. destruct (gs !! k) as [g|] eqn:Hk; [|done].
    pose proof (λ y, go_weights_insert gs k g y Hk) as Hw.
    unfold go_weight in Hw at 1.
    destruct (g_pc g) eqn:Hg.
    + destruct d; intros [= <-]; cbn.
      * specialize (Hw (mkGo (g_index g) (g_task g) GRelease)). cbn in Hw. lia.
      * specialize (Hw (mkGo (g_index g) (g_task g) GCall)). cbn in Hw. lia.
    + intros [= <-]; cbn.
      specialize (Hw (mkGo (g_index g) (g_task g) GRelease)). cbn in Hw.
      destruct d; lia.
    + destruct (chan_recv c) as [[c' o]| |r]; try done; intros [= <-]; cbn;
        [|destruct d; lia].
      specialize (Hw (mkGo (g_index g) (g_task g) GDone)). cbn in Hw.
      destruct d; lia.
    + destruct w; intros [= <-]; cbn; [destruct d; lia|].
      specialize (Hw (mkGo (g_index g) (g_task g) GExited)). cbn in Hw.
      destruct d; lia.
    + done.
  - destruct ((0 <? Timeout p) && ctx_live _); [|done].
    destruct d; [done|]. intros [= <-]; cbn. lia.
  - destruct (ctx_live _); [|done]. destruct (ctx_later ctx); [|done].
    destruct d; [done|]. intros [= <-]; cbn. lia.
Qed.

Lemma run_Inv acts : ∀ s s', Inv s → run s acts = Some s' → Inv s'.
Proof.
  induction acts as [|a rest IH]; intros s s' HI; simpl.
  - by intros [= <-].
  - destruct (step s a) as [s1|] eqn:Hs; [|done].
    apply IH. by eapply Inv_step.
Qed.

Lemma run_measure acts : ∀ s s',
  Inv s → run s acts = Some s' → (length acts + measure N s' ≤ measure N s)%nat.
Proof.
  induction acts as [|a rest IH]; intros s s' HI; simpl.
  - intros [= <-]. lia.
  - destruct (step s a) as [s1|] eqn:Hs; [|done].
    intros Hrun. pose proof (measure_step _ _ _ HI Hs).
    pose proof (IH _ _ (Inv_step _ _ _ HI Hs) Hrun). lia.
Qed.

(** A state of a call is the entry state or satisfies the invariant. *)
Lemma reach_Inv acts s :
  RunWithContext p ctx tasks acts = Some s → s = init ∨ Inv s.
Proof.
  unfold RunWithContext. destruct acts as [|a rest]; simpl.
  - intros [= <-]. by left.
  - destruct (step init a) as [s1|] eqn:Hs; [|done].
    pose proof (step_init _ _ Hs) as ->.
    intros Hrun. right. eapply run_Inv; [|exact Hrun]. by apply Inv_entry.
Qed.

Lemma reach_measure acts s :
  RunWithContext p ctx tasks acts = Some s →
  (length acts + measure N s ≤ 7 * N + 5)%nat.
Proof.
  unfold RunWithContext. destruct acts as [|a rest]; simpl.
  - intros [= <-]. unfold measure; simpl. lia.
  - destruct (step init a) as [s1|] eqn:Hs; [|done].
    pose proof (step_init _ _ Hs) as ->.
    intros Hrun. pose proof (Inv_entry _ Hs) as HI.
    pose proof (run_measure _ _ _ HI Hrun).
    assert (measure N s1 ≤ 7 * N + 4)%nat; [|lia].
    revert Hs. unfold Parallelizer.step, main_step; simpl.
    destruct (make_chan (MaxGoroutines p)); intros [= <-];
      unfold measure; simpl; destruct (ctx_err ctx); lia.
Qed.

Lemma chan_recv_nonempty {A} (c : chan A) :
  (0 < chan_len c)%nat → ∃ c' o, chan_recv c = Proceeds (c', o).
Proof.
  unfold chan_len, chan_recv. destruct (ch_buf c); simpl; [lia|eauto].
Qed.

(** A goroutine that has not exited can always take its next step. *)
Lemma go_enabled s k g :
  Inv s → gos s !! k = Some g → unfinished g = true →
  ∃ s', step s (AGo k) = Some s'.
Proof.
  intros [Hcr _ _ _ _ Hsem Hwg _ _ _] Hk Hu.
  unfold Parallelizer.step, go_step. rewrite Hcr, Hk.
  pose proof (count_lookup holds_slot _ _ _ Hk) as Hs.
  pose proof (count_lookup unfinished _ _ _ Hk Hu) as Hw.
  unfold holds_slot in Hs at 1. unfold unfinished in Hu.
  destruct (g_pc g); try done.
  - destruct (done s); eauto.
  - eauto.
  - destruct (chan_recv_nonempty (sem s)) as (c' & o & ->); [|eauto].
    specialize (Hs eq_refl). lia.
  - destruct (wg s); eauto.
Qed.

(** Before the return some thread can always move, provided that the
    bound admits a goroutine whenever there is a task. *)
Lemma progress s :
  (0 < MaxGoroutines p ∨ tasks = []) →
  Inv s → pc s ≠ MReturned → ∃ a s', step s a = Some s'.
Proof.
  intros Hcfg HI Hpc.
  pose proof (go_enabled s) as Hgo. specialize Hgo with (1 := HI).
  destruct HI as [Hcr [Hpc0 Hpcok] _ Hsp [Hc Hopen] Hsem Hwg _ _ _].
  destruct (pc s) as [|i|i|i| |] eqn:Hm; try done; simpl in *.
  - exists AMain. unfold Parallelizer.step, main_step. rewrite Hcr, Hm.
    destruct (i <? N)%nat; eauto.
  - destruct (chan_send (sem s) ()) as [c'| |r] eqn:Hs.
    + exists AMain. unfold Parallelizer.step, main_step. rewrite Hcr, Hm, Hs. eauto.
    + apply chan_send_blocked in Hs as [_ Hfull].
      assert (0 < MaxGoroutines p).
      { destruct Hcfg as [H|H]; [done|]. rewrite H in Hpcok. simpl in Hpcok. lia. }
      destruct (count_pos holds_slot (gos s)) as (k & g & Hk & Hh); [lia|].
      destruct (Hgo k g Hk) as [s' Hs']; [|by exists (AGo k), s'].
      unfold holds_slot in Hh. unfold unfinished. by destruct (g_pc g).
    + exists AMain. unfold Parallelizer.step, main_step. rewrite Hcr, Hm, Hs. eauto.
  - exists AMain. unfold Parallelizer.step, main_step. rewrite Hcr, Hm.
    destruct (lookup_lt_is_Some_2 tasks i Hpcok) as [t ->]. eauto.
  - destruct (wg s) as [|n] eqn:Hw.
    + exists AMain. unfold Parallelizer.step, main_step. rewrite Hcr, Hm, Hw. eauto.
    + destruct (count_pos unfinished (gos s)) as (k & g & Hk & Hu); [lia|].
      destruct (Hgo k g Hk Hu) as [s' Hs']. by exists (AGo k), s'.
Qed.

(** At the return every position holds the result of its own task. *)
Lemma returned_settled s k t :
  Inv s → pc s = MReturned → tasks !! k = Some t →
  ∃ r, results s !! k = Some r ∧ settled p ctx t k r.
Proof.
  intros HI Hret Ht.
  pose proof (unfinished_not_returned s) as Hnr. specialize Hnr with (1 := HI).
  destruct HI as [_ _ _ Hsp _ _ _ _ _ Hslots].
  rewrite Hret in Hsp. simpl in Hsp.
  assert (Hk : (k < length (gos s))%nat) by (rewrite Hsp; by eapply lookup_lt_Some).
  destruct (lookup_lt_is_Some_2 _ _ Hk) as [g Hg].
  destruct (Hslots _ _ Hg) as (_ & Htask & Hset).
  assert (g_task g = t) as <- by congruence.
  specialize (Hnr k g Hg). unfold unfinished in Hnr.
  destruct (g_pc g); try done; by destruct Hnr.
Qed.

End Run.

Lemma run_app p ctx tasks l1 : ∀ l2 s s1 s2,
  run p ctx tasks s l1 = Some s1 → run p ctx tasks s1 l2 = Some s2 →
  run p ctx tasks s (l1 ++ l2) = Some s2.
Proof.
  induction l1 as [|a l1 IH]; intros l2 s s1 s2; simpl.
  - by intros [= <-].
  - destruct (step p ctx tasks s a) as [s'|]; [|done]. apply IH.
Qed.

(** From a state of the invariant some schedule leads to the return. *)
Lemma completes p ctx tasks :
  0 ≤ MaxGoroutines p → (0 < MaxGoroutines p ∨ tasks = []) →
  ∀ n s, (measure (length tasks) s ≤ n)%nat → Inv p ctx tasks s →
  ∃ acts s', run p ctx tasks s acts = Some s' ∧ pc s' = MReturned.
Proof.
  intros Hcap Hcfg n. induction n as [|n IH]; intros s Hn HI.
  - exfalso. unfold measure in Hn. rewrite (inv_crashed _ _ _ _ HI) in Hn. lia.
  - destruct (decide (pc s = MReturned)) as [Hret|Hne].
    + by exists [], s.
    + destruct (progress p ctx tasks s Hcfg HI Hne) as (a & s1 & Hs).
      pose proof (measure_step p ctx tasks s a s1 HI Hs).
      destruct (IH s1) as (acts & s' & Hrun & Hret); [lia|by eapply Inv_step|].
      exists (a :: acts), s'. simpl. by rewrite Hs.
Qed.

Lemma config_cap p (tasks : list Task) :
  0 < MaxGoroutines p ∨ (MaxGoroutines p = 0 ∧ tasks = []) →
  0 ≤ MaxGoroutines p ∧ (0 < MaxGoroutines p ∨ tasks = []).
Proof. intros [H|[H ->]]; split; try lia; auto. Qed.

Lemma step_entry p ctx tasks :
  0 ≤ MaxGoroutines p → ∃ s, step p ctx tasks init AMain = Some s.
Proof.
  intros Hcap. unfold step, main_step; simpl.
  destruct (make_chan (MaxGoroutines p)); eauto.
Qed.

(** A call under a bound that admits its tasks: no schedule is longer than
    [7 * N + 5] steps, before the return some thread can always move, and
    some schedule returns. *)
Lemma call_returns p ctx tasks :
  0 < MaxGoroutines p ∨ (MaxGoroutines p = 0 ∧ tasks = []) →
  (∀ acts s, RunWithContext p ctx tasks acts = Some s →
     (length acts ≤ 7 * length tasks + 5)%nat ∧
     crashed s = None ∧
     (pc s ≠ MReturned → ∃ a s', step p ctx tasks s a = Some s')) ∧
  (∃ rs, returns (RunWithContext p ctx tasks) rs).
Proof.
  intros Hcfg. destruct (config_cap _ _ Hcfg) as [Hcap Hcfg'].
  split.
  - intros acts s Hrun. split; [|split].
    + pose proof (reach_measure p ctx tasks Hcap acts s Hrun). lia.
    + destruct (reach_Inv p ctx tasks Hcap acts s Hrun) as [->|HI]; [done|].
      apply HI.
    + intros Hne. destruct (reach_Inv p ctx tasks Hcap acts s Hrun) as [->|HI].
      * destruct (step_entry p ctx tasks Hcap) as [s1 Hs1]. eauto.
      * by apply progress.
  - destruct (step_entry p ctx tasks Hcap) as [s1 Hs1].
    pose proof (Inv_entry p ctx tasks Hcap s1 Hs1) as HI.
    destruct (completes p ctx tasks Hcap Hcfg' _ s1 (Nat.le_refl _) HI)
      as (acts & s' & Hrun & Hret).
    exists (results s'), (AMain :: acts), s'.
    split; [|done]. unfold RunWithContext; simpl. by rewrite Hs1.
Qed.

(** What a returned call leaves in [results]. *)
Lemma call_results p ctx tasks acts s :
  0 ≤ MaxGoroutines p →
  RunWithContext p ctx tasks acts = Some s → pc s = MReturned →
  length (results s) = length tasks ∧
  ∀ k t, tasks !! k = Some t →
         ∃ r, results s !! k = Some r ∧ settled p ctx t k r.
Proof.
  intros Hcap Hrun Hret.
  destruct (reach_Inv p ctx tasks Hcap acts s Hrun) as [->|HI]; [done|].
  split; [apply HI|]. intros k t Ht. by eapply returned_settled.
Qed.

(** Without a deadline, on the background context, the results are those of
    the tasks themselves. *)
Lemma Run_no_deadline p tasks rs :
  0 ≤ MaxGoroutines p → Timeout p ≤ 0 → returns (Run p tasks) rs →
  rs = imap (λ k t, task_result t k) tasks.
Proof.
  intros Hcap Hto (acts & s & Hrun & Hret & <-).
  destruct (call_results p Background tasks acts s Hcap Hrun Hret) as [Hlen Hset].
  apply list_eq. intros k. rewrite list_lookup_imap.
  destruct (tasks !! k) as [t|] eqn:Ht; simpl.
  - destruct (Hset k t Ht) as (r & -> & [->|(e & He & _)]); [done|].
    destruct He as [[? _]|[?|?]]; [lia|done|done].
  - apply lookup_ge_None. rewrite Hlen. by apply lookup_ge_None.
Qed.

Lemma settled_Index p ctx t k r : settled p ctx t k r → Index r = Z.of_nat k.
Proof.
  intros [->|(e & _ & ->)]; [|done]. by destruct t.
Qed.

(** C1. Under a bound that admits the tasks (positive, or zero for an empty
    batch), [RunWithContext], and so [Run], which is [RunWithContext] on the
    background context, comes back under every interleaving of the caller,
    the goroutines, the deadline and the caller's context: no schedule is
    longer than [7 * N + 5] steps, a call that has not returned can always
    take a step, and some schedule returns.  What it returns has exactly
    one result for each of the [N] tasks, and the result at position [i]
    has [Index] equal to [i], in whatever order the goroutines ran. *)
Theorem Run_results_indexed
  (p : Parallelizer) (ctx : Context) (tasks : list Task)
  (Hcfg : 0 < MaxGoroutines p ∨ (MaxGoroutines p = 0 ∧ tasks = [])) :
  (∀ acts s, RunWithContext p ctx tasks acts = Some s →
     (length acts ≤ 7 * length tasks + 5)%nat ∧
     (pc s ≠ MReturned → ∃ a s', step p ctx tasks s a = Some s')) ∧
  (∃ rs, returns (RunWithContext p ctx tasks) rs) ∧
  (∀ rs, returns (RunWithContext p ctx tasks) rs →
     length rs = length tasks ∧
     ∀ i r, rs !! i = Some r → Index r = Z.of_nat i) ∧
  (∀ rs, returns (Run p tasks) rs →
     length rs = length tasks ∧
     ∀ i r, rs !! i = Some r → Index r = Z.of_nat i).
Proof.
  destruct (call_returns p ctx tasks Hcfg) as [Hall Hsome].
  destruct (config_cap _ _ Hcfg) as [Hcap _].
  assert (Hres : ∀ c rs, returns (RunWithContext p c tasks) rs →
     length rs = length tasks ∧
     ∀ i r, rs !! i = Some r → Index r = Z.of_nat i).
  { intros c rs (acts & s & Hrun & Hret & <-).
    destruct (call_results p c tasks acts s Hcap Hrun Hret) as [Hlen Hset].
    split; [done|]. intros i r Hi.
    assert (Hlt : (i < length tasks)%nat)
      by (rewrite <- Hlen; by eapply lookup_lt_Some).
    destruct (lookup_lt_is_Some_2 _ _ Hlt) as [t Ht].
    destruct (Hset i t Ht) as (r' & Hr' & Hs).
    assert (r' = r) as -> by congruence. by eapply settled_Index. }
  split; [|split; [done|split]].
  - intros acts s Hrun. destruct (Hall acts s Hrun) as (? & _ & ?). done.
  - apply Hres.
  - apply Hres.
Qed.

(** Three tasks under a bound of two: a value, a panic and an error. *)
Lemma Run_results_indexed_witness :
  let p := mk 2 0 in
  let tasks := [Returns (Int 1) None; Panics (Str "boom");
                Returns Nil (Some (ErrorsNew "e"))] in
  (∀ acts s, RunWithContext p Background tasks acts = Some s →
     (length acts ≤ 7 * length tasks + 5)%nat ∧
     (pc s ≠ MReturned → ∃ a s', step p Background tasks s a = Some s')) ∧
  (∃ rs, returns (RunWithContext p Background tasks) rs) ∧
  (∀ rs, returns (RunWithContext p Background tasks) rs →
     length rs = length tasks ∧
     ∀ i r, rs !! i = Some r → Index r = Z.of_nat i) ∧
  (∀ rs, returns (Run p tasks) rs →
     length rs = length tasks ∧
     ∀ i r, rs !! i = Some r → Index r = Z.of_nat i).
Proof.
  apply (Run_results_indexed (mk 2 0) Background). left. simpl. lia.
Defined.

(** C2. In a batch run under a bound that admits it, let the task at
    position [i] be one that panics with [r].  No panic leaves a goroutine
    or reaches the caller in any state of the call, which can always go on
    until it returns; and at the return the result at [i] has a nil value
    and a non-nil error, the panic turned into an error (or the error of a
    context that was done before the task was started), while every
    position holds the result of its own task. *)
Theorem panic_is_isolated
  (p : Parallelizer) (ctx : Context) (tasks : list Task)
  (acts : list action) (s : state) (i : nat) (r : any)
  (Hcfg : 0 < MaxGoroutines p ∨ (MaxGoroutines p = 0 ∧ tasks = []))
  (Hi : tasks !! i = Some (Panics r))
  (Hrun : RunWithContext p ctx tasks acts = Some s) :
  crashed s = None ∧
  (pc s ≠ MReturned → ∃ a s', step p ctx tasks s a = Some s') ∧
  (pc s = MReturned →
     (∃ tr, results s !! i = Some tr ∧
            Value tr = Nil ∧ Error tr ≠ None ∧ Index tr = Z.of_nat i ∧
            (tr = mkTaskResult Nil (Some (Errorf_panic (recover r))) (Z.of_nat i)
             ∨ ∃ e, may_end p ctx e ∧ tr = deadline_result e i)) ∧
     (∀ j t, tasks !! j = Some t →
             ∃ tr, results s !! j = Some tr ∧ settled p ctx t j tr)).
Proof.
  destruct (call_returns p ctx tasks Hcfg) as [Hall _].
  destruct (config_cap _ _ Hcfg) as [Hcap _].
  destruct (Hall acts s Hrun) as (_ & Hcr & Hgo).
  split; [done|]. split; [done|]. intros Hret.
  destruct (call_results p ctx tasks acts s Hcap Hrun Hret) as [Hlen Hset].
  split; [|done].
  destruct (Hset i _ Hi) as (tr & Htr & [->|(e & He & ->)]).
  - exists (task_result (Panics r) i). simpl. repeat split; try done. by left.
  - exists (deadline_result e i). simpl. repeat split; try done. right. eauto.
Qed.

(** A batch of three whose second task panics, run to its return. *)
Lemma panic_is_isolated_witness :
  let p := mk 2 0 in
  let tasks := [Returns (Int 1) None; Panics (Str "boom");
                Returns Nil (Some (ErrorsNew "e"))] in
  ∃ s, RunWithContext p Background tasks (serial_schedule 3) = Some s ∧
       pc s = MReturned ∧ crashed s = None ∧
       results s !! 1%nat
         = Some (mkTaskResult Nil (Some (Errorf_panic (Str "boom"))) 1).
Proof.
  intros p tasks.
  destruct (RunWithContext p Background tasks (serial_schedule 3)) as [s|] eqn:Hrun;
    [|vm_compute in Hrun; discriminate].
  exists s.
  assert (Hcfg : 0 < MaxGoroutines p ∨ MaxGoroutines p = 0 ∧ tasks = [])
    by (left; reflexivity).
  assert (Hi : tasks !! 1%nat = Some (Panics (Str "boom"))) by reflexivity.
  pose proof (panic_is_isolated p Background tasks (serial_schedule 3) s
                1%nat (Str "boom") Hcfg Hi Hrun) as (Hcr & _ & _).
  vm_compute in Hrun. injection Hrun as <-.
  split; [reflexivity|]. split; [reflexivity|]. split; [exact Hcr|reflexivity].
Defined.

(** C9. [RunTasksWithTimeout] is the runner with a bound equal to the number
    of tasks and the given timeout, and [RunTasksConcurrently] is the runner
    with the given bound and no deadline: they reach the same state under
    every schedule, and so return the same results. *)
Theorem convenience_runners_refine
  (timeout maxGoroutines : Z) (tasks : list Task) :
  (∀ acts, RunTasksWithTimeout timeout tasks acts
           = Run (NewParallelizer (Z.of_nat (length tasks)) timeout) tasks acts) ∧
  (∀ rs, returns (RunTasksWithTimeout timeout tasks) rs
         ↔ spec_runner (Z.of_nat (length tasks)) timeout tasks rs) ∧
  (∀ acts, RunTasksConcurrently maxGoroutines tasks acts
           = Run (NewParallelizer maxGoroutines 0) tasks acts) ∧
  (∀ rs, returns (RunTasksConcurrently maxGoroutines tasks) rs
         ↔ spec_runner maxGoroutines 0 tasks rs).
Proof.
  split; [done|]. split; [|split; [done|]].
  - intros rs. unfold spec_runner, RunTasksWithTimeout, NewParallelizer. split.
    + intros H. eexists (mk _ _). by repeat split.
    + intros ([mg to] & Hmg & Hto & H). simpl in *. by subst.
  - intros rs. unfold spec_runner, RunTasksConcurrently, NewParallelizer. split.
    + intros H. eexists (mk _ _). by repeat split.
    + intros ([mg to] & Hmg & Hto & H). simpl in *. by subst.
Qed.

End ParallelizerFacts.

(** ** BatchProcess *)

Module BatchFacts.
Import Parallelizer Batch ChanFacts CountFacts ParallelizerFacts.

Lemma int_add_small a b : minInt ≤ a + b ≤ maxInt → int_add a b = a + b.
Proof. apply wrap64_small. Qed.

Lemma batchCount_in_range {T} (items : list T) batchSize :
  0 < batchSize → Z.of_nat (length items) + batchSize - 1 ≤ maxInt →
  ∃ n, batchCount items batchSize = Returned n ∧ 0 ≤ n.
Proof.
  intros Hpos Hrange. unfold batchCount.
  destruct (batchSize =? 0) eqn:H0; [apply Z.eqb_eq in H0; lia|].
  eexists. split; [reflexivity|].
  unfold int_sub, int_add, int_quo.
  replace (wrap64 (Z.of_nat (length items) + batchSize) - 1)
    with (wrap64 (Z.of_nat (length items) + batchSize) + -1) by lia.
  rewrite wrap64_add_l.
  set (a := Z.of_nat (length items) + batchSize + -1).
  assert (Ha : 0 ≤ a ≤ maxInt) by (unfold a; lia).
  rewrite (wrap64_small a) by (unfold minInt, maxInt in *; lia).
  rewrite Z.quot_div_nonneg by lia.
  assert (0 ≤ a / batchSize) by (apply Z.div_pos; lia).
  assert (a / batchSize ≤ a) by (apply Z.div_le_upper_bound; nia).
  rewrite wrap64_small; [done|]. unfold minInt, maxInt in *. lia.
Qed.

Lemma slice_Returned {T} (items : list T) lo hi batch :
  slice items lo hi = Returned batch →
  0 ≤ lo ∧ lo ≤ hi ∧ hi ≤ Z.of_nat (length items) ∧
  batch = take (Z.to_nat (hi - lo)) (drop (Z.to_nat lo) items).
Proof.
  unfold slice.
  destruct (0 <=? lo) eqn:H1; simpl; [|done].
  destruct (lo <=? hi) eqn:H2; simpl; [|done].
  destruct (hi <=? Z.of_nat (length items)) eqn:H3; simpl; [|done].
  intros [= <-]. apply Z.leb_le in H1, H2, H3. done.
Qed.

Lemma slice_in_bounds {T} (items : list T) lo hi :
  0 ≤ lo → lo ≤ hi → hi ≤ Z.of_nat (length items) →
  slice items lo hi = Returned (take (Z.to_nat (hi - lo)) (drop (Z.to_nat lo) items)).
Proof.
  intros H1 H2 H3. unfold slice.
  apply Z.leb_le in H1, H2, H3. by rewrite H1, H2, H3.
Qed.

(** The loop never runs out of the fuel that [split] gives it: an iteration
    that does not panic moves the index forward. *)
Lemma split_loop_total {T} (items : list T) batchSize :
  batchSize ≠ 0 → minInt ≤ batchSize ≤ maxInt →
  Z.of_nat (length items) ≤ maxInt →
  ∀ fuel i batches,
    0 ≤ i → (Z.to_nat (Z.of_nat (length items) - i) < fuel)%nat →
    split_loop fuel items batchSize i batches ≠ None.
Proof.
  intros Hne Hbs Hlen fuel.
  induction fuel as [|fuel IH]; intros i batches Hi Hfuel; [lia|].
  simpl. destruct (i <? Z.of_nat (length items)) eqn:Hlt; [|done].
  apply Z.ltb_lt in Hlt.
  destruct (slice items i _) as [batch|r] eqn:Hs; [|done].
  apply slice_Returned in Hs as (_ & Hle & Hhi & _).
  assert (Hstep : int_add i batchSize = i + batchSize ∧ 0 < batchSize).
  { unfold int_add, wrap64, minInt, maxInt in *.
    destruct (Z_lt_le_dec batchSize 0) as [Hneg|Hpos].
    - exfalso. rewrite Z.mod_small in Hle by lia.
      destruct (_ >? _) eqn:Hgt in Hle; [lia|]. lia.
    - destruct (Z_le_gt_dec (i + batchSize) (2 ^ 63 - 1)) as [Hok|Hover].
      + rewrite Z.mod_small by lia. lia.
      + exfalso.
        replace (i + batchSize + 2 ^ 63) with (i + batchSize - 2 ^ 63 + 1 * 2 ^ 64) in Hle by lia.
        rewrite Z_mod_plus_full in Hle. rewrite Z.mod_small in Hle by lia.
        destruct (_ >? _) eqn:Hgt in Hle; [lia|]. lia. }
  destruct Hstep as [-> Hpos]. apply IH; lia.
Qed.

Lemma split_total {T} (items : list T) batchSize :
  minInt ≤ batchSize ≤ maxInt → Z.of_nat (length items) ≤ maxInt →
  split items batchSize ≠ None.
Proof.
  intros Hbs Hlen. unfold split, batchCount.
  destruct (batchSize =? 0) eqn:H0; [done|]. apply Z.eqb_neq in H0.
  destruct (make_slice_cap _); [|done].
  apply split_loop_total; try done; lia.
Qed.

Lemma split_loop_in_range {T} (items : list T) batchSize :
  0 < batchSize → Z.of_nat (length items) + batchSize - 1 ≤ maxInt →
  ∀ fuel i batches,
    0 ≤ i → (Z.to_nat (Z.of_nat (length items) - i) < fuel)%nat →
    ∃ chunks,
      split_loop fuel items batchSize i batches = Some (Returned (batches ++ chunks)) ∧
      chunks_of items batchSize i chunks.
Proof.
  intros Hpos Hrange fuel.
  induction fuel as [|fuel IH]; intros i batches Hi Hfuel; [lia|].
  simpl. destruct (i <? Z.of_nat (length items)) eqn:Hlt.
  - apply Z.ltb_lt in Hlt.
    rewrite int_add_small by (unfold minInt, maxInt in *; lia).
    set (end_ := if i + batchSize >? Z.of_nat (length items)
                 then Z.of_nat (length items) else i + batchSize).
    assert (Hend : i < end_ ∧ end_ ≤ Z.of_nat (length items) ∧ end_ ≤ i + batchSize ∧
                   (i + batchSize ≤ Z.of_nat (length items) → end_ = i + batchSize) ∧
                   (Z.of_nat (length items) ≤ i + batchSize → end_ = Z.of_nat (length items))).
    { unfold end_. destruct (_ >? _) eqn:Hgt; lia. }
    destruct Hend as (He1 & He2 & He3 & He4 & He5).
    rewrite slice_in_bounds by lia.
    set (batch := take (Z.to_nat (end_ - i)) (drop (Z.to_nat i) items)).
    destruct (IH (i + batchSize) (batches ++ [batch])) as (rest & Hloop & Hcat & Hall & Hfull);
      [lia|lia|].
    assert (Hblen : Z.of_nat (length batch) = end_ - i).
    { unfold batch. rewrite length_take, length_drop. lia. }
    exists (batch :: rest). split; [by rewrite Hloop, <- app_assoc|].
    split; [|split].
    + simpl. rewrite Hcat. unfold batch.
      destruct (Z_le_gt_dec (i + batchSize) (Z.of_nat (length items))) as [Hin|Hout].
      * rewrite He4 by done.
        replace (Z.to_nat (i + batchSize)) with (Z.to_nat i + Z.to_nat (i + batchSize - i))%nat by lia.
        rewrite <- drop_drop. apply take_drop.
      * rewrite He5 by lia. rewrite (drop_ge items (Z.to_nat (i + batchSize))) by lia.
        rewrite app_nil_r. apply take_ge. rewrite length_drop. lia.
    + constructor; [lia|done].
    + intros [|j] b; simpl.
      * intros [= <-] Hmore. rewrite Hblen.
        destruct (Z_le_gt_dec (i + batchSize) (Z.of_nat (length items))) as [Hin|Hout];
          [rewrite He4 by done; lia|].
        exfalso. destruct rest as [|b' rest']; [simpl in Hmore; lia|].
        simpl in Hcat. rewrite (drop_ge items (Z.to_nat (i + batchSize))) in Hcat by lia.
        apply app_eq_nil in Hcat as [-> _].
        inversion Hall as [|? ? Hb']. simpl in Hb'. lia.
      * intros Hj Hmore. apply (Hfull j b Hj). lia.
  - apply Z.ltb_ge in Hlt. exists []. rewrite app_nil_r. split; [done|].
    split; [|split].
    + simpl. symmetry. apply drop_ge. lia.
    + constructor.
    + intros j b Hj. by rewrite lookup_nil in Hj.
Qed.

(** In range, [split] returns the chunks of the whole input. *)
Lemma split_in_range {T} (items : list T) batchSize :
  0 < batchSize → Z.of_nat (length items) + batchSize - 1 ≤ maxInt →
  ∃ batches,
    split items batchSize = Some (Returned batches) ∧
    chunks_of items batchSize 0 batches.
Proof.
  intros Hpos Hrange. unfold split.
  destruct (batchCount_in_range items batchSize Hpos Hrange) as (n & -> & Hn).
  unfold make_slice_cap. destruct (n <? 0) eqn:Hneg; [apply Z.ltb_lt in Hneg; lia|].
  destruct (split_loop_in_range items batchSize Hpos Hrange
              (S (length items)) 0 []) as (chunks & Hloop & Hchunks); [lia|lia|].
  exists chunks. by rewrite Hloop.
Qed.

Lemma Error_task_result {T} (f : list T → call error) b k :
  Error (task_result (batch_task f b) k) = batch_error f b.
Proof. unfold batch_task, batch_error. by destruct (f b). Qed.

Lemma first_error_imap {A} (g : nat → A → TaskResult) (h : A → error) (l : list A) :
  (∀ k x, Error (g k x) = h x) →
  first_error (imap g l) = first_non_nil (map h l).
Proof.
  revert g. induction l as [|x l IH]; intros g Hg; simpl; [done|].
  rewrite Hg. destruct (h x); [done|]. apply IH. intros k y. apply Hg.
Qed.

Lemma first_non_nil_None (es : list error) :
  first_non_nil es = None ↔ Forall (λ e, e = None) es.
Proof.
  induction es as [|[e|] es IH]; simpl.
  - split; [constructor|done].
  - split; [done|]. by inversion 1.
  - rewrite IH. split; [by constructor|]. by inversion 1.
Qed.

Lemma first_non_nil_Some (es : list error) e :
  first_non_nil es = Some e ↔
  ∃ k, es !! k = Some (Some e) ∧ ∀ j, (j < k)%nat → es !! j = Some None.
Proof.
  induction es as [|[e'|] es IH]; simpl.
  - split; [done|]. intros (k & Hk & _). by rewrite lookup_nil in Hk.
  - split.
    + intros [= ->]. exists 0%nat. split; [done|]. lia.
    + intros ([|k] & Hk & Hbefore).
      * by injection Hk as ->.
      * specialize (Hbefore 0%nat). simpl in Hbefore. discriminate Hbefore. lia.
  - rewrite IH. split.
    + intros (k & Hk & Hbefore). exists (S k). split; [done|].
      intros [|j] Hj; [done|]. simpl. apply Hbefore. lia.
    + intros ([|k] & Hk & Hbefore); [done|].
      exists k. split; [done|]. intros j Hj. apply (Hbefore (S j)). lia.
Qed.

(** In range, that is for a positive [batchSize] with
    [len(items) + batchSize - 1] within [int], and under a positive bound:
    the input is cut into consecutive chunks, every chunk is run (the runner
    has no deadline, so no chunk is skipped), no schedule makes the call
    panic, some schedule makes it return, and what it returns is the first
    error that is not nil, in the order of the chunks, or nil. *)
Lemma BatchProcess_in_range {T} (items : list T) (batchSize maxGoroutines : Z)
  (processBatch : list T → call error) :
  0 < batchSize → Z.of_nat (length items) + batchSize - 1 ≤ maxInt →
  0 < maxGoroutines →
  ∃ batches,
    split items batchSize = Some (Returned batches) ∧
    chunks_of items batchSize 0 batches ∧
    (∀ acts r, BatchProcess items batchSize maxGoroutines processBatch acts ≠ BPanicked r) ∧
    (∃ acts e, BatchProcess items batchSize maxGoroutines processBatch acts = BReturned e) ∧
    (∀ acts e, BatchProcess items batchSize maxGoroutines processBatch acts = BReturned e →
       e = first_non_nil (map (batch_error processBatch) batches)).
Proof.
  intros Hpos Hrange Hmg.
  destruct (split_in_range items batchSize Hpos Hrange) as (batches & Hsplit & Hchunks).
  exists batches. split; [done|]. split; [done|].
  unfold BatchProcess. rewrite Hsplit.
  set (tasks := map (batch_task processBatch) batches).
  unfold RunTasksConcurrently, Run, NewParallelizer.
  set (p := mk maxGoroutines 0).
  assert (Hcfg : 0 < MaxGoroutines p ∨ (MaxGoroutines p = 0 ∧ tasks = [])) by by left.
  destruct (call_returns p Background tasks Hcfg) as [Hall (rs & acts & s & Hrun & Hret & _)].
  split; [|split].
  - intros acts' r. destruct (RunWithContext p Background tasks acts') as [s'|] eqn:Hrun'; [|done].
    destruct (Hall acts' s' Hrun') as (_ & -> & _). by destruct (decide _).
  - exists acts, (first_error (results s)). rewrite Hrun.
    destruct (Hall acts s Hrun) as (_ & -> & _). by rewrite decide_True.
  - intros acts' e. destruct (RunWithContext p Background tasks acts') as [s'|] eqn:Hrun'; [|done].
    destruct (Hall acts' s' Hrun') as (_ & -> & _).
    destruct (decide (pc s' = MReturned)) as [Hret'|]; [|done]. intros [= <-].
    rewrite (Run_no_deadline p tasks (results s')).
    + rewrite (first_error_imap _ (λ t, Error (task_result t 0))) by (by intros k []).
      unfold tasks. rewrite map_map. f_equal. apply map_ext. intros b.
      apply Error_task_result.
    + simpl. lia.
    + simpl. lia.
    + by exists acts', s'.
Qed.

(** C5, where it fails.  For two items and a batch size of [math.MaxInt64]
    the sum [len(items) + batchSize] wraps around, the batch count comes
    out as -1, and [make([][]T, 0, batchCount)] panics before any chunk is
    built or run. *)
Theorem BatchProcess_batch_size_overflow
  (processBatch : list Z → call error) (acts : list action) :
  batchCount [1; 2] maxInt = Returned (-1) ∧
  BatchProcess [1; 2] maxInt 1 processBatch acts
    = BPanicked (Str "runtime error: makeslice: cap out of range").
Proof.
  split; [by vm_compute|].
  unfold BatchProcess.
  replace (split [1; 2] maxInt)
    with (Some (Panicked (A := list (list Z))
                  (Str "runtime error: makeslice: cap out of range")))
    by (by vm_compute).
  done.
Qed.

(** The scenario of the specification: ten items in chunks of three under a
    bound of two, the batch function failing on the chunk that holds 7. *)
Lemma BatchProcess_scenario :
  let items := [1; 2; 3; 4; 5; 6; 7; 8; 9; 10] in
  let fn := λ batch : list Z,
              if decide (7 ∈ batch) then Returned (Some (ErrorsNew "seven"))
              else Returned None in
  split items 3 = Some (Returned [[1; 2; 3]; [4; 5; 6]; [7; 8; 9]; [10]]) ∧
  ∀ acts e, BatchProcess items 3 2 fn acts = BReturned e →
            e = Some (ErrorsNew "seven").
Proof.
  intros items fn. split; [by vm_compute|]. intros acts e He.
  destruct (BatchProcess_in_range items 3 2 fn) as (batches & Hsplit & _ & _ & _ & Hfirst);
    [done|by vm_compute|done|].
  rewrite (Hfirst acts e He).
  assert (batches = [[1; 2; 3]; [4; 5; 6]; [7; 8; 9]; [10]]) as ->.
  { vm_compute in Hsplit. by injection Hsplit as <-. }
  by vm_compute.
Qed.

End BatchFacts.

(** ** ThreadPool *)

Module ThreadPoolFacts.
Import ThreadPool ChanFacts CountFacts.

Lemma NewThreadPool_Inv workers queueSize s0 :
  NewThreadPool workers queueSize = Returned s0 → Inv s0 ∧ crashed s0 = None.
Proof.
  unfold NewThreadPool. destruct (make_chan queueSize); [|done].
  intros [= <-]. split; [|done]. by split.
Qed.

(** The four counts of the invariant after the caller at [j] moved from [c]
    to [c']. *)
Lemma counts_insert (l : list caller) j c c' :
  l !! j = Some c →
  (count stop_in_progress (<[j := c']> l) + (if stop_in_progress c then 1 else 0)
   = count stop_in_progress l + (if stop_in_progress c' then 1 else 0))%nat ∧
  (count stop_returned (<[j := c']> l) + (if stop_returned c then 1 else 0)
   = count stop_returned l + (if stop_returned c' then 1 else 0))%nat ∧
  (count submit_parked (<[j := c']> l) + (if submit_parked c then 1 else 0)
   = count submit_parked l + (if submit_parked c' then 1 else 0))%nat ∧
  (count stop_past_cancel (<[j := c']> l) + (if stop_past_cancel c then 1 else 0)
   = count stop_past_cancel l + (if stop_past_cancel c' then 1 else 0))%nat.
Proof. intros H. repeat split; by apply count_insert. Qed.

Lemma counts_wake_on_done (l : list caller) :
  count stop_in_progress (wake_on_done_caller <$> l) = count stop_in_progress l ∧
  count stop_returned (wake_on_done_caller <$> l) = count stop_returned l ∧
  count submit_parked (wake_on_done_caller <$> l) = 0%nat ∧
  count stop_past_cancel (wake_on_done_caller <$> l) = count stop_past_cancel l.
Proof.
  repeat split.
  - apply count_fmap_ext. by intros [t []|[]].
  - apply count_fmap_ext. by intros [t []|[]].
  - apply count_fmap_none. by intros [t []|[]].
  - apply count_fmap_ext. by intros [t []|[]].
Qed.

Lemma counts_wake_on_close (l : list caller) :
  count stop_in_progress (wake_on_close_caller <$> l) = count stop_in_progress l ∧
  count stop_returned (wake_on_close_caller <$> l) = count stop_returned l ∧
  count submit_parked (wake_on_close_caller <$> l) = 0%nat ∧
  count stop_past_cancel (wake_on_close_caller <$> l) = count stop_past_cancel l.
Proof.
  repeat split.
  - apply count_fmap_ext. by intros [t []|[]].
  - apply count_fmap_ext. by intros [t []|[]].
  - apply count_fmap_none. by intros [t []|[]].
  - apply count_fmap_ext. by intros [t []|[]].
Qed.

Lemma parked_sender_Some s j task q :
  parked_sender s = Some (j, task, q) →
  callers s !! j = Some (CSubmit task SubParked).
Proof.
  unfold parked_sender. destruct (sendq s) as [|j' rest]; [done|].
  destruct (callers s !! j') as [[t []|]|] eqn:H; try done.
  by intros [= <- <- <-].
Qed.

(** After the caller at [j] moved from [c] to [c'], restate the invariant
    from the four counts. *)
Ltac moved Hj c' :=
  let H := fresh "Hcount" in
  pose proof (counts_insert _ _ _ c' Hj) as H; cbn in H;
  destruct H as (? & ? & ? & ?).

Ltac inv_fin :=
  split; simpl; intros;
  repeat match goal with
  | H : ?x = ?x → _ |- _ => specialize (H eq_refl)
  | H : true = false → _ |- _ => clear H
  | H : false = true → _ |- _ => clear H
  | H : _ ∧ _ |- _ => destruct H
  end;
  try done; try lia.

Lemma pool_Inv_step s a s' : Inv s → step s a = Some s' → Inv s'.
Proof.
  intros [Hmu Hst Hlk Hdn Hpc]. unfold step.
  destruct (crashed s) eqn:Hcr; [done|].
  destruct s as [c n d st m w wl cl sq rq cr]; simpl in *. subst cr.
  destruct a as [task| |j pick|k pick].
  - (* a new call of Submit *)
    intros [= <-]. split; simpl; rewrite ?count_app; simpl; rewrite ?Nat.add_0_r; done.
  - (* a new call of Stop *)
    intros [= <-]. split; simpl; rewrite ?count_app; simpl; rewrite ?Nat.add_0_r; done.
  - destruct (cl !! j) as [[task pc|pc]|] eqn:Hj; [| |done].
    + (* Submit *)
      unfold Submit; simpl. destruct pc; try done.
      * destruct m; [done|]. destruct st; intros [= <-].
        -- moved Hj (CSubmit task (SubReturned (Some PoolClosed))). destruct d; inv_fin.
        -- moved Hj (CSubmit task SubIncr). destruct d; inv_fin.
      * intros [= <-]. moved Hj (CSubmit task SubSelect). destruct m, st, d; inv_fin.
      * destruct (send_ready _ && _).
        -- destruct (ch_closed c).
           ++ intros [= <-]. moved Hj (CSubmit task (SubPanicked (Str "send on closed channel"))).
              destruct m, st, d; inv_fin.
           ++ destruct (parked_receiver _) as [[k rest]|]; intros [= <-];
                moved Hj (CSubmit task (SubReturned None)); destruct m, st, d; inv_fin.
        -- destruct d; intros [= <-].
           ++ moved Hj (CSubmit task SubWoken). destruct m, st; inv_fin.
           ++ moved Hj (CSubmit task SubParked). destruct m, st; inv_fin.
      * intros [= <-]. moved Hj (CSubmit task (SubReturned (Some PoolClosed))).
        destruct m, st, d; inv_fin.
    + (* Stop *)
      unfold Stop; simpl. destruct pc; try done.
      * destruct m; [done|]. destruct st; intros [= <-].
        -- moved Hj (CStop StopReturned). destruct d; inv_fin.
        -- moved Hj (CStop StopCancel). destruct d; inv_fin.
      * intros [= <-]. simpl.
        destruct (counts_wake_on_done cl) as (Hw1 & Hw2 & Hw3 & Hw4).
        assert (Hj' : (wake_on_done_caller <$> cl) !! j = Some (CStop StopCancel))
          by (by rewrite list_lookup_fmap, Hj).
        moved Hj' (CStop StopClose). destruct m, st, d; inv_fin.
      * destruct (ch_closed c); intros [= <-]; simpl.
        -- by split.
        -- destruct (counts_wake_on_close cl) as (Hw1 & Hw2 & Hw3 & Hw4).
           assert (Hj' : (wake_on_close_caller <$> cl) !! j = Some (CStop StopClose))
             by (by rewrite list_lookup_fmap, Hj).
           moved Hj' (CStop StopWait). destruct m, st, d; inv_fin.
      * destruct w; [|done]. intros [= <-].
        moved Hj (CStop StopReturned). destruct m, st, d; inv_fin.
  - (* a worker *)
    destruct (wl !! k) as [pc|] eqn:Hk; [|done].
    unfold worker; simpl. destruct pc; try done.
    + destruct (recv_ready _ && _).
      * destruct (ch_buf c) as [|task rest];
          destruct (parked_sender _) as [[[j task'] q]|] eqn:Hps;
          intros [= <-]; simpl;
          try (apply parked_sender_Some in Hps as Hj; simpl in Hj;
               moved Hj (CSubmit task' (SubReturned None)));
          destruct m, st, d; inv_fin.
      * destruct d; intros [= <-]; by split.
    + destruct task; intros [= <-]; by split.
    + intros [= <-]; by split.
    + destruct w; intros [= <-]; by split.
Qed.

Lemma pool_run_Inv acts : ∀ s s', Inv s → run s acts = Some s' → Inv s'.
Proof.
  induction acts as [|a rest IH]; intros s s' HI; simpl.
  - by intros [= <-].
  - destruct (step s a) as [s1|] eqn:Hs; [|done].
    apply IH. by eapply pool_Inv_step.
Qed.

Lemma pool_reach_Inv workers queueSize s0 acts s :
  NewThreadPool workers queueSize = Returned s0 → run s0 acts = Some s → Inv s.
Proof.
  intros Hnew Hrun. apply NewThreadPool_Inv in Hnew as [HI _].
  by eapply pool_run_Inv.
Qed.

(** Once a call of [Stop] has returned, the pool is stopped and the mutex
    is free. *)
Lemma Stop_returned s i :
  Inv s → callers s !! i = Some (CStop StopReturned) →
  stopped s = true ∧ mu s = false.
Proof.
  intros [_ Hst Hlk _ _] Hi.
  pose proof (count_lookup stop_returned _ _ _ Hi eq_refl) as Hpos.
  split.
  - destruct (stopped s); [done|]. destruct Hst as [_ Hz]; [done|]. lia.
  - destruct (mu s); [|done]. specialize (Hlk eq_refl). lia.
Qed.

(** [stopped] goes from false to true only. *)
Lemma stopped_stays s a s' :
  step s a = Some s' → stopped s = true → stopped s' = true.
Proof.
  unfold step, Submit, Stop, worker. intros Hs Hst.
  repeat (case_match; simplify_eq/=); done.
Qed.

(** A call of [Submit] that finds the pool stopped. *)
Lemma Submit_stopped s j task pick :
  crashed s = None → callers s !! j = Some (CSubmit task SubInit) →
  stopped s = true →
  (mu s = false →
   step s (ACaller j pick)
   = Some (set_caller s j (CSubmit task (SubReturned (Some PoolClosed))))) ∧
  (∀ s', step s (ACaller j pick) = Some s' →
         callers s' !! j = Some (CSubmit task (SubReturned (Some PoolClosed))) ∧
         tasks s' = tasks s ∧ taskCount s' = taskCount s).
Proof.
  intros Hcr Hj Hst. unfold step, Submit. rewrite Hcr, Hj, Hst.
  split.
  - by intros ->.
  - intros s'. destruct (mu s); [done|]. intros [= <-]. simpl.
    split; [|done]. apply list_lookup_insert_eq. by eapply lookup_lt_Some.
Qed.

(** What can happen to a caller of [Submit] that is parked on the send: it
    stays parked, a worker takes its task (and [Submit] returns nil), or a
    call of [Stop] cancels the context and wakes it on [ctx.Done()].  The
    channel is never closed under it. *)
Lemma parked_next s j task a s' :
  Inv s → callers s !! j = Some (CSubmit task SubParked) →
  step s a = Some s' →
  callers s' !! j = Some (CSubmit task SubParked) ∨
  callers s' !! j = Some (CSubmit task (SubReturned None)) ∨
  (callers s' !! j = Some (CSubmit task SubWoken) ∧
   ∃ i pick, a = ACaller i pick ∧ callers s !! i = Some (CStop StopCancel)).
Proof.
  intros [_ _ _ Hdn Hpc] Hj. unfold step.
  destruct (crashed s); [done|].
  pose proof (count_lookup submit_parked _ _ _ Hj eq_refl) as Hparked.
  assert (Hlt : (j < length (callers s))%nat) by (by eapply lookup_lt_Some).
  destruct a as [t| |i pick|k pick].
  - intros [= <-]. left. simpl. by rewrite lookup_app_l.
  - intros [= <-]. left. simpl. by rewrite lookup_app_l.
  - destruct (callers s !! i) as [[t pc|pc]|] eqn:Hi; [| |done].
    + destruct (decide (i = j)) as [->|Hne]; [by simplify_eq/=|].
      assert (∀ c, <[i := c]> (callers s) !! j = Some (CSubmit task SubParked))
        by (intros c; by rewrite list_lookup_insert_ne).
      unfold Submit. intros Hs. left.
      repeat (case_match; simplify_eq/=); auto.
    + assert (i ≠ j) by (intros ->; rewrite Hj in Hi; done).
      unfold Stop. destruct pc; try done.
      * intros Hs. left.
        repeat (case_match; simplify_eq/=); by rewrite list_lookup_insert_ne.
      * intros [= <-]. right; right. simpl. split; [|eauto].
        rewrite list_lookup_insert_ne by done. by rewrite list_lookup_fmap, Hj.
      * exfalso. destruct (ctx_done s).
        -- specialize (Hdn eq_refl). lia.
        -- specialize (Hpc eq_refl).
           pose proof (count_lookup stop_past_cancel _ _ _ Hi eq_refl). lia.
      * intros Hs. left.
        repeat (case_match; simplify_eq/=); by rewrite list_lookup_insert_ne.
  - destruct (ws s !! k) as [pc|] eqn:Hk; [|done].
    unfold worker. intros Hs.
    destruct (parked_sender s) as [[[j' task'] q]|] eqn:Hps.
    + apply parked_sender_Some in Hps as Hj'.
      destruct (decide (j' = j)) as [->|Hne].
      * assert (task' = task) as -> by congruence.
        repeat (case_match; simplify_eq/=); auto;
          right; left; by rewrite list_lookup_insert_eq.
      * left. repeat (case_match; simplify_eq/=); auto;
          by rewrite list_lookup_insert_ne.
    + left. repeat (case_match; simplify_eq/=); auto.
Qed.

(** A caller of [Submit] that was woken on [ctx.Done()] stays as it is
    until it moves itself, and its one move takes its unit off the pending
    counter and returns the error of a closed pool. *)
Lemma woken_next s j task :
  crashed s = None → callers s !! j = Some (CSubmit task SubWoken) →
  (∀ pick,
     step s (ACaller j pick)
     = Some (set_caller (set_taskCount s (SafeCounter.Decrement (taskCount s)).1) j
               (CSubmit task (SubReturned (Some PoolClosed))))) ∧
  (∀ a s', step s a = Some s' →
           callers s' !! j = Some (CSubmit task SubWoken) ∨
           ∃ pick, a = ACaller j pick).
Proof.
  intros Hcr Hj. unfold step. rewrite Hcr. split.
  - intros pick. by rewrite Hj.
  - assert (Hlt : (j < length (callers s))%nat) by (by eapply lookup_lt_Some).
    intros a s'. destruct a as [t| |i pick|k pick].
    + intros [= <-]. left. simpl. by rewrite lookup_app_l.
    + intros [= <-]. left. simpl. by rewrite lookup_app_l.
    + destruct (decide (i = j)) as [->|Hne]; [eauto|].
      assert (∀ c, <[i := c]> (callers s) !! j = Some (CSubmit task SubWoken))
        by (intros c; by rewrite list_lookup_insert_ne).
      assert (∀ c, <[i := c]> (wake_on_done_caller <$> callers s) !! j
                   = Some (CSubmit task SubWoken))
        by (intros c; rewrite list_lookup_insert_ne by done;
            by rewrite list_lookup_fmap, Hj).
      assert (∀ c, <[i := c]> (wake_on_close_caller <$> callers s) !! j
                   = Some (CSubmit task SubWoken))
        by (intros c; rewrite list_lookup_insert_ne by done;
            by rewrite list_lookup_fmap, Hj).
      unfold Submit, Stop. intros Hs. left.
      repeat (case_match; simplify_eq/=); auto.
    + destruct (ws s !! k) as [pc|] eqn:Hk; [|done].
      unfold worker. intros Hs. left.
      destruct (parked_sender s) as [[[j' task'] q]|] eqn:Hps.
      * apply parked_sender_Some in Hps as Hj'.
        assert (j' ≠ j) by (intros ->; congruence).
        repeat (case_match; simplify_eq/=); auto;
          by rewrite list_lookup_insert_ne.
      * repeat (case_match; simplify_eq/=); auto.
Qed.

Lemma parked_receiver_Some s k rest :
  parked_receiver s = Some (k, rest) → ws s !! k = Some WParked.
Proof.
  unfold parked_receiver. destruct (recvq s) as [|k' q]; [done|].
  destruct (ws s !! k') as [[]|] eqn:H; try done.
  by intros [= <- <-].
Qed.

Ltac count_inserts :=
  repeat match goal with
  | H : ?l !! ?j = Some ?c |- context [count ?f (<[?j := ?c']> ?l)] =>
      let E := fresh "E" in
      pose proof (count_insert f l j c c' H) as E; cbn in E;
      generalize dependent (count f (<[j := c']> l)); intros
  end.

Ltac counted_fin Hc :=
  unfold counted, pending in *; simpl in *;
  rewrite ?length_app; simpl;
  rewrite ?(count_fmap_ext submit_pending wake_on_done_caller) by (by intros [? []|[]]);
  rewrite ?(count_fmap_ext submit_pending wake_on_close_caller) by (by intros [? []|[]]);
  rewrite ?(count_fmap_ext worker_busy wake_on_done_worker) by (by intros []);
  rewrite ?count_app; simpl;
  count_inserts;
  rewrite ?(count_fmap_ext submit_pending wake_on_done_caller) in * by (by intros [? []|[]]);
  rewrite ?(count_fmap_ext submit_pending wake_on_close_caller) in * by (by intros [? []|[]]);
  rewrite ?(count_fmap_ext worker_busy wake_on_done_worker) in * by (by intros []);
  rewrite ?Hc, ?wrap64_add_l;
  repeat match goal with
  | H : ch_buf _ = _ |- _ => rewrite H; clear H
  end;
  simpl; try (f_equal; lia).

Lemma counted_step s a s' : counted s → step s a = Some s' → counted s'.
Proof.
  intros Hc. unfold step. destruct (crashed s); [done|].
  destruct a as [task| |j pick|k pick].
  - intros [= <-]. counted_fin Hc.
  - intros [= <-]. counted_fin Hc.
  - destruct (callers s !! j) as [[task pc|pc]|] eqn:Hj; [| |done].
    + unfold Submit. destruct pc; try done.
      * destruct (mu s); [done|]. destruct (stopped s); intros [= <-]; counted_fin Hc.
      * intros [= <-]. counted_fin Hc.
      * destruct (send_ready s && _).
        -- destruct (ch_closed (tasks s)); [intros [= <-]; counted_fin Hc|].
           destruct (parked_receiver s) as [[k rest]|] eqn:Hpr; intros [= <-].
           ++ apply parked_receiver_Some in Hpr. counted_fin Hc.
           ++ counted_fin Hc.
        -- destruct (ctx_done s); intros [= <-]; counted_fin Hc.
      * intros [= <-]. counted_fin Hc.
    + unfold Stop. destruct pc; try done.
      * destruct (mu s); [done|]. destruct (stopped s); intros [= <-]; counted_fin Hc.
      * intros [= <-].
        assert (Hj' : (wake_on_done_caller <$> callers s) !! j = Some (CStop StopCancel))
          by (by rewrite list_lookup_fmap, Hj).
        counted_fin Hc.
      * destruct (ch_closed (tasks s)); intros [= <-]; [counted_fin Hc|].
        assert (Hj' : (wake_on_close_caller <$> callers s) !! j = Some (CStop StopClose))
          by (by rewrite list_lookup_fmap, Hj).
        counted_fin Hc.
      * destruct (wg s); [|done]. intros [= <-]. counted_fin Hc.
  - destruct (ws s !! k) as [pc|] eqn:Hk; [|done].
    unfold worker. destruct pc; try done.
    + destruct (recv_ready s && _).
      * destruct (ch_buf (tasks s)) as [|task rest] eqn:Hbuf;
          destruct (parked_sender s) as [[[j task'] q]|] eqn:Hps;
          intros [= <-];
          try (apply parked_sender_Some in Hps);
          counted_fin Hc.
      * destruct (ctx_done s); intros [= <-]; counted_fin Hc.
    + destruct task; intros [= <-]; counted_fin Hc.
    + intros [= <-]. counted_fin Hc.
    + destruct (wg s); intros [= <-]; counted_fin Hc.
Qed.
Lemma count_replicate {A} (f : A → bool) (x : A) n :
  f x = false → count f (replicate n x) = 0%nat.
Proof. intros H. induction n as [|n IH]; simpl; [done|]. by rewrite H, IH. Qed.

Lemma NewThreadPool_counted workers queueSize s0 :
  NewThreadPool workers queueSize = Returned s0 → counted s0.
Proof.
  unfold NewThreadPool. destruct (make_chan queueSize) as [c|] eqn:Hc; [|done].
  intros [= <-]. unfold counted, pending; simpl.
  rewrite count_replicate by done.
  unfold make_chan in Hc. destruct (queueSize <? 0); [done|].
  by injection Hc as <-.
Qed.

Lemma run_counted acts : ∀ s s', counted s → run s acts = Some s' → counted s'.
Proof.
  induction acts as [|a rest IH]; intros s s' Hc; simpl.
  - by intros [= <-].
  - destruct (step s a) as [s1|] eqn:Hs; [|done].
    apply IH. by eapply counted_step.
Qed.

(** [Submit] around [Stop], where the two agree.  In every state of a pool:
    once a call of [Stop] has returned, the pool is stopped and the mutex
    is free; [stopped] never goes back to
    false; a call of [Submit] that finds the pool stopped returns the error
    of a closed pool and leaves the queue and the pending counter as they
    are; a caller of [Submit] that is parked on the full queue is either
    served by a worker or woken by the [cancelFunc()] of [Stop], after which
    its one move takes its unit off the pending counter and returns the
    error of a closed pool; and the pending counter is the number of tasks
    that are with a caller that has counted them, in the queue or with a
    worker, so that a call that returned the error has left nothing on
    it. *)
Theorem Submit_after_Stop
  (workers queueSize : Z) (s0 s : state) (acts : list action)
  (Hnew : NewThreadPool workers queueSize = Returned s0)
  (Hrun : run s0 acts = Some s) :
  ((∃ i, callers s !! i = Some (CStop StopReturned)) →
   stopped s = true ∧ mu s = false) ∧
  (∀ a s', step s a = Some s' → stopped s = true → stopped s' = true) ∧
  (∀ j task pick,
     crashed s = None → callers s !! j = Some (CSubmit task SubInit) →
     stopped s = true →
     (mu s = false →
      step s (ACaller j pick)
      = Some (set_caller s j (CSubmit task (SubReturned (Some PoolClosed))))) ∧
     (∀ s', step s (ACaller j pick) = Some s' →
            callers s' !! j = Some (CSubmit task (SubReturned (Some PoolClosed))) ∧
            tasks s' = tasks s ∧ taskCount s' = taskCount s)) ∧
  (∀ j task a s',
     callers s !! j = Some (CSubmit task SubParked) → step s a = Some s' →
     callers s' !! j = Some (CSubmit task SubParked) ∨
     callers s' !! j = Some (CSubmit task (SubReturned None)) ∨
     (callers s' !! j = Some (CSubmit task SubWoken) ∧
      ∃ i pick, a = ACaller i pick ∧ callers s !! i = Some (CStop StopCancel))) ∧
  (∀ j task,
     crashed s = None → callers s !! j = Some (CSubmit task SubWoken) →
     (∀ pick,
        step s (ACaller j pick)
        = Some (set_caller (set_taskCount s (SafeCounter.Decrement (taskCount s)).1) j
                  (CSubmit task (SubReturned (Some PoolClosed))))) ∧
     (∀ a s', step s a = Some s' →
              callers s' !! j = Some (CSubmit task SubWoken) ∨
              ∃ pick, a = ACaller j pick)) ∧
  SafeCounter.value (taskCount s) = wrap64 (Z.of_nat (pending s)).
Proof.
  pose proof (pool_reach_Inv _ _ _ _ _ Hnew Hrun) as HI.
  split; [|split; [|split; [|split; [|split]]]].
  - intros [i Hi]. by eapply Stop_returned.
  - apply stopped_stays.
  - intros j task pick. apply Submit_stopped.
  - intros j task a s'. by apply parked_next.
  - intros j task. apply woken_next.
  - eapply run_counted; [|exact Hrun]. by eapply NewThreadPool_counted.
Qed.

(** A pool without workers and with room for one task: the first call of
    [Submit] fills the queue, the second parks on it, and a call of [Stop]
    has set [stopped] and is about to cancel the context. *)
Lemma Submit_after_Stop_witness :
  let ok := Returns Nil None in
  let acts := [ACallSubmit ok; ACaller 0 true; ACaller 0 true; ACaller 0 true;
               ACallSubmit ok; ACaller 1 true; ACaller 1 true; ACaller 1 true;
               ACallStop; ACaller 2 true] in
  ∃ s0 s,
    NewThreadPool 0 1 = Returned s0 ∧ run s0 acts = Some s ∧
    callers s !! 1%nat = Some (CSubmit ok SubParked) ∧
    callers s !! 2%nat = Some (CStop StopCancel) ∧
    (∀ a s', step s a = Some s' → stopped s = true → stopped s' = true).
Proof.
  intros ok acts.
  exists (mkState (mkChan 1 [] false) (SafeCounter.mk 0) false false false 0 [] [] [] [] None).
  destruct (run (mkState (mkChan 1 [] false) (SafeCounter.mk 0) false false false 0 [] [] [] [] None) acts)
    as [s|] eqn:Hrun; [|vm_compute in Hrun; discriminate].
  exists s. split; [reflexivity|]. split; [reflexivity|].
  pose proof (Submit_after_Stop 0 1 _ s acts eq_refl Hrun) as (_ & Hstays & _).
  vm_compute in Hrun. injection Hrun as <-.
  split; [reflexivity|]. split; [reflexivity|]. exact Hstays.
Defined.

(** A worker comes through a task that returns, with or without an error:
    it takes the task off the pending counter and is back at its select. *)
Lemma worker_survives_error s k v e pick :
  crashed s = None → ws s !! k = Some (WRun (Returns v e)) →
  ∃ s1 s2,
    step s (AWorker k pick) = Some s1 ∧ crashed s1 = None ∧
    ws s1 !! k = Some WDecr ∧
    step s1 (AWorker k pick) = Some s2 ∧ crashed s2 = None ∧
    ws s2 !! k = Some WSelect ∧
    taskCount s2 = (SafeCounter.Decrement (taskCount s)).1.
Proof.
  intros Hcr Hk.
  assert (Hlt : (k < length (ws s))%nat) by (by eapply lookup_lt_Some).
  eexists _, _. unfold step at 1. rewrite Hcr, Hk. simpl.
  split; [reflexivity|]. split; [done|].
  split; [by apply list_lookup_insert_eq|].
  unfold step. simpl. rewrite Hcr, list_lookup_insert_eq by done. simpl.
  split; [reflexivity|]. split; [done|]. split; [|done].
  simpl. rewrite list_lookup_insert_eq; [done|]. by rewrite length_insert.
Qed.

(** A call of [Submit] that passed the test of [stopped] before a call of
    [Stop] ran to its end is not parked when the channel is closed: at its
    select both the send, on a closed channel, and [ctx.Done()] are ready,
    and when the runtime picks the send, [Submit] panics. *)
Lemma Submit_racing_Stop s0 :
  NewThreadPool 0 1 = Returned s0 →
  ∃ s, run s0 [ACallSubmit (Returns Nil None); ACaller 0 true;
               ACallStop; ACaller 1 true; ACaller 1 true; ACaller 1 true;
               ACaller 1 true;
               ACaller 0 true; ACaller 0 true] = Some s ∧
       callers s !! 1%nat = Some (CStop StopReturned) ∧
       callers s !! 0%nat
         = Some (CSubmit (Returns Nil None)
                   (SubPanicked (Str "send on closed channel"))) ∧
       pending s = 1%nat.
Proof.
  intros [= <-]. eexists. split; [by vm_compute|]. by vm_compute.
Qed.

(** C4, where it fails.  [Stop] closes the channel on which a call of
    [Submit] that has passed the test of [stopped] may still send.  Such a
    call, at its select on the closed channel, panics when the runtime
    takes the send, although the other case of the same select is there to
    take the unit off the pending counter and to return the error of a
    closed pool; after the panic the call does neither.  In the run below,
    on a pool without workers and with room for one task, [Stop] runs to
    its end between the test and the select of a call of [Submit]: the
    call panics, nothing is queued, and its unit stays on the pending
    counter, so that [Wait] does not return. *)
Theorem Submit_racing_Stop_panics :
  (∀ s j task,
     crashed s = None → callers s !! j = Some (CSubmit task SubSelect) →
     ch_closed (tasks s) = true →
     step s (ACaller j true)
     = Some (set_caller s j
               (CSubmit task (SubPanicked (Str "send on closed channel"))))) ∧
  (∀ s j task r pick,
     callers s !! j = Some (CSubmit task (SubPanicked r)) →
     step s (ACaller j pick) = None) ∧
  (∃ s0 s,
     NewThreadPool 0 1 = Returned s0 ∧
     run s0 [ACallSubmit (Returns Nil None); ACaller 0 true;
             ACallStop; ACaller 1 true; ACaller 1 true; ACaller 1 true;
             ACaller 1 true;
             ACaller 0 true; ACaller 0 true] = Some s ∧
     callers s !! 1%nat = Some (CStop StopReturned) ∧
     callers s !! 0%nat
       = Some (CSubmit (Returns Nil None)
                 (SubPanicked (Str "send on closed channel"))) ∧
     ch_buf (tasks s) = [] ∧
     SafeCounter.Get (taskCount s) = 1 ∧
     Wait s = false).
Proof.
  split; [|split].
  - intros s j task Hcr Hj Hcl. unfold step. rewrite Hcr, Hj.
    unfold Submit, send_ready. rewrite Hcl. simpl.
    by destruct (ctx_done s).
  - intros s j task r pick Hj. unfold step.
    destruct (crashed s); [done|]. by rewrite Hj.
  - destruct (NewThreadPool 0 1) as [s0|] eqn:Hnew;
      [|vm_compute in Hnew; discriminate].
    destruct (Submit_racing_Stop s0 Hnew) as (s & Hrun & Hstop & Hsub & _).
    exists s0, s. split; [done|]. split; [exact Hrun|].
    split; [exact Hstop|]. split; [exact Hsub|].
    vm_compute in Hnew. injection Hnew as <-.
    vm_compute in Hrun. injection Hrun as <-. by vm_compute.
Qed.

(** C3, where it fails.  A worker calls the task with nothing to recover a
    panic: when the task panics, the panic leaves the worker's goroutine
    and ends the process, after which nothing moves any more.  In the run
    below a pool of one worker receives a panicking task and then another
    task, which stays in the queue for good. *)
Theorem worker_panic_ends_process :
  (∀ s k r pick,
     crashed s = None → ws s !! k = Some (WRun (Panics r)) →
     step s (AWorker k pick) = Some (set_crashed s r)) ∧
  (∀ s r a, step (set_crashed s r) a = None) ∧
  (∃ s0 s,
     NewThreadPool 1 1 = Returned s0 ∧
     run s0 [ACallSubmit (Panics (Str "boom"));
             ACaller 0 true; ACaller 0 true; ACaller 0 true;
             AWorker 0 true;
             ACallSubmit (Returns Nil None);
             ACaller 1 true; ACaller 1 true; ACaller 1 true;
             AWorker 0 true] = Some s ∧
     callers s !! 1%nat = Some (CSubmit (Returns Nil None) (SubReturned None)) ∧
     ch_buf (tasks s) = [Returns Nil None] ∧
     crashed s = Some (Str "boom") ∧
     ∀ a, step s a = None).
Proof.
  split; [|split].
  - intros s k r pick Hcr Hk. unfold step. by rewrite Hcr, Hk.
  - done.
  - eexists _, _. split; [by vm_compute|]. split; [by vm_compute|].
    repeat split; done.
Qed.

End ThreadPoolFacts.

(** ** SafeMap and SafeCounter: laws of the operations *)

Module SafeMapLaws.
Import SafeMap SafeMapFacts.

Lemma Has_lookup m key : Has m key = bool_decide (is_Some (data m !! key)).
Proof.
  unfold Has. destruct (data m !! key) as [v|] eqn:H.
  - symmetry. apply bool_decide_eq_true. eauto.
  - symmetry. apply bool_decide_eq_false. by intros [v Hv].
Qed.

(** X1. What was stored under a key is what [Get], [GetWithDefault] and [Has]
    find there, the last [Set] of a key wins, and a [Set] leaves every
    other key as it was. *)
Theorem Set_then_Get (m : SafeMap) (key key' : string) (value value' d : any) :
  Get (Set_ m key value) key = value ∧
  GetWithDefault (Set_ m key value) key d = value ∧
  Has (Set_ m key value) key = true ∧
  Set_ (Set_ m key value') key value = Set_ m key value ∧
  (key' ≠ key →
   Get (Set_ m key value) key' = Get m key' ∧
   GetWithDefault (Set_ m key value) key' d = GetWithDefault m key' d ∧
   Has (Set_ m key value) key' = Has m key').
Proof.
  unfold Get, GetWithDefault, Has, Set_; simpl.
  rewrite lookup_insert_eq, insert_insert_eq.
  repeat split; intros; by rewrite lookup_insert_ne.
Qed.

(** A value stored under a, then another under b: a is as it was. *)
Lemma Set_then_Get_witness :
  let m := Set_ NewSafeMap "a" (Int 1) in
  Get (Set_ m "b" Nil) "a" = Int 1 ∧ Has (Set_ m "b" Nil) "b" = true.
Proof.
  intros m.
  destruct (Set_then_Get m "b" "a" Nil Nil Nil) as (_ & _ & Hhas & _ & Hother).
  destruct Hother as (Hget & _); [done|].
  split; [by rewrite Hget|exact Hhas].
Defined.

(** X2. [Delete] takes the key out of the map, so that [Get] finds nil and
    [GetWithDefault] the default, and leaves every other key as it was;
    deleting a key that is not there changes nothing, and deleting one that
    is there makes the map one entry smaller. *)
Theorem Delete_then_Get (m : SafeMap) (key key' : string) (d : any) :
  Has (Delete m key) key = false ∧
  Get (Delete m key) key = Nil ∧
  GetWithDefault (Delete m key) key d = d ∧
  (key' ≠ key →
   Get (Delete m key) key' = Get m key' ∧ Has (Delete m key) key' = Has m key') ∧
  (Has m key = false → Delete m key = m) ∧
  (Has m key = true → S (Len (Delete m key)) = Len m).
Proof.
  unfold Get, GetWithDefault, Has, Delete, Len; simpl.
  rewrite lookup_delete_eq.
  split; [done|]. split; [done|]. split; [done|]. split; [|split].
  - intros Hne. by rewrite lookup_delete_ne.
  - destruct m as [dm]; simpl. destruct (dm !! key) eqn:H; [done|].
    intros _. f_equal. by apply delete_id.
  - destruct (data m !! key) as [v|] eqn:H; [|done]. intros _.
    rewrite map_size_delete, H. simpl.
    assert (size (data m) ≠ 0%nat); [|lia].
    apply map_size_non_empty_iff. intros He. by rewrite He, lookup_empty in H.
Qed.

(** A map of one entry, deleted. *)
Lemma Delete_then_Get_witness :
  let m := Set_ NewSafeMap "a" (Int 1) in
  S (Len (Delete m "a")) = Len m ∧ Get (Delete m "a") "a" = Nil.
Proof.
  intros m.
  destruct (Delete_then_Get m "a" "a" Nil) as (_ & Hget & _ & _ & _ & Hlen).
  split; [by apply Hlen|exact Hget].
Defined.

(** X3. [Len] counts the keys: a new map and a cleared one have none, [Set] of
    a key that is not there adds one, [Set] of a key that is there adds
    none, and a map of length zero holds no key. *)
Theorem Len_counts_keys (m : SafeMap) (key : string) (value : any) :
  Len NewSafeMap = 0%nat ∧
  Len (Clear m) = 0%nat ∧
  Has (Clear m) key = false ∧
  (Has m key = false → Len (Set_ m key value) = S (Len m)) ∧
  (Has m key = true → Len (Set_ m key value) = Len m) ∧
  (Len m = 0%nat → Has m key = false).
Proof.
  unfold Len, Has, Clear, NewSafeMap, Set_; simpl.
  rewrite map_size_empty, lookup_empty.
  repeat split.
  - destruct (data m !! key) eqn:H; [done|]. intros _.
    by apply map_size_insert_None.
  - destruct (data m !! key) as [v|] eqn:H; [|done]. intros _.
    apply map_size_insert_Some. eauto.
  - intros H0. apply map_size_empty_inv in H0. by rewrite H0, lookup_empty.
Qed.

(** One key stored twice counts once. *)
Lemma Len_counts_keys_witness :
  let m := Set_ NewSafeMap "a" (Int 1) in
  Len (Set_ m "a" (Int 2)) = Len m ∧ Len (Set_ m "b" Nil) = S (Len m).
Proof.
  intros m.
  split.
  - destruct (Len_counts_keys m "a" (Int 2)) as (_ & _ & _ & _ & Hsame & _).
    by apply Hsame.
  - destruct (Len_counts_keys m "b" Nil) as (_ & _ & _ & Hnew & _).
    by apply Hnew.
Defined.

Lemma Keys_fst entries : Keys entries = entries.*1.
Proof.
  unfold Keys.
  assert (H : ∀ acc : list string,
            foldl (λ keys (entry : string * any), keys ++ [entry.1]) acc entries
            = acc ++ entries.*1); [|apply H].
  induction entries as [|e entries IH]; intros acc; simpl.
  - by rewrite app_nil_r.
  - by rewrite IH, <- app_assoc.
Qed.

Lemma Values_snd entries : Values entries = entries.*2.
Proof.
  unfold Values.
  assert (H : ∀ acc : list any,
            foldl (λ values (entry : string * any), values ++ [entry.2]) acc entries
            = acc ++ entries.*2); [|apply H].
  induction entries as [|e entries IH]; intros acc; simpl.
  - by rewrite app_nil_r.
  - by rewrite IH, <- app_assoc.
Qed.

(** X4. In whatever order the map is visited, [Keys] lists every key of the
    map once and nothing else, and [Values] has as many elements, which are
    the values stored in the map; two calls may give their elements in
    different orders, but give the same elements, each as often. *)
Theorem Keys_Values_snapshot (m : SafeMap) (entries entries' : list (string * any))
  (Hvisit : visits m entries)
  (Hvisit' : visits m entries') :
  NoDup (Keys entries) ∧
  length (Keys entries) = Len m ∧
  length (Values entries) = Len m ∧
  (∀ key, key ∈ Keys entries ↔ Has m key = true) ∧
  (∀ value, value ∈ Values entries ↔ ∃ key, data m !! key = Some value) ∧
  Keys entries ≡ₚ Keys entries' ∧
  Values entries ≡ₚ Values entries'.
Proof.
  unfold visits in Hvisit, Hvisit'. rewrite !Keys_fst, !Values_snd.
  assert (Hin : ∀ k v, (k, v) ∈ entries ↔ data m !! k = Some v).
  { intros k v. rewrite Hvisit. apply elem_of_map_to_list. }
  assert (Hsame : entries ≡ₚ entries') by (by rewrite Hvisit, Hvisit').
  split_and!.
  - rewrite Hvisit. apply NoDup_fst_map_to_list.
  - rewrite length_fmap, Hvisit. apply length_map_to_list.
  - rewrite length_fmap, Hvisit. apply length_map_to_list.
  - intros key. rewrite Has_true. rewrite list_elem_of_fmap. split.
    + intros ([k v] & -> & Hkv). exists v. by apply Hin.
    + intros [v Hv]. exists (key, v). split; [done|]. by apply Hin.
  - intros value. rewrite list_elem_of_fmap. split.
    + intros ([k v] & -> & Hkv). exists k. by apply Hin.
    + intros [k Hk]. exists (k, value). split; [done|]. by apply Hin.
  - by rewrite Hsame.
  - by rewrite Hsame.
Qed.

(** A map of two entries, visited with key b first and with key a first. *)
Lemma Keys_Values_snapshot_witness :
  let m := Set_ (Set_ NewSafeMap "a" (Int 1)) "b" Nil in
  let entries := [("b", Nil); ("a", Int 1)] in
  let entries' := [("a", Int 1); ("b", Nil)] in
  visits m entries ∧ visits m entries' ∧
  Keys entries = ["b"; "a"] ∧ Values entries = [Nil; Int 1] ∧
  Keys entries ≡ₚ Keys entries' ∧ length (Keys entries) = Len m.
Proof.
  intros m entries entries'.
  assert (Hvisit : visits m entries).
  { unfold visits, m, entries, Set_, NewSafeMap; simpl.
    rewrite map_to_list_insert by (by vm_compute).
    rewrite map_to_list_insert by (by vm_compute).
    by rewrite map_to_list_empty. }
  assert (Hvisit' : visits m entries').
  { unfold visits. rewrite <- Hvisit. apply Permutation_swap. }
  destruct (Keys_Values_snapshot m entries entries' Hvisit Hvisit')
    as (_ & Hlen & _ & _ & _ & Hkeys & _).
  split; [exact Hvisit|]. split; [exact Hvisit'|].
  split; [reflexivity|]. split; [reflexivity|].
  split; [exact Hkeys|exact Hlen].
Defined.

End SafeMapLaws.

Module SafeCounterLaws.
Import SafeCounter ChanFacts.

Lemma wrap64_range z : minInt ≤ wrap64 z ≤ maxInt.
Proof.
  unfold wrap64, minInt, maxInt.
  pose proof (Z.mod_pos_bound (z + 2 ^ 63) (2 ^ 64) ltac:(lia)). lia.
Qed.

(** X5. [Decrement] undoes [Increment] and [Increment] undoes [Decrement] at
    every value of the counter, also at the ends of [int64], where the
    addition wraps around: from the largest value [Increment] gives the
    smallest, and from the smallest [Decrement] gives the largest.  Away
    from the ends the value returned is one more, or one less. *)
Theorem Increment_Decrement_inverse (c : SafeCounter)
  (Hrange : minInt ≤ value c ≤ maxInt) :
  (Decrement (Increment c).1).1 = c ∧
  (Increment (Decrement c).1).1 = c ∧
  (Increment c).2 = Get (Increment c).1 ∧
  (Decrement c).2 = Get (Decrement c).1 ∧
  (value c < maxInt → (Increment c).2 = value c + 1) ∧
  (value c = maxInt → (Increment c).2 = minInt) ∧
  (minInt < value c → (Decrement c).2 = value c - 1) ∧
  (value c = minInt → (Decrement c).2 = maxInt) ∧
  minInt ≤ (Increment c).2 ≤ maxInt ∧ minInt ≤ (Decrement c).2 ≤ maxInt.
Proof.
  destruct c as [v]. unfold Increment, Decrement, AddInt64, Get; simpl in *.
  rewrite !wrap64_add_l.
  replace (v + 1 + -1) with v by lia. replace (v + -1 + 1) with v by lia.
  rewrite (wrap64_small v) by done.
  repeat split; try apply wrap64_range.
  - intros H. apply wrap64_small. unfold minInt, maxInt in *. lia.
  - intros ->. by vm_compute.
  - intros H. rewrite wrap64_small; unfold minInt, maxInt in *; lia.
  - intros ->. by vm_compute.
Qed.

(** The counter at the largest [int64]. *)
Lemma Increment_Decrement_inverse_witness :
  (Increment (mk maxInt)).2 = minInt ∧
  (Decrement (Increment (mk maxInt)).1).1 = mk maxInt.
Proof.
  assert (Hrange : minInt ≤ value (mk maxInt) ≤ maxInt) by (by vm_compute).
  destruct (Increment_Decrement_inverse (mk maxInt) Hrange)
    as (Hback & _ & _ & _ & _ & Hwrap & _).
  split; [by apply Hwrap|exact Hback].
Defined.

End SafeCounterLaws.

Module SemaphoreLaws.
Import Semaphore ChanFacts SemaphoreFacts.

Lemma units_eq (l1 l2 : list ()) : length l1 = length l2 → l1 = l2.
Proof.
  revert l2. induction l1 as [|[] l1 IH]; intros [|[] l2]; simpl; try done.
  intros [= H]. f_equal. by apply IH.
Qed.

Lemma reach_sem_ok size s0 ops s evs :
  NewSemaphore size = Returned s0 → run s0 ops = Some (s, evs) →
  sem_ok s ∧ Z.of_nat (capacity s) = size.
Proof.
  intros Hnew Hrun. apply NewSemaphore_inv in Hnew as (_ & Hcap & _ & Hok).
  destruct (sem_run_inv _ _ _ _ Hok Hrun) as (Hok' & Hcap' & _).
  split; [done|]. by rewrite Hcap'.
Qed.

(** X6. In every state of a semaphore of positive size (one of size zero has an
    unbuffered channel, on which an acquisition and a release meet),
    [Available] lies between 0 and the capacity and tells what an
    acquisition does: when it is positive, [TryAcquire] returns true and
    [Acquire] returns at once, each taking one slot; when it is zero,
    [TryAcquire] returns false and [Acquire] blocks, and the semaphore stays
    as it is. *)
Theorem Available_decides_acquire
  (size : Z) (s0 s : Semaphore) (ops : list op) (evs : list event)
  (Hsize : 0 < size)
  (Hnew : NewSemaphore size = Returned s0)
  (Hrun : run s0 ops = Some (s, evs)) :
  0 ≤ Available s ≤ size ∧
  (0 < Available s →
   ∃ s', TryAcquire s = Proceeds (s', true) ∧ Acquire s = Proceeds s' ∧
         Available s' = Available s - 1) ∧
  (Available s = 0 → TryAcquire s = Proceeds (s, false) ∧ Acquire s = Blocked).
Proof.
  destruct (reach_sem_ok _ _ _ _ _ Hnew Hrun) as [[Hopen Hle] Hcap].
  unfold Available, capacity, TryAcquire, Acquire in *.
  split; [lia|]. split.
  - intros Hpos.
    destruct (chan_send (sem s) ()) as [c| |r] eqn:Hs.
    + apply chan_send_inv in Hs as (Hc & _ & Hl & _).
      eexists. split; [done|]. split; [done|]. simpl. lia.
    + apply chan_send_blocked in Hs as [_ Hfull]. lia.
    + unfold chan_send in Hs. rewrite Hopen in Hs.
      by destruct (chan_len (sem s) <? ch_cap (sem s))%nat.
  - intros H0. rewrite chan_send_full; [done|done|lia].
Qed.

(** One slot of two held. *)
Lemma Available_decides_acquire_witness :
  let s := mk (mkChan 2 [()] false) in
  ∃ s', TryAcquire s = Proceeds (s', true) ∧ Acquire s = Proceeds s' ∧
        Available s' = Available s - 1.
Proof.
  intros s.
  exact (proj1 (proj2
           (Available_decides_acquire 2 (mk (mkChan 2 [] false)) s
              [OpAcquire] _ eq_refl eq_refl eq_refl)) eq_refl).
Defined.

(** X7. [AcquireWithTimeout] in every state of a semaphore of positive size: a
    call that returns false has left the semaphore as it was; a call that
    returns true has taken exactly one slot; on a full semaphore the call
    blocks until the timer fires and then returns false; and with a free
    slot and the timer not fired it returns true. *)
Theorem AcquireWithTimeout_outcome
  (size : Z) (s0 s : Semaphore) (ops : list op) (evs : list event)
  (timer_fired pick_timer : bool)
  (Hsize : 0 < size)
  (Hnew : NewSemaphore size = Returned s0)
  (Hrun : run s0 ops = Some (s, evs)) :
  (∀ s', AcquireWithTimeout s timer_fired pick_timer = Proceeds (s', false) → s' = s) ∧
  (∀ s', AcquireWithTimeout s timer_fired pick_timer = Proceeds (s', true) →
         Available s' = Available s - 1 ∧ 0 ≤ Available s') ∧
  (Available s = 0 →
   AcquireWithTimeout s timer_fired pick_timer
   = if timer_fired then Proceeds (s, false) else Blocked) ∧
  (0 < Available s → timer_fired = false →
   ∃ s', AcquireWithTimeout s timer_fired pick_timer = Proceeds (s', true)).
Proof.
  destruct (reach_sem_ok _ _ _ _ _ Hnew Hrun) as [[Hopen Hle] Hcap].
  unfold Available, capacity, AcquireWithTimeout in *.
  destruct (chan_send (sem s) ()) as [c| |r] eqn:Hs.
  - apply chan_send_inv in Hs as (Hc & _ & Hl & Hlt).
    split; [|split; [|split]].
    + intros s'. destruct (timer_fired && pick_timer); by intros [= <-].
    + intros s'. destruct (timer_fired && pick_timer); intros [= <-]. simpl. lia.
    + lia.
    + intros _ ->. simpl. eauto.
  - apply chan_send_blocked in Hs as [_ Hfull].
    split; [|split; [|split]].
    + intros s'. destruct timer_fired; by intros [= <-].
    + intros s'. by destruct timer_fired.
    + done.
    + lia.
  - unfold chan_send in Hs. rewrite Hopen in Hs.
    by destruct (chan_len (sem s) <? ch_cap (sem s))%nat.
Qed.

(** A full semaphore and a timer that has fired. *)
Lemma AcquireWithTimeout_outcome_witness :
  let s := mk (mkChan 1 [()] false) in
  AcquireWithTimeout s true false = Proceeds (s, false).
Proof.
  intros s.
  exact (proj1 (proj2 (proj2
           (AcquireWithTimeout_outcome 1 (mk (mkChan 1 [] false)) s
              [OpTryAcquire] _ true false eq_refl eq_refl eq_refl))) eq_refl).
Defined.

(** X8. On a semaphore of positive size [Release] gives back what an
    acquisition took: after [Acquire], or a [TryAcquire] that returned
    true, [Release] returns at once and the semaphore is as it was before.
    On a semaphore of which no slot is held [Release] blocks, so that
    [Available] never exceeds the capacity. *)
Theorem Release_gives_back
  (size : Z) (s0 s : Semaphore) (ops : list op) (evs : list event)
  (Hsize : 0 < size)
  (Hnew : NewSemaphore size = Returned s0)
  (Hrun : run s0 ops = Some (s, evs)) :
  (∀ s', Acquire s = Proceeds s' → Release s' = Proceeds s) ∧
  (∀ s', TryAcquire s = Proceeds (s', true) → Release s' = Proceeds s) ∧
  (Available s = size → Release s = Blocked) ∧
  (∀ s', Release s = Proceeds s' → Available s' = Available s + 1 ∧ Available s' ≤ size).
Proof.
  destruct (reach_sem_ok _ _ _ _ _ Hnew Hrun) as [[Hopen Hle] Hcap].
  assert (Hback : ∀ c, chan_send (sem s) () = Proceeds c →
                       Release (mk c) = Proceeds s).
  { intros c Hs. unfold chan_send in Hs. rewrite Hopen in Hs.
    destruct (chan_len (sem s) <? ch_cap (sem s))%nat; [|done].
    injection Hs as <-. unfold Release, chan_recv; simpl.
    destruct s as [[cap buf closed]]; simpl in *. subst closed.
    destruct (buf ++ [()]) as [|x rest] eqn:Hb.
    - by destruct buf.
    - do 3 f_equal. apply units_eq.
      assert (length (buf ++ [()]) = S (length rest)) by (by rewrite Hb).
      rewrite length_app in H. simpl in H. lia. }
  unfold Available, capacity in *. split; [|split; [|split]].
  - intros s'. unfold Acquire.
    destruct (chan_send (sem s) ()) as [c| |r] eqn:Hs; try done.
    intros [= <-]. by apply Hback.
  - intros s'. unfold TryAcquire.
    destruct (chan_send (sem s) ()) as [c| |r] eqn:Hs; try done.
    intros [= <-]. by apply Hback.
  - intros Hfree. unfold Release, chan_recv.
    assert (Hz : chan_len (sem s) = 0%nat) by lia.
    unfold chan_len in Hz. apply length_zero_iff_nil in Hz. by rewrite Hz, Hopen.
  - intros s'. unfold Release.
    destruct (chan_recv (sem s)) as [[c o]| |r] eqn:Hr; try done.
    intros [= <-]. apply chan_recv_inv in Hr as (Hc & _ & Hcase). simpl.
    destruct Hcase as [(x & _ & Hl)|(_ & Hcl & _)]; [|congruence]. lia.
Qed.

(** One slot of two held: a second acquisition and its release. *)
Lemma Release_gives_back_witness :
  let s := mk (mkChan 2 [()] false) in
  Release (mk (mkChan 2 [(); ()] false)) = Proceeds s.
Proof.
  intros s.
  exact (proj1 (Release_gives_back 2 (mk (mkChan 2 [] false)) s
                  [OpAcquire] _ eq_refl eq_refl eq_refl) _ eq_refl).
Defined.

(** X9. [NewSemaphore] panics on a negative size and on no other: for every
    other size it returns a semaphore of that capacity, all of it
    available, on which [Release] blocks. *)
Theorem NewSemaphore_sizes (size : Z) :
  (size < 0 → ∃ r, NewSemaphore size = Panicked r) ∧
  (0 ≤ size →
   ∃ s, NewSemaphore size = Returned s ∧ Available s = size ∧
        Z.of_nat (capacity s) = size ∧ outstanding s = 0%nat ∧
        (0 < size → Release s = Blocked ∧
                    ∃ s', TryAcquire s = Proceeds (s', true))).
Proof.
  unfold NewSemaphore, make_chan. split.
  - intros H. apply Z.ltb_lt in H. rewrite H. eauto.
  - intros H. apply Z.ltb_ge in H as H'. rewrite H'. eexists. split; [done|].
    unfold Available, capacity, outstanding, chan_len; simpl.
    split_and!; try lia.
    intros Hpos. split; [done|].
    unfold TryAcquire, chan_send, chan_len; simpl.
    destruct (0 <? Z.to_nat size)%nat eqn:Hlt; [eauto|].
    apply Nat.ltb_ge in Hlt. lia.
Qed.

(** A size of -1. *)
Lemma NewSemaphore_sizes_witness :
  ∃ r, NewSemaphore (-1) = Panicked r.
Proof.
  destruct (NewSemaphore_sizes (-1)) as [Hneg _]. by apply Hneg.
Defined.

End SemaphoreLaws.

Module RateLimiterLaws.
Import RateLimiter ChanFacts RateLimiterFacts.

Lemma quot_Second_pos rate : 0 < Z.quot Second rate ↔ 1 ≤ rate ≤ Second.
Proof.
  unfold Second. split.
  - intros Hpos.
    destruct (Z_lt_le_dec rate 0) as [Hneg|Hnn].
    + exfalso.
      assert (H : Z.quot 1000000000 rate = - Z.quot 1000000000 (- rate))
        by (rewrite Z.quot_opp_r by lia; lia).
      rewrite H, Z.quot_div_nonneg in Hpos by lia.
      assert (0 ≤ 1000000000 / - rate) by (apply Z.div_pos; lia). lia.
    + destruct (Z.eq_dec rate 0) as [->|Hne]; [by vm_compute in Hpos|].
      split; [lia|].
      destruct (Z_le_gt_dec rate 1000000000) as [|Hbig]; [done|].
      rewrite Z.quot_div_nonneg, Z.div_small in Hpos by lia. lia.
  - intros [Hlo Hhi]. rewrite Z.quot_div_nonneg by lia.
    apply Z.div_str_pos. lia.
Qed.

(** One operation: a token is handed out only from the buffer, and the
    buffer gains a token only on a tick. *)
Lemma step_tally sys o sys' :
  tokens_ok (lim sys) → step sys o = Some sys' →
  ((if takes_token sys o then 1 else 0) + chan_len (tokens (lim sys'))
   ≤ (if is_tick sys o then 1 else 0) + chan_len (tokens (lim sys)))%nat.
Proof.
  intros (Hcap & Hopen & Hlen). unfold step, is_tick, takes_token.
  destruct (crashed sys); [done|].
  destruct o as [tick| | |].
  - unfold generateTokens. destruct (gen sys); [| |done].
    + destruct (NewTicker _); intros [= <-]; simpl; destruct tick; lia.
    + destruct tick.
      * unfold deposit.
        destruct (chan_send (tokens (lim sys)) ()) as [c| |x] eqn:Hs;
          intros [= <-]; simpl; [|lia|lia].
        apply chan_send_inv in Hs as (_ & _ & Hl & _). lia.
      * destruct (ctx_done (lim sys)); [|done]. intros [= <-]. simpl. lia.
  - unfold Wait.
    destruct (chan_recv (tokens (lim sys))) as [[c o]| |x] eqn:Hr; [|done|].
    + intros [= <-]. simpl. apply chan_recv_inv in Hr as (_ & _ & Hcase).
      destruct Hcase as [(y & _ & Hl)|(_ & Hcl & _)]; [lia|congruence].
    + intros [= <-]. simpl. lia.
  - unfold TryWait.
    destruct (chan_recv (tokens (lim sys))) as [[c o]| |x] eqn:Hr.
    + intros [= <-]. simpl. apply chan_recv_inv in Hr as (_ & _ & Hcase).
      destruct Hcase as [(y & _ & Hl)|(_ & Hcl & _)]; [lia|congruence].
    + intros [= <-]. simpl. lia.
    + intros [= <-]. simpl. lia.
  - intros [= <-]. simpl. lia.
Qed.

Lemma run_tally ops : ∀ sys sys',
  tokens_ok (lim sys) → run sys ops = Some sys' →
  ((tally sys ops).2 + chan_len (tokens (lim sys'))
   ≤ (tally sys ops).1 + chan_len (tokens (lim sys)))%nat.
Proof.
  induction ops as [|o rest IH]; intros sys sys' Hok; simpl.
  - intros [= <-]. lia.
  - destruct (step sys o) as [sys1|] eqn:Hs; [|done]. intros Hrun.
    pose proof (step_tally _ _ _ Hok Hs).
    pose proof (IH _ _ (step_ok _ _ _ Hok Hs) Hrun).
    destruct (tally sys1 rest) as [t k]. simpl in *. lia.
Qed.

(** X10. Over every history of a limiter, the tokens handed out by [Wait] and by
    [TryWait], together with the one that may still be buffered, are at
    most as many as the ticks of the generator: no burst is ever built
    up, and nobody is served without a tick. *)
Theorem tokens_within_ticks
  (rate : Z) (l0 : RateLimiter) (ops : list op) (sys : system)
  (Hnew : NewRateLimiter rate = Returned l0)
  (Hrun : run (start l0) ops = Some sys) :
  ((tally (start l0) ops).2 + chan_len (tokens (lim sys))
   ≤ (tally (start l0) ops).1)%nat.
Proof.
  apply NewRateLimiter_inv in Hnew as [Hok Hempty].
  pose proof (run_tally ops (start l0) sys Hok Hrun) as H.
  simpl in H. lia.
Qed.

(** Three ticks, of which two are dropped or pending, serve one caller. *)
Lemma tokens_within_ticks_witness :
  let l0 := mk 100000000 (mkChan 1 [] false) false in
  let ops := [GenStep true; GenStep true; GenStep true; OpTryWait;
              OpTryWait; GenStep true] in
  tally (start l0) ops = (3%nat, 1%nat) ∧
  ((tally (start l0) ops).2 + 1 ≤ (tally (start l0) ops).1)%nat.
Proof.
  intros l0 ops. split; [reflexivity|].
  exact (tokens_within_ticks 10 l0 ops
           (mkSystem (mk 100000000 (mkChan 1 [()] false) false) GenSelect None)
           eq_refl eq_refl).
Defined.

Lemma step_gen_ok sys o sys' : gen_ok sys → step sys o = Some sys' → gen_ok sys'.
Proof.
  unfold gen_ok, step, generateTokens, deposit, Wait, TryWait, Close.
  intros Hok Hs. repeat (case_match; simplify_eq/=); auto; try done.
Qed.

Lemma run_gen_ok ops : ∀ sys sys', gen_ok sys → run sys ops = Some sys' → gen_ok sys'.
Proof.
  induction ops as [|o rest IH]; intros sys sys' Hok; simpl.
  - by intros [= <-].
  - destruct (step sys o) as [sys1|] eqn:Hs; [|done].
    apply IH. by eapply step_gen_ok.
Qed.

Lemma step_exited sys o sys' :
  tokens_ok (lim sys) → gen sys = GenExited → step sys o = Some sys' →
  gen sys' = GenExited ∧
  (chan_len (tokens (lim sys')) ≤ chan_len (tokens (lim sys)))%nat.
Proof.
  intros Hok Hg Hs. pose proof (step_tally _ _ _ Hok Hs) as Ht.
  unfold is_tick in Ht. rewrite Hg in Ht.
  split.
  - revert Hs. unfold step, generateTokens. rewrite Hg.
    intros Hs. repeat (case_match; simplify_eq/=); done.
  - destruct (takes_token sys o); destruct o as [[]| | |]; simpl in Ht; lia.
Qed.

Lemma run_exited ops : ∀ sys sys',
  tokens_ok (lim sys) → gen sys = GenExited → run sys ops = Some sys' →
  gen sys' = GenExited ∧ tokens_ok (lim sys') ∧
  (chan_len (tokens (lim sys')) ≤ chan_len (tokens (lim sys)))%nat.
Proof.
  induction ops as [|o rest IH]; intros sys sys' Hok Hg; simpl.
  - intros [= <-]. auto.
  - destruct (step sys o) as [sys1|] eqn:Hs; [|done]. intros Hrun.
    destruct (step_exited _ _ _ Hok Hg Hs) as [Hg1 Hl1].
    destruct (IH _ _ (step_ok _ _ _ Hok Hs) Hg1 Hrun) as (? & ? & ?).
    split; [done|]. split; [done|lia].
Qed.

(** X11. The generator returns only after [Close], and once it has returned no
    token is added any more: the buffer can only go down, and from the
    moment it is empty every [Wait] blocks, for good, and every [TryWait]
    returns false. *)
Theorem no_token_after_generator_exit
  (rate : Z) (l0 : RateLimiter) (ops ops' : list op) (sys sys' : system)
  (Hnew : NewRateLimiter rate = Returned l0)
  (Hrun : run (start l0) ops = Some sys)
  (Hexit : gen sys = GenExited)
  (Hrun' : run sys ops' = Some sys') :
  ctx_done (lim sys) = true ∧
  gen sys' = GenExited ∧
  (chan_len (tokens (lim sys')) ≤ chan_len (tokens (lim sys)))%nat ∧
  (chan_len (tokens (lim sys)) = 0%nat →
   Wait (lim sys') = Blocked ∧ step sys' OpWait = None ∧
   TryWait (lim sys') = Proceeds (lim sys', false)).
Proof.
  apply NewRateLimiter_inv in Hnew as [Hok0 _].
  assert (Hok : tokens_ok (lim sys)) by exact (run_ok ops (start l0) sys Hok0 Hrun).
  split.
  - by apply (run_gen_ok ops (start l0) sys).
  - destruct (run_exited _ _ _ Hok Hexit Hrun') as (Hg' & (Hcap & Hopen & _) & Hle).
    split; [done|]. split; [done|]. intros Hz.
    assert (Hnil : ch_buf (tokens (lim sys')) = [])
      by (apply length_zero_iff_nil; unfold chan_len in *; lia).
    unfold step, Wait, TryWait, chan_recv. rewrite Hnil, Hopen.
    repeat split. by destruct (crashed sys').
Qed.

(** A limiter that is closed at once: its generator returns, and the
    callers that come later find nothing. *)
Lemma no_token_after_generator_exit_witness :
  let l0 := mk 100000000 (mkChan 1 [] false) false in
  let sys := mkSystem (mk 100000000 (mkChan 1 [] false) true) GenExited None in
  Wait (lim sys) = Blocked ∧ step sys OpWait = None ∧
  TryWait (lim sys) = Proceeds (lim sys, false).
Proof.
  intros l0 sys.
  exact (proj2 (proj2 (proj2
           (no_token_after_generator_exit 10 l0
              [GenStep true; OpClose; GenStep false] [OpTryWait; OpClose]
              sys sys eq_refl eq_refl eq_refl eq_refl))) eq_refl).
Defined.

(** *** RunWithRateLimit *)

Ltac rwl_fin Hpos Hnew Hp Hd :=
  unfold rwl_ok; simpl; split_and!;
  first
    [ done
    | assumption
    | intros; apply Hpos; congruence
    | intros; lia
    | let Hg := fresh in intros Hg; exfalso; congruence
    | let Hg := fresh in intros Hg; destruct (Hnew Hg); split; congruence
    | let p := fresh in let Hx := fresh in
      intros p [Hx|Hx]; simplify_eq; first [done | apply Hp; auto]
    | let Hx := fresh in let p := fresh in
      split;
      [ intros Hx;
        first [ by eauto
              | apply Hd in Hx as [p Hx]; simplify_eq; by eauto ]
      | intros [p Hx]; simplify_eq; first [done | apply Hd; by eauto] ]
    | idtac ].

Lemma rwl_step_ok fn l sys pc a sys' pc' :
  rwl_ok fn l sys pc → rwl_step fn (sys, pc) a = Some (sys', pc') →
  rwl_ok fn l sys' pc'.
Proof.
  intros (Hi & Hok & Hpos & Hnew & Hp & Hd).
  unfold rwl_step; simpl. destruct a as [|tick].
  - destruct pc as [| |p|p].
    + destruct (step sys OpWait) as [sys1|] eqn:Hs; [|done]. intros [= <- <-].
      pose proof (step_ok _ _ _ Hok Hs) as Hok1.
      revert Hs Hok1. unfold step. destruct (crashed sys); [done|].
      unfold Wait.
      destruct (chan_recv (tokens (lim sys))) as [[c o]| |x] eqn:Hr; [|done|].
      * intros [= <-] Hok1. simpl in *.
        assert (gen sys ≠ GenNewTicker).
        { intros Hg. destruct (Hnew Hg) as [Hz _].
          unfold chan_recv in Hr. unfold chan_len in Hz.
          apply length_zero_iff_nil in Hz. rewrite Hz in Hr.
          destruct Hok as (_ & Hopen & _). by rewrite Hopen in Hr. }
        rwl_fin Hpos Hnew Hp Hd.
      * intros _ _. destruct Hok as (_ & Hopen & _).
        unfold chan_recv in Hr. destruct (ch_buf _); [|done].
        by rewrite Hopen in Hr.
    + destruct (crashed sys); [done|].
      assert (gen sys ≠ GenNewTicker) by (intros Hg; by destruct (Hnew Hg)).
      destruct fn as [u|r]; intros [= <- <-];
        rwl_fin Hpos Hnew Hp Hd.
    + unfold step. destruct (crashed sys); [done|]. intros [= <- <-].
      assert (gen sys ≠ GenNewTicker) by (intros Hg; by destruct (Hnew Hg)).
      rwl_fin Hpos Hnew Hp Hd.
    + done.
  - destruct (step sys (GenStep tick)) as [sys1|] eqn:Hs; [|done]. intros [= <- <-].
    pose proof (step_ok _ _ _ Hok Hs) as Hok1.
    revert Hs Hok1. unfold step. destruct (crashed sys); [done|].
    unfold generateTokens, NewTicker. destruct (gen sys) eqn:Hg.
    + destruct (interval (lim sys) <=? 0) eqn:Hle; intros [= <-] Hok1; simpl in *.
      * rwl_fin Hpos Hnew Hp Hd.
      * apply Z.leb_gt in Hle.
        rwl_fin Hpos Hnew Hp Hd.
    + destruct tick.
      * unfold deposit.
        destruct (chan_send (tokens (lim sys)) ()) as [c| |x] eqn:Hs;
          intros [= <-] Hok1; simpl in *;
          rwl_fin Hpos Hnew Hp Hd.
      * destruct (ctx_done (lim sys)) eqn:Hcd; [|done]. intros [= <-] Hok1.
        simpl in *. rwl_fin Hpos Hnew Hp Hd. by rewrite Hcd.
    + done.
Qed.

Lemma rwl_run_ok fn l acts : ∀ sys pc sys' pc',
  rwl_ok fn l sys pc → rwl_run fn (sys, pc) acts = Some (sys', pc') →
  rwl_ok fn l sys' pc'.
Proof.
  induction acts as [|a rest IH]; intros sys pc sys' pc' Hok; simpl.
  - by intros [= <- <-].
  - destruct (rwl_step fn (sys, pc) a) as [[sys1 pc1]|] eqn:Hs; [|done].
    apply IH. by eapply rwl_step_ok.
Qed.

(** X12. [RunWithRateLimit] panics on a rate of zero before anything is called.
    Otherwise [fn] is called only after a tick of the generator has put a
    token into the buffer, which takes a rate between 1 and 10^9: with a
    rate outside, the interval is not positive, the generator never ticks,
    and [fn] is never called.  The limiter is closed exactly when the call
    is over, also when [fn] panicked, in which case the call goes on
    panicking with the value of [fn]; and with a rate between 1 and 10^9
    some schedule brings the call to its end. *)
Theorem RunWithRateLimit_waits_for_token (rate : Z) (fn : call unit) :
  (rate = 0 → ∀ acts, ∃ r, RunWithRateLimit rate fn acts = Panicked r) ∧
  (∀ acts sys pc,
     RunWithRateLimit rate fn acts = Returned (Some (sys, pc)) →
     (past_Wait pc = true → 1 ≤ rate ≤ Second) ∧
     (ctx_done (lim sys) = true ↔ ∃ p, pc = RDone p) ∧
     (∀ p, pc = RDone p →
           p = match fn with Panicked r => Some r | Returned _ => None end)) ∧
  (1 ≤ rate ≤ Second →
   ∃ acts sys p, RunWithRateLimit rate fn acts = Returned (Some (sys, RDone p))).
Proof.
  unfold RunWithRateLimit. split; [|split].
  - intros -> acts. eexists. reflexivity.
  - intros acts sys pc.
    destruct (Z.eq_dec rate 0) as [->|Hne]; [done|].
    rewrite NewRateLimiter_returned by done. intros [= Hrun].
    set (l := mk (Z.quot Second rate) (mkChan 1 [] false) false) in *.
    assert (Hok : rwl_ok fn l (start l) RWait).
    { unfold rwl_ok, tokens_ok, chan_len; simpl.
      split_and!; try done; try lia.
      - intros p [?|?]; done.
      - split; [done|]. intros [p ?]. done. }
    destruct (rwl_run_ok fn l acts _ _ _ _ Hok Hrun) as (_ & _ & Hpos & Hnew & Hp & Hd).
    simpl in *. split; [|split].
    + intros Hpast. apply quot_Second_pos. apply Hpos. intros Hg.
      destruct (Hnew Hg) as [_ ->]. done.
    + done.
    + intros p ->. apply Hp. by right.
  - intros Hrate.
    rewrite NewRateLimiter_returned by lia.
    apply quot_Second_pos in Hrate.
    exists [RGen true; RGen true; RCaller; RCaller; RCaller].
    simpl. unfold rwl_step, step, generateTokens, NewTicker; simpl.
    destruct (Z.quot Second rate <=? 0) eqn:Hle; [apply Z.leb_le in Hle; lia|].
    simpl. destruct fn; simpl; eauto.
Qed.

(** Ten calls a second, and a function that returns. *)
Lemma RunWithRateLimit_waits_for_token_witness :
  ∃ acts sys p,
    RunWithRateLimit 10 (Returned ()) acts = Returned (Some (sys, RDone p)).
Proof.
  destruct (RunWithRateLimit_waits_for_token 10 (Returned ())) as (_ & _ & Hend).
  apply Hend. by vm_compute.
Defined.

End RateLimiterLaws.

Module ParallelizerLaws.
Import Parallelizer ChanFacts CountFacts ParallelizerFacts.

Lemma count_le {A} (f g : A → bool) (l : list A) :
  (∀ x, f x = true → g x = true) → (count f l ≤ count g l)%nat.
Proof.
  intros H. induction l as [|x l IH]; simpl; [lia|].
  destruct (f x) eqn:Hf; [rewrite (H x Hf)|destruct (g x)]; lia.
Qed.

Lemma sem_bounded_step p ctx tasks s a s' :
  (chan_len (sem s) ≤ ch_cap (sem s))%nat →
  step p ctx tasks s a = Some s' →
  (chan_len (sem s') ≤ ch_cap (sem s'))%nat.
Proof.
  intros Hle. unfold step, main_step, go_step, make_chan.
  intros Hs. repeat (case_match; simplify_eq/=); try done; try lia.
  - unfold chan_len; simpl; lia.
  - match goal with H : chan_send _ _ = Proceeds _ |- _ =>
      apply chan_send_inv in H as (? & ? & ? & ?) end. lia.
  - match goal with H : chan_recv _ = Proceeds _ |- _ =>
      apply chan_recv_inv in H as (? & ? & [(? & ? & ?)|(? & ? & ? & ?)]) end;
      simplify_eq; lia.
Qed.

Lemma sem_bounded_run p ctx tasks acts : ∀ s s',
  (chan_len (sem s) ≤ ch_cap (sem s))%nat →
  run p ctx tasks s acts = Some s' →
  (chan_len (sem s') ≤ ch_cap (sem s'))%nat.
Proof.
  induction acts as [|a rest IH]; intros s s' Hle; simpl.
  - by intros [= <-].
  - destruct (step p ctx tasks s a) as [s1|] eqn:Hs; [|done].
    apply IH. by eapply sem_bounded_step.
Qed.

(** X13. In every state of a call, under every schedule, the goroutines that
    hold a slot of [sem], among them every goroutine that is at the call
    of its task, are at most [MaxGoroutines]. *)
Theorem at_most_MaxGoroutines_at_once
  (p : Parallelizer) (ctx : Context) (tasks : list Task)
  (acts : list action) (s : state)
  (Hcap : 0 ≤ MaxGoroutines p)
  (Hrun : RunWithContext p ctx tasks acts = Some s) :
  Z.of_nat (count holds_slot (gos s)) ≤ MaxGoroutines p ∧
  Z.of_nat (count calling (gos s)) ≤ MaxGoroutines p.
Proof.
  assert (Hcall : (count calling (gos s) ≤ count holds_slot (gos s))%nat).
  { apply count_le. intros g. unfold calling, holds_slot. by destruct (g_pc g). }
  assert (Hle : (chan_len (sem s) ≤ ch_cap (sem s))%nat).
  { eapply sem_bounded_run; [|exact Hrun]. simpl. unfold chan_len; simpl. lia. }
  destruct (reach_Inv p ctx tasks Hcap acts s Hrun) as [->|HI]; [simpl; lia|].
  destruct HI as [_ _ _ _ [Hc _] Hsem _ _ _ _]. lia.
Qed.

(** Three tasks under a bound of one, the first of them at its call. *)
Lemma at_most_MaxGoroutines_at_once_witness :
  let p := mk 1 0 in
  let tasks := [Returns (Int 1) None; Returns (Int 2) None; Panics Nil] in
  ∃ s, RunWithContext p Background tasks
         [AMain; AMain; AMain; AMain; AGo 0; AMain] = Some s ∧
       count calling (gos s) = 1%nat ∧
       Z.of_nat (count calling (gos s)) ≤ MaxGoroutines p.
Proof.
  intros p tasks.
  destruct (RunWithContext p Background tasks
              [AMain; AMain; AMain; AMain; AGo 0; AMain]) as [s|] eqn:Hrun;
    [|vm_compute in Hrun; discriminate].
  exists s.
  assert (Hcap : 0 ≤ MaxGoroutines p) by (by vm_compute).
  destruct (at_most_MaxGoroutines_at_once p Background tasks _ s Hcap Hrun)
    as [_ Hle].
  vm_compute in Hrun. injection Hrun as <-.
  split; [reflexivity|]. split; [reflexivity|exact Hle].
Defined.

(** X14. Without a timeout, on the background context, what [Run] returns does
    not depend on the schedule: position [i] holds the value and the error
    that task [i] returned, or a nil value and the panic of task [i] as an
    error; and some schedule returns. *)
Theorem Run_without_deadline
  (p : Parallelizer) (tasks : list Task)
  (Hcfg : 0 < MaxGoroutines p ∨ (MaxGoroutines p = 0 ∧ tasks = []))
  (Hto : Timeout p ≤ 0) :
  (∃ rs, returns (Run p tasks) rs) ∧
  (∀ rs, returns (Run p tasks) rs →
     rs = imap (λ i t, task_result t i) tasks ∧
     (∀ i value e, tasks !! i = Some (Returns value e) →
                   rs !! i = Some (mkTaskResult value e (Z.of_nat i))) ∧
     (∀ i r, tasks !! i = Some (Panics r) →
             rs !! i = Some (mkTaskResult Nil (Some (Errorf_panic (recover r)))
                               (Z.of_nat i)))).
Proof.
  destruct (config_cap _ _ Hcfg) as [Hcap _].
  destruct (call_returns p Background tasks Hcfg) as [_ Hsome].
  split; [exact Hsome|]. intros rs Hrs.
  pose proof (Run_no_deadline p tasks rs Hcap Hto Hrs) as ->.
  split; [done|]. split.
  - intros i value e Hi. by rewrite list_lookup_imap, Hi.
  - intros i r Hi. by rewrite list_lookup_imap, Hi.
Qed.

(** Five tasks under a bound of three, the third failing with boom. *)
Lemma Run_without_deadline_witness :
  let p := mk 3 0 in
  let boom := Returns Nil (Some (ErrorsNew "boom")) in
  let tasks := [Returns (Int 1) None; Returns (Int 2) None; boom;
                Returns (Int 4) None; Returns (Int 5) None] in
  ∃ rs, returns (Run p tasks) rs ∧
        rs = [mkTaskResult (Int 1) None 0; mkTaskResult (Int 2) None 1;
              mkTaskResult Nil (Some (ErrorsNew "boom")) 2;
              mkTaskResult (Int 4) None 3; mkTaskResult (Int 5) None 4].
Proof.
  intros p boom tasks.
  assert (Hcfg : 0 < MaxGoroutines p ∨ (MaxGoroutines p = 0 ∧ tasks = []))
    by (left; reflexivity).
  assert (Hto : Timeout p ≤ 0) by (by vm_compute).
  destruct (Run_without_deadline p tasks Hcfg Hto) as [[rs Hrs] Hall].
  exists rs. split; [exact Hrs|].
  by destruct (Hall rs Hrs) as [-> _].
Defined.

Lemma entered_done_step p ctx tasks e s a s' :
  ctx_err ctx = Some e →
  s = init ∨ Inv p ctx tasks s →
  entered_done e s →
  step p ctx tasks s a = Some s' → entered_done e s'.
Proof.
  intros Hctx HI Hed. unfold step.
  destruct (crashed s) eqn:Hcr; [done|].
  destruct a as [|k| |].
  - unfold main_step. destruct (pc s) eqn:Hpc.
    + destruct (make_chan (MaxGoroutines p)); intros [= <-].
      * split; [done|]. intros k g Hk. simpl in Hk. by rewrite lookup_nil in Hk.
      * intros Hne. by simpl in Hne.
    + destruct (Hed ltac:(congruence)) as [Hd Hg].
      case_match; intros [= <-]; (split; [done|exact Hg]).
    + destruct (Hed ltac:(congruence)) as [Hd Hg].
      case_match; intros [= <-]; (split; [done|exact Hg]).
    + destruct (Hed ltac:(congruence)) as [Hd Hg].
      destruct (tasks !! i) as [task|] eqn:Hi; intros [= <-].
      split; [done|]. simpl. intros k g Hk.
      apply lookup_app_Some in Hk as [Hk|[_ Hk]]; [by apply Hg|].
      apply list_lookup_singleton_Some in Hk as [_ <-]. by simpl.
    + destruct (Hed ltac:(congruence)) as [Hd Hg].
      destruct (wg s); intros [= <-].
      split; [by simpl; rewrite Hd|exact Hg].
    + done.
  - destruct HI as [->|HI]; [done|].
    destruct (Hed (proj1 (inv_pc _ _ _ _ HI))) as [Hd Hg].
    pose proof (inv_slots _ _ _ _ HI) as Hslots.
    pose proof (inv_len _ _ _ _ HI) as Hlen.
    unfold go_step. destruct (gos s !! k) as [g|] eqn:Hk; [|done].
    destruct (Hslots k g Hk) as (Hix & Htask & _).
    assert (Hlt : (k < length (results s))%nat)
      by (rewrite Hlen; by eapply lookup_lt_Some).
    assert (Hkg : (k < length (gos s))%nat) by (by eapply lookup_lt_Some).
    destruct (Hg k g Hk) as [Hnc Hres].
    destruct (g_pc g) eqn:Hgpc; try done.
    + rewrite Hd, Hix. intros [= <-]. split; [done|]. simpl.
      intros j gj Hj. destruct (decide (j = k)) as [->|Hne].
      * rewrite list_lookup_insert_eq in Hj by done. injection Hj as <-.
        simpl. split; [done|]. intros _. by rewrite list_lookup_insert_eq.
      * rewrite list_lookup_insert_ne in Hj by done.
        rewrite list_lookup_insert_ne by done. by apply Hg.
    + destruct (chan_recv (sem s)) as [[c o]| |r]; intros [= <-];
        (split; [done|]); simpl; [|exact Hg].
      intros j gj Hj. destruct (decide (j = k)) as [->|Hne].
      * rewrite list_lookup_insert_eq in Hj by done. injection Hj as <-.
        simpl. split; [done|]. intros _. by apply Hres.
      * rewrite list_lookup_insert_ne in Hj by done. by apply Hg.
    + destruct (wg s); intros [= <-]; (split; [done|]); simpl; [exact Hg|].
      intros j gj Hj. destruct (decide (j = k)) as [->|Hne].
      * rewrite list_lookup_insert_eq in Hj by done. injection Hj as <-.
        simpl. split; [done|]. intros _. by apply Hres.
      * rewrite list_lookup_insert_ne in Hj by done. by apply Hg.
  - destruct (0 <? Timeout p); simpl; [|done].
    destruct (ctx_live s) eqn:Hlive; [|done].
    assert (Hne : pc s ≠ MInit) by (intros Hpc; unfold ctx_live in Hlive; by rewrite Hpc in Hlive).
    destruct (Hed Hne) as [-> _]. done.
  - destruct (ctx_live s) eqn:Hlive; [|done].
    assert (Hne : pc s ≠ MInit) by (intros Hpc; unfold ctx_live in Hlive; by rewrite Hpc in Hlive).
    destruct (Hed Hne) as [-> _]. by destruct (ctx_later ctx).
Qed.

Lemma entered_done_run p ctx tasks e :
  0 ≤ MaxGoroutines p → ctx_err ctx = Some e →
  ∀ acts s s', s = init ∨ Inv p ctx tasks s → entered_done e s →
               run p ctx tasks s acts = Some s' → entered_done e s'.
Proof.
  intros Hcap Hctx acts. induction acts as [|a rest IH]; intros s s' HI Hed; simpl.
  - by intros [= <-].
  - destruct (step p ctx tasks s a) as [s1|] eqn:Hs; [|done].
    apply IH; [|by eapply entered_done_step].
    destruct HI as [->|HI].
    + pose proof (step_init p ctx tasks _ _ Hs) as ->.
      right. by apply Inv_entry.
    + right. by eapply Inv_step.
Qed.

(** X15. A call on a context that is already done with [e] calls no task, under
    any schedule, and what it returns holds at every position a nil value
    and [e]; under a bound that admits the tasks some schedule returns. *)
Theorem context_done_at_entry
  (p : Parallelizer) (ctx : Context) (tasks : list Task) (e : err)
  (Hcap : 0 ≤ MaxGoroutines p)
  (Hctx : ctx_err ctx = Some e) :
  (∀ acts s, RunWithContext p ctx tasks acts = Some s →
             count calling (gos s) = 0%nat) ∧
  (∀ rs, returns (RunWithContext p ctx tasks) rs →
         rs = imap (λ k _, deadline_result e k) tasks) ∧
  (0 < MaxGoroutines p ∨ tasks = [] →
   ∃ rs, returns (RunWithContext p ctx tasks) rs).
Proof.
  assert (Hreach : ∀ acts s, RunWithContext p ctx tasks acts = Some s →
                             entered_done e s).
  { intros acts s Hrun. eapply entered_done_run; [done|done| | |exact Hrun].
    - by left.
    - intros Hne. by simpl in Hne. }
  split; [|split].
  - intros acts s Hrun.
    destruct (reach_Inv p ctx tasks Hcap acts s Hrun) as [->|HI]; [done|].
    destruct (Hreach acts s Hrun (proj1 (inv_pc _ _ _ _ HI))) as [_ Hg].
    destruct (count calling (gos s)) as [|n] eqn:Hn; [done|].
    destruct (count_pos calling (gos s)) as (k & g & Hk & Hc); [lia|].
    destruct (Hg k g Hk) as [Hnc _]. unfold calling in Hc.
    by destruct (g_pc g).
  - intros rs (acts & s & Hrun & Hret & <-).
    destruct (reach_Inv p ctx tasks Hcap acts s Hrun) as [->|HI]; [done|].
    destruct (Hreach acts s Hrun (proj1 (inv_pc _ _ _ _ HI))) as [_ Hg].
    pose proof (unfinished_not_returned p ctx tasks s) as Hnr.
    apply list_eq. intros k. rewrite list_lookup_imap.
    destruct (tasks !! k) as [t|] eqn:Ht; simpl.
    + pose proof (inv_spawned _ _ _ _ HI) as Hsp. rewrite Hret in Hsp.
      simpl in Hsp.
      assert (Hk : (k < length (gos s))%nat)
        by (rewrite Hsp; by eapply lookup_lt_Some).
      destruct (lookup_lt_is_Some_2 _ _ Hk) as [g Hgk].
      destruct (Hg k g Hgk) as [_ Hres]. apply Hres.
      intros Hpc. apply (Hnr k g HI Hgk); [|done].
      unfold unfinished. by rewrite Hpc.
    + apply lookup_ge_None. rewrite (inv_len _ _ _ _ HI).
      by apply lookup_ge_None.
  - intros Hcfg.
    apply (call_returns p ctx tasks).
    destruct Hcfg as [Hpos|Hnil]; [by left|].
    destruct (decide (0 < MaxGoroutines p)); [by left|right; split; [lia|done]].
Qed.

(** Two tasks on a context that was cancelled before the call. *)
Lemma context_done_at_entry_witness :
  let p := mk 2 0 in
  let ctx := mkContext (Some Canceled) None in
  let tasks := [Returns (Int 1) None; Panics Nil] in
  ∃ rs, returns (RunWithContext p ctx tasks) rs ∧
        rs = [mkTaskResult Nil (Some Canceled) 0;
              mkTaskResult Nil (Some Canceled) 1].
Proof.
  intros p ctx tasks.
  assert (Hcap : 0 ≤ MaxGoroutines p) by (by vm_compute).
  assert (Hctx : ctx_err ctx = Some Canceled) by reflexivity.
  destruct (context_done_at_entry p ctx tasks Canceled Hcap Hctx)
    as (_ & Hall & Hsome).
  destruct Hsome as [rs Hrs]; [left; reflexivity|].
  exists rs. split; [exact Hrs|exact (Hall rs Hrs)].
Defined.

Lemma started_step p ctx tasks t k s a s' :
  Inv p ctx tasks s → started t k s →
  step p ctx tasks s a = Some s' → started t k s'.
Proof.
  intros HI (g & Hk & Ht & Hst). unfold step.
  destruct (crashed s) eqn:Hcr; [done|].
  pose proof (inv_slots _ _ _ _ HI) as Hslots.
  pose proof (inv_len _ _ _ _ HI) as Hlen.
  destruct (Hslots k g Hk) as (Hix & Htask & _).
  assert (Hlt : (k < length (results s))%nat)
    by (rewrite Hlen; by eapply lookup_lt_Some).
  assert (Hkg : (k < length (gos s))%nat) by (by eapply lookup_lt_Some).
  destruct a as [|j| |].
  - unfold main_step. intros Hs.
    destruct (pc s) eqn:Hpc; repeat case_match; simplify_eq/=;
      try (by exists g).
    + by destruct (proj1 (inv_pc _ _ _ _ HI)).
    + exists g. simpl. split; [by rewrite lookup_app_l|done].
  - unfold go_step. destruct (gos s !! j) as [gj|] eqn:Hj; [|done].
    destruct (Hslots j gj Hj) as (Hjx & _ & _).
    destruct (decide (j = k)) as [->|Hne].
    + assert (gj = g) as -> by congruence.
      destruct Hst as [Hcall|(Hn1 & Hn2 & Hres)].
      * rewrite Hcall. intros [= <-]. eexists. simpl.
        rewrite list_lookup_insert_eq by done. split; [done|]. simpl.
        split; [done|]. right. split_and!; try done.
        rewrite invoke_eq, Hix, Ht. by rewrite list_lookup_insert_eq.
      * destruct (g_pc g) eqn:Hgpc; try done.
        -- destruct (chan_recv (sem s)) as [[c o]| |r]; intros [= <-].
           ++ eexists. simpl. rewrite list_lookup_insert_eq by done.
              split; [done|]. simpl. split; [done|]. right. by split_and!.
           ++ exists g. split; [done|]. split; [done|]. right.
              rewrite Hgpc. by split_and!.
        -- destruct (wg s); intros [= <-].
           ++ exists g. split; [done|]. split; [done|]. right.
              rewrite Hgpc. by split_and!.
           ++ eexists. simpl. rewrite list_lookup_insert_eq by done.
              split; [done|]. simpl. split; [done|]. right. by split_and!.
    + assert (Hother : ∀ rs x, results s !! k = Some x →
                rs = results s ∨ (∃ y, rs = <[g_index gj := y]> (results s)) →
                rs !! k = Some x).
      { intros rs x Hx [->|[y ->]]; [done|].
        rewrite list_lookup_insert_ne by lia. done. }
      intros Hs.
      assert (Hgos : gos s' !! k = Some g ∧
                (results s' = results s ∨
                 ∃ y, results s' = <[g_index gj := y]> (results s))).
      { destruct (g_pc gj); repeat case_match; simplify_eq/=;
          rewrite ?list_lookup_insert_ne by done; rewrite ?invoke_eq; eauto. }
      destruct Hgos as [Hk' Hrs].
      exists g. split; [done|]. split; [done|].
      destruct Hst as [?|(? & ? & Hres)]; [by left|right].
      split_and!; try done. by eapply Hother.
  - intros Hs. exists g. repeat case_match; simplify_eq/=; by split_and!.
  - intros Hs. exists g. repeat case_match; simplify_eq/=; by split_and!.
Qed.

Lemma started_run p ctx tasks t k acts : ∀ s s',
  Inv p ctx tasks s → started t k s →
  run p ctx tasks s acts = Some s' → started t k s'.
Proof.
  induction acts as [|a rest IH]; intros s s' HI Hst; simpl.
  - by intros [= <-].
  - destruct (step p ctx tasks s a) as [s1|] eqn:Hs; [|done].
    apply IH; [by eapply Inv_step|by eapply started_step].
Qed.

(** X27. The deadline and the caller's context are looked at only before a
    task is called.  Once the goroutine of task [k] has got to the call,
    whatever happens from then on, a deadline that passes or a context
    that is cancelled, the call of the runner returns only after that
    goroutine is through, and position [k] of what it returns holds the
    result of the task itself, not the error of the context. *)
Theorem started_task_keeps_its_result
  (p : Parallelizer) (ctx : Context) (tasks : list Task)
  (acts acts' : list action) (s s' : state) (k : nat) (g : goroutine)
  (Hcap : 0 ≤ MaxGoroutines p)
  (Hrun : RunWithContext p ctx tasks acts = Some s)
  (Hk : gos s !! k = Some g)
  (Hcall : g_pc g = GCall)
  (Hrun' : run p ctx tasks s acts' = Some s') :
  tasks !! k = Some (g_task g) ∧
  pc s ≠ MReturned ∧
  (pc s' = MReturned →
   results s' !! k = Some (task_result (g_task g) k)).
Proof.
  destruct (reach_Inv p ctx tasks Hcap acts s Hrun) as [->|HI]; [done|].
  destruct (inv_slots _ _ _ _ HI k g Hk) as (_ & Htask & _).
  split; [done|]. split.
  - apply (unfinished_not_returned p ctx tasks s k g HI Hk).
    unfold unfinished. by rewrite Hcall.
  - intros Hret.
    assert (Hst : started (g_task g) k s) by (exists g; auto).
    destruct (started_run p ctx tasks _ k acts' s s' HI Hst Hrun')
      as (g' & Hk' & Ht' & [Hc|(_ & _ & Hres)]); [|done].
    exfalso.
    apply (unfinished_not_returned p ctx tasks s' k g'
             (run_Inv p ctx tasks acts' s s' HI Hrun') Hk'); [|done].
    unfold unfinished. by rewrite Hc.
Qed.

(** A task under a timeout: the deadline passes while the task is being
    called. *)
Lemma started_task_keeps_its_result_witness :
  let p := mk 1 5 in
  let tasks := [Returns (Int 1) None] in
  let acts := [AMain; AMain; AMain; AMain; AGo 0] in
  let acts' := [ATimer; AGo 0; AGo 0; AGo 0; AMain; AMain] in
  ∃ s s',
    RunWithContext p Background tasks acts = Some s ∧
    run p Background tasks s acts' = Some s' ∧
    done s' = Some DeadlineExceeded ∧ pc s' = MReturned ∧
    results s' !! 0%nat = Some (mkTaskResult (Int 1) None 0).
Proof.
  intros p tasks acts acts'.
  destruct (RunWithContext p Background tasks acts) as [s|] eqn:Hrun;
    [|vm_compute in Hrun; discriminate].
  destruct (run p Background tasks s acts') as [s'|] eqn:Hrun';
    [|vm_compute in Hrun; injection Hrun as <-; vm_compute in Hrun'; discriminate].
  exists s, s'. split; [done|]. split; [done|].
  assert (Hcap : 0 ≤ MaxGoroutines p) by (by vm_compute).
  assert (Hk : gos s !! 0%nat = Some (mkGo 0 (Returns (Int 1) None) GCall)).
  { vm_compute in Hrun. by injection Hrun as <-. }
  destruct (started_task_keeps_its_result p Background tasks acts acts' s s'
              0 _ Hcap Hrun Hk eq_refl Hrun') as (_ & _ & Hres).
  assert (Hs' : done s' = Some DeadlineExceeded ∧ pc s' = MReturned).
  { vm_compute in Hrun. injection Hrun as <-.
    vm_compute in Hrun'. by injection Hrun' as <-. }
  destruct Hs' as [Hd Hret].
  split; [exact Hd|]. split; [exact Hret|]. exact (Hres Hret).
Defined.

Lemma blocked_step p ctx tasks s a s' :
  MaxGoroutines p = 0 → tasks ≠ [] →
  blocked_at_first_send s →
  step p ctx tasks s a = Some s' → blocked_at_first_send s'.
Proof.
  intros Hzero Hne (Hcr & Hgos & Hpc). unfold step. rewrite Hcr.
  destruct a as [|k| |].
  - unfold main_step.
    destruct Hpc as [Hpc|(Hcap & Hopen & [Hpc|Hpc])]; rewrite Hpc.
    + rewrite Hzero. simpl. intros [= <-]. split_and!; simpl; auto.
    + destruct tasks as [|t rest]; [done|]. simpl. intros [= <-].
      split_and!; simpl; auto.
    + unfold chan_send. rewrite Hopen, Hcap.
      by destruct (chan_len (sem s) <? 0)%nat eqn:Hlt;
        [apply Nat.ltb_lt in Hlt; lia|].
  - unfold go_step. by rewrite Hgos.
  - destruct ((0 <? Timeout p) && ctx_live s) eqn:Hlive; [|done].
    destruct (done s); [done|]. intros [= <-].
    split_and!; simpl; auto.
  - destruct (ctx_live s) eqn:Hlive; [|done].
    destruct (ctx_later ctx); [|done].
    destruct (done s); [done|]. intros [= <-].
    split_and!; simpl; auto.
Qed.

Lemma blocked_run p ctx tasks :
  MaxGoroutines p = 0 → tasks ≠ [] →
  ∀ acts s s', blocked_at_first_send s →
               run p ctx tasks s acts = Some s' → blocked_at_first_send s'.
Proof.
  intros Hzero Hne acts. induction acts as [|a rest IH]; intros s s' Hb; simpl.
  - by intros [= <-].
  - destruct (step p ctx tasks s a) as [s1|] eqn:Hs; [|done].
    apply IH. by eapply blocked_step.
Qed.

Lemma negative_bound_reach p ctx tasks acts s :
  MaxGoroutines p < 0 →
  RunWithContext p ctx tasks acts = Some s →
  (acts = [] ∧ s = init) ∨
  (acts = [AMain] ∧ s = set_crashed init (Str "makechan: size out of range")).
Proof.
  intros Hlt. unfold RunWithContext.
  destruct acts as [|a rest]; simpl; [intros [= <-]; by left|].
  destruct (step p ctx tasks init a) as [s1|] eqn:Hs; [|done].
  pose proof (step_init p ctx tasks _ _ Hs) as ->.
  unfold step, main_step, make_chan in Hs. simpl in Hs.
  destruct (MaxGoroutines p <? 0) eqn:Hb; [|apply Z.ltb_ge in Hb; lia].
  injection Hs as <-.
  destruct rest as [|b rest]; simpl; [intros [= <-]; by right|done].
Qed.

Lemma negative_bound_entry p ctx tasks :
  MaxGoroutines p < 0 →
  RunWithContext p ctx tasks [AMain]
  = Some (set_crashed init (Str "makechan: size out of range")).
Proof.
  intros Hlt. unfold RunWithContext; simpl.
  unfold step, main_step, make_chan; simpl.
  by destruct (MaxGoroutines p <? 0) eqn:Hb; [|apply Z.ltb_ge in Hb; lia].
Qed.

Lemma zero_bound_reach p ctx tasks acts s :
  MaxGoroutines p = 0 → tasks ≠ [] →
  RunWithContext p ctx tasks acts = Some s → blocked_at_first_send s.
Proof.
  intros Hz Hne Hrun. eapply blocked_run; [done|done| |exact Hrun].
  split_and!; simpl; auto.
Qed.

(** X16. The bounds that admit no task.  Under a negative bound the entry of the
    call panics on the creation of [sem], and nothing else happens.
    Under a bound of zero with a task to run the caller never gets past its
    first send: nothing is started and nothing panics.  In both cases no
    schedule returns. *)
Theorem bound_leaves_no_room
  (p : Parallelizer) (ctx : Context) (tasks : list Task) :
  (MaxGoroutines p < 0 →
   RunWithContext p ctx tasks [AMain]
   = Some (set_crashed init (Str "makechan: size out of range")) ∧
   ∀ acts s, RunWithContext p ctx tasks acts = Some s → gos s = []) ∧
  (MaxGoroutines p = 0 → tasks ≠ [] →
   ∀ acts s, RunWithContext p ctx tasks acts = Some s →
             crashed s = None ∧ gos s = [] ∧
             (pc s = MInit ∨ pc s = MAdd 0 ∨ pc s = MSend 0)) ∧
  (MaxGoroutines p < 0 ∨ (MaxGoroutines p = 0 ∧ tasks ≠ []) →
   ∀ rs, ¬ returns (RunWithContext p ctx tasks) rs).
Proof.
  split_and!.
  - intros Hlt. split; [by apply negative_bound_entry|].
    intros acts s Hrun.
    by destruct (negative_bound_reach p ctx tasks acts s Hlt Hrun)
      as [[_ ->]|[_ ->]].
  - intros Hz Hne acts s Hrun.
    destruct (zero_bound_reach p ctx tasks acts s Hz Hne Hrun)
      as (Hcr & Hgos & Hpc).
    split_and!; [done|done|]. destruct Hpc as [?|(_ & _ & [?|?])]; auto.
  - intros Hbad rs (acts & s & Hrun & Hret & _).
    destruct Hbad as [Hlt|[Hz Hne]].
    + by destruct (negative_bound_reach p ctx tasks acts s Hlt Hrun)
        as [[_ ->]|[_ ->]].
    + destruct (zero_bound_reach p ctx tasks acts s Hz Hne Hrun)
        as (_ & _ & Hpc).
      destruct Hpc as [?|(_ & _ & [?|?])]; congruence.
Qed.

(** A bound of -1: the entry panics. *)
Lemma bound_leaves_no_room_witness :
  RunWithContext (mk (-1) 0) Background [Returns Nil None] [AMain]
  = Some (set_crashed init (Str "makechan: size out of range")).
Proof.
  destruct (bound_leaves_no_room (mk (-1) 0) Background [Returns Nil None])
    as (Hneg & _ & _).
  apply Hneg. reflexivity.
Defined.

End ParallelizerLaws.

Module BatchLaws.
Import Parallelizer Batch ChanFacts ParallelizerFacts ParallelizerLaws BatchFacts.

(** The count that [BatchProcess] computes, in range: the quotient rounded
    up. *)
Lemma batchCount_value {T} (items : list T) batchSize :
  0 < batchSize → Z.of_nat (length items) + batchSize - 1 ≤ maxInt →
  batchCount items batchSize
  = Returned ((Z.of_nat (length items) + batchSize - 1) / batchSize).
Proof.
  intros Hpos Hrange. unfold batchCount.
  destruct (batchSize =? 0) eqn:H0; [apply Z.eqb_eq in H0; lia|].
  f_equal. unfold int_sub, int_add, int_quo.
  replace (wrap64 (Z.of_nat (length items) + batchSize) - 1)
    with (wrap64 (Z.of_nat (length items) + batchSize) + -1) by lia.
  rewrite wrap64_add_l.
  replace (Z.of_nat (length items) + batchSize + -1)
    with (Z.of_nat (length items) + batchSize - 1) by lia.
  set (a := Z.of_nat (length items) + batchSize - 1).
  assert (Ha : 0 ≤ a ≤ maxInt) by (unfold a; lia).
  rewrite (wrap64_small a) by (unfold minInt, maxInt in *; lia).
  rewrite Z.quot_div_nonneg by lia.
  assert (0 ≤ a / batchSize) by (apply Z.div_pos; lia).
  assert (a / batchSize ≤ a) by (apply Z.div_le_upper_bound; nia).
  rewrite wrap64_small; [done|]. unfold minInt, maxInt in *. lia.
Qed.

(** Chunks that are full but for the last one are as many as the quotient
    of their total length, rounded up. *)
Lemma chunks_count {T} (chunks : list (list T)) (bs : Z) :
  0 < bs →
  Forall (λ b, 0 < Z.of_nat (length b) ≤ bs) chunks →
  (∀ j b, chunks !! j = Some b → (S j < length chunks)%nat →
          Z.of_nat (length b) = bs) →
  (Z.of_nat (length (concat chunks)) + bs - 1) / bs = Z.of_nat (length chunks).
Proof.
  intros Hpos. induction chunks as [|b rest IH]; intros Hall Hfull.
  - simpl. apply Z.div_small. lia.
  - apply Forall_cons in Hall as [Hb Hrest].
    destruct rest as [|c rest].
    + simpl. rewrite app_nil_r.
      replace (Z.of_nat (length b) + bs - 1)
        with ((Z.of_nat (length b) - 1) + 1 * bs) by lia.
      rewrite Z.div_add by lia. rewrite Z.div_small by lia. done.
    + assert (Hlen : Z.of_nat (length b) = bs).
      { apply (Hfull 0%nat b); [done|simpl; lia]. }
      change (concat (b :: c :: rest)) with (b ++ concat (c :: rest)).
      rewrite length_app.
      replace (Z.of_nat (length b + length (concat (c :: rest))) + bs - 1)
        with ((Z.of_nat (length (concat (c :: rest))) + bs - 1) + 1 * bs) by lia.
      rewrite Z.div_add by lia. rewrite IH.
      * simpl length. lia.
      * done.
      * intros j b' Hj Hlt. apply (Hfull (S j) b'); [done|simpl in *; lia].
Qed.

(** X17. In range, that is for a positive [batchSize] with
    [len(items) + batchSize - 1] within [int]: the batches are consecutive
    pieces of the input that make up all of it, none is empty or longer than
    [batchSize], all but the last hold [batchSize] items, and they are as
    many as the capacity that was computed for them. *)
Theorem batches_partition_items {T : Type}
  (items : list T) (batchSize : Z)
  (Hpos : 0 < batchSize)
  (Hrange : Z.of_nat (length items) + batchSize - 1 ≤ maxInt) :
  ∃ batches,
    split items batchSize = Some (Returned batches) ∧
    concat batches = items ∧
    Forall (λ b, 0 < Z.of_nat (length b) ≤ batchSize) batches ∧
    (∀ j b, batches !! j = Some b → (S j < length batches)%nat →
            Z.of_nat (length b) = batchSize) ∧
    batchCount items batchSize = Returned (Z.of_nat (length batches)).
Proof.
  destruct (split_in_range items batchSize Hpos Hrange)
    as (batches & Hsplit & Hcat & Hall & Hfull).
  exists batches. simpl in Hcat. rewrite drop_0 in Hcat.
  split_and!; try done.
  rewrite batchCount_value by done. f_equal.
  rewrite <- Hcat. by apply chunks_count.
Qed.

(** Ten items in batches of three. *)
Lemma batches_partition_items_witness :
  ∃ batches,
    split [1; 2; 3; 4; 5; 6; 7; 8; 9; 10] 3 = Some (Returned batches) ∧
    batches = [[1; 2; 3]; [4; 5; 6]; [7; 8; 9]; [10]] ∧
    batchCount [1; 2; 3; 4; 5; 6; 7; 8; 9; 10] 3
    = Returned (Z.of_nat (length batches)).
Proof.
  assert (Hpos : 0 < 3) by lia.
  assert (Hrange : Z.of_nat (length [1; 2; 3; 4; 5; 6; 7; 8; 9; 10]) + 3 - 1
                   ≤ maxInt) by (by vm_compute).
  destruct (batches_partition_items [1; 2; 3; 4; 5; 6; 7; 8; 9; 10] 3
              Hpos Hrange) as (batches & Hsplit & _ & _ & _ & Hcount).
  exists batches. split; [exact Hsplit|]. split; [|exact Hcount].
  vm_compute in Hsplit. by injection Hsplit as <-.
Defined.

(** X18. In range and under a positive bound no schedule makes [BatchProcess]
    panic, also when the batch function panics, and some schedule makes it
    return.  It returns nil exactly when the batch function returned nil
    on every batch; otherwise it returns what the first batch, in the order
    of the input, on which the function did not return nil gave: its
    error, or its panic as an error. *)
Theorem BatchProcess_first_failing_batch {T : Type}
  (items : list T) (batchSize maxGoroutines : Z)
  (processBatch : list T → call error)
  (Hpos : 0 < batchSize)
  (Hrange : Z.of_nat (length items) + batchSize - 1 ≤ maxInt)
  (Hmg : 0 < maxGoroutines) :
  ∃ batches,
    split items batchSize = Some (Returned batches) ∧
    (∀ acts r,
       BatchProcess items batchSize maxGoroutines processBatch acts ≠ BPanicked r) ∧
    (∃ acts e,
       BatchProcess items batchSize maxGoroutines processBatch acts = BReturned e) ∧
    (∀ acts,
       BatchProcess items batchSize maxGoroutines processBatch acts = BReturned None →
       ∀ b, b ∈ batches → processBatch b = Returned None) ∧
    (∀ acts e,
       BatchProcess items batchSize maxGoroutines processBatch acts = BReturned (Some e) →
       ∃ k b, batches !! k = Some b ∧
              (processBatch b = Returned (Some e) ∨
               ∃ r, processBatch b = Panicked r ∧ e = Errorf_panic (recover r)) ∧
              ∀ j b', (j < k)%nat → batches !! j = Some b' →
                      processBatch b' = Returned None).
Proof.
  destruct (BatchProcess_in_range items batchSize maxGoroutines processBatch
              Hpos Hrange Hmg) as (batches & Hsplit & _ & Hnp & Hret & Hfirst).
  exists batches. split_and!; try done.
  - intros acts Hnone b Hb.
    pose proof (Hfirst acts None Hnone) as Hfn. symmetry in Hfn.
    apply first_non_nil_None in Hfn.
    rewrite Forall_forall in Hfn.
    specialize (Hfn (batch_error processBatch b)).
    unfold batch_error in Hfn.
    destruct (processBatch b) as [[e|]|r] eqn:Hpb; try done;
      by (discriminate Hfn; apply list_elem_of_fmap; exists b; rewrite ?Hpb).
  - intros acts e He.
    pose proof (Hfirst acts (Some e) He) as Hfn. symmetry in Hfn.
    apply first_non_nil_Some in Hfn as (k & Hk & Hbefore).
    rewrite list_lookup_fmap in Hk.
    destruct (batches !! k) as [b|] eqn:Hb; [|done]. simpl in Hk.
    exists k, b. split; [done|]. split.
    + unfold batch_error in Hk. destruct (processBatch b) as [e'|r].
      * left. by injection Hk as ->.
      * right. exists r. split; [done|]. by injection Hk as <-.
    + intros j b' Hj Hb'. specialize (Hbefore j Hj).
      rewrite list_lookup_fmap, Hb' in Hbefore. simpl in Hbefore.
      unfold batch_error in Hbefore.
      by destruct (processBatch b') as [[e'|]|r].
Qed.

(** Ten items in batches of three under a bound of two, the batch function
    failing on the batch that holds 7. *)
Lemma BatchProcess_first_failing_batch_witness :
  let items := [1; 2; 3; 4; 5; 6; 7; 8; 9; 10] in
  let fn := λ batch : list Z,
              if decide (7 ∈ batch) then Returned (Some (ErrorsNew "seven"))
              else Returned None in
  ∃ batches,
    split items 3 = Some (Returned batches) ∧
    ∃ acts e, BatchProcess items 3 2 fn acts = BReturned e.
Proof.
  intros items fn.
  assert (Hpos : 0 < 3) by lia.
  assert (Hrange : Z.of_nat (length items) + 3 - 1 ≤ maxInt) by (by vm_compute).
  assert (Hmg : 0 < 2) by lia.
  destruct (BatchProcess_first_failing_batch items 3 2 fn Hpos Hrange Hmg)
    as (batches & Hsplit & _ & Hret & _).
  exists batches. split; [exact Hsplit|exact Hret].
Defined.

Lemma int_add_0_l b : minInt ≤ b ≤ maxInt → int_add 0 b = b.
Proof. intros Hb. unfold int_add. by rewrite Z.add_0_l, wrap64_small. Qed.

(** X19. The batch sizes that cut nothing.  A size of zero panics on the
    division, whatever the items; a negative size with an item to cut
    panics on the capacity of the batches or on the bounds of the first
    batch.  Both do so before the batch function or the runner is
    reached: the outcome depends on neither. *)
Theorem BatchProcess_batch_size_not_positive {T : Type}
  (items : list T) (batchSize : Z) :
  (batchSize = 0 →
   ∀ maxGoroutines (processBatch : list T → call error) acts,
     BatchProcess items batchSize maxGoroutines processBatch acts
     = BPanicked (Str "runtime error: integer divide by zero")) ∧
  (minInt ≤ batchSize < 0 → items ≠ [] →
   ∃ r, (r = Str "runtime error: makeslice: cap out of range" ∨
         r = Str "runtime error: slice bounds out of range") ∧
        ∀ maxGoroutines (processBatch : list T → call error) acts,
          BatchProcess items batchSize maxGoroutines processBatch acts
          = BPanicked r).
Proof.
  split.
  - intros -> mg f acts. unfold BatchProcess, split, batchCount. done.
  - intros Hneg Hne.
    assert (Hsplit : ∃ r,
      (r = Str "runtime error: makeslice: cap out of range" ∨
       r = Str "runtime error: slice bounds out of range") ∧
      split items batchSize = Some (Panicked r)).
    { unfold split, batchCount.
      destruct (batchSize =? 0) eqn:H0; [apply Z.eqb_eq in H0; lia|].
      unfold make_slice_cap. destruct (int_quo _ _ <? 0); [eauto|].
      destruct items as [|x rest]; [done|].
      cbn [split_loop length].
      destruct (0 <? Z.of_nat (S (length rest))) eqn:Hlt;
        [|apply Z.ltb_ge in Hlt; lia].
      rewrite int_add_0_l by (unfold maxInt in *; lia).
      destruct (batchSize >? Z.of_nat (S (length rest))) eqn:Hgt;
        [apply Z.gtb_lt in Hgt; lia|].
      unfold slice.
      destruct (0 <=? batchSize) eqn:Hle; [apply Z.leb_le in Hle; lia|].
      simpl. eauto. }
    destruct Hsplit as (r & Hr & Hsplit).
    exists r. split; [done|]. intros mg f acts.
    unfold BatchProcess. by rewrite Hsplit.
Qed.

(** A batch size of -1 on two items. *)
Lemma BatchProcess_batch_size_not_positive_witness :
  ∃ r, BatchProcess [1; 2] (-1) 1 (λ _, Returned None) [] = BPanicked r.
Proof.
  destruct (BatchProcess_batch_size_not_positive [1; 2] (-1)) as [_ Hneg].
  destruct Hneg as (r & _ & Hall); [by vm_compute|done|].
  exists r. apply Hall.
Defined.

Lemma batchCount_no_items {T} batchSize :
  batchSize ≠ 0 → minInt ≤ batchSize ≤ maxInt →
  ∃ n, batchCount (@nil T) batchSize = Returned n ∧ 0 ≤ n.
Proof.
  intros Hne Hrange. unfold batchCount.
  destruct (batchSize =? 0) eqn:H0; [apply Z.eqb_eq in H0; lia|].
  eexists. split; [reflexivity|]. simpl length.
  rewrite int_add_0_l by done.
  unfold int_sub, int_quo.
  destruct (decide (batchSize = minInt)) as [->|Hmin]; [by vm_compute|].
  rewrite (wrap64_small (batchSize - 1)) by (unfold minInt, maxInt in *; lia).
  destruct (decide (0 < batchSize)) as [Hpos|Hneg].
  - rewrite Z.quot_small by lia. by vm_compute.
  - rewrite <- (Z.quot_opp_opp (batchSize - 1) batchSize) by lia.
    rewrite Z.quot_div_nonneg by lia.
    assert (0 ≤ (- (batchSize - 1)) / (- batchSize)) by (apply Z.div_pos; lia).
    assert ((- (batchSize - 1)) / (- batchSize) ≤ 2)
      by (apply Z.div_le_upper_bound; lia).
    rewrite wrap64_small; [done|]. unfold minInt, maxInt in *. lia.
Qed.

(** X20. Without items, for a batch size other than zero and a bound that is not
    negative, the batch function is not called: no schedule makes the call
    panic, some schedule makes it return, and it returns nil. *)
Theorem BatchProcess_no_items {T : Type}
  (batchSize maxGoroutines : Z) (processBatch : list T → call error)
  (Hne : batchSize ≠ 0)
  (Hrange : minInt ≤ batchSize ≤ maxInt)
  (Hmg : 0 ≤ maxGoroutines) :
  split (@nil T) batchSize = Some (Returned []) ∧
  (∃ acts, BatchProcess [] batchSize maxGoroutines processBatch acts
           = BReturned None) ∧
  (∀ acts, BatchProcess [] batchSize maxGoroutines processBatch acts = BRunning ∨
           BatchProcess [] batchSize maxGoroutines processBatch acts
           = BReturned None).
Proof.
  assert (Hsplit : split (@nil T) batchSize = Some (Returned [])).
  { unfold split.
    destruct (batchCount_no_items (T := T) batchSize Hne Hrange) as (n & -> & Hn).
    unfold make_slice_cap.
    by destruct (n <? 0) eqn:Hlt; [apply Z.ltb_lt in Hlt; lia|]. }
  split; [done|].
  unfold BatchProcess. rewrite Hsplit. simpl map.
  unfold RunTasksConcurrently, Run, NewParallelizer.
  set (p := mk maxGoroutines 0).
  assert (Hcfg : 0 < MaxGoroutines p ∨ (MaxGoroutines p = 0 ∧ @nil Task = [])).
  { simpl. destruct (decide (0 < maxGoroutines)); [by left|right; split; [lia|done]]. }
  destruct (call_returns p Background [] Hcfg)
    as [Hall (rs & acts & s & Hrun & Hret & _)].
  assert (Hres : ∀ acts' s', RunWithContext p Background [] acts' = Some s' →
                             pc s' = MReturned → results s' = []).
  { intros acts' s' Hrun' Hret'.
    apply (Run_no_deadline p [] (results s')); simpl; [lia|lia|].
    by exists acts', s'. }
  split.
  - exists acts. rewrite Hrun.
    destruct (Hall acts s Hrun) as (_ & -> & _).
    rewrite decide_True by done. by rewrite (Hres acts s Hrun Hret).
  - intros acts'.
    destruct (RunWithContext p Background [] acts') as [s'|] eqn:Hrun'; [|by left].
    destruct (Hall acts' s' Hrun') as (_ & -> & _).
    destruct (decide (pc s' = MReturned)) as [Hret'|]; [|by left].
    right. by rewrite (Hres acts' s' Hrun' Hret').
Qed.

(** No items, batches of three, a bound of zero. *)
Lemma BatchProcess_no_items_witness :
  ∃ acts, BatchProcess (@nil Z) 3 0 (λ _, Panicked Nil) acts = BReturned None.
Proof.
  assert (Hne : 3 ≠ 0) by lia.
  assert (Hrange : minInt ≤ 3 ≤ maxInt) by (by vm_compute).
  assert (Hmg : 0 ≤ 0) by lia.
  exact (proj1 (proj2 (BatchProcess_no_items 3 0 (λ _, Panicked Nil)
                         Hne Hrange Hmg))).
Defined.

(** X21. In range with an item to process, the bounds that admit no batch: under
    a bound of zero the call never returns and never panics; under a
    negative bound it panics at the entry of the runner and never
    returns.  The batch function is called in neither case. *)
Theorem BatchProcess_bound_not_positive {T : Type}
  (items : list T) (batchSize maxGoroutines : Z)
  (processBatch : list T → call error)
  (Hpos : 0 < batchSize)
  (Hrange : Z.of_nat (length items) + batchSize - 1 ≤ maxInt)
  (Hitems : items ≠ []) :
  (maxGoroutines = 0 →
   ∀ acts, BatchProcess items batchSize maxGoroutines processBatch acts = BRunning) ∧
  (maxGoroutines < 0 →
   BatchProcess items batchSize maxGoroutines processBatch [AMain]
   = BPanicked (Str "makechan: size out of range") ∧
   ∀ acts e, BatchProcess items batchSize maxGoroutines processBatch acts
             ≠ BReturned e) ∧
  (maxGoroutines ≤ 0 →
   ∀ acts s batches,
     split items batchSize = Some (Returned batches) →
     RunTasksConcurrently maxGoroutines (map (batch_task processBatch) batches) acts
     = Some s →
     gos s = []).
Proof.
  destruct (split_in_range items batchSize Hpos Hrange)
    as (batches & Hsplit & Hcat & _).
  simpl in Hcat. rewrite drop_0 in Hcat.
  assert (Htasks : map (batch_task processBatch) batches ≠ []).
  { destruct batches; [|done]. simpl in Hcat. congruence. }
  unfold BatchProcess. rewrite Hsplit.
  unfold RunTasksConcurrently, Run, NewParallelizer.
  set (p := mk maxGoroutines 0).
  set (tasks := map (batch_task processBatch) batches) in *.
  split_and!.
  - intros Hz acts.
    destruct (RunWithContext p Background tasks acts) as [s|] eqn:Hrun; [|done].
    destruct (zero_bound_reach p Background tasks acts s Hz Htasks Hrun)
      as (-> & _ & Hpc).
    destruct (decide (pc s = MReturned)) as [Hret|]; [|done].
    destruct Hpc as [?|(_ & _ & [?|?])]; congruence.
  - intros Hlt. split.
    + by rewrite (negative_bound_entry p Background tasks Hlt).
    + intros acts e.
      destruct (RunWithContext p Background tasks acts) as [s|] eqn:Hrun; [|done].
      by destruct (negative_bound_reach p Background tasks acts s Hlt Hrun)
        as [[_ ->]|[_ ->]].
  - intros Hle acts s batches' [= <-] Hrun.
    destruct (decide (maxGoroutines = 0)) as [Hz|Hnz].
    + by destruct (zero_bound_reach p Background tasks acts s Hz Htasks Hrun)
        as (_ & ? & _).
    + assert (Hlt : MaxGoroutines p < 0) by (simpl; lia).
      by destruct (negative_bound_reach p Background tasks acts s Hlt Hrun)
        as [[_ ->]|[_ ->]].
Qed.

(** One item, batches of one, a bound of zero: after the caller's two
    steps the call is still running. *)
Lemma BatchProcess_bound_not_positive_witness :
  BatchProcess [7] 1 0 (λ _, Returned None) [AMain; AMain] = BRunning.
Proof.
  assert (Hpos : 0 < 1) by lia.
  assert (Hrange : Z.of_nat (length [7]) + 1 - 1 ≤ maxInt) by (by vm_compute).
  assert (Hitems : [7] ≠ []) by done.
  destruct (BatchProcess_bound_not_positive [7] 1 0 (λ _, Returned None)
              Hpos Hrange Hitems) as (Hz & _ & _).
  apply Hz. reflexivity.
Defined.

End BatchLaws.

Module ThreadPoolLaws.
Import ThreadPool ChanFacts CountFacts ThreadPoolFacts.

Lemma count_ge {A} (f : A → bool) (l : list A) k x :
  l !! k = Some x → ((if f x then 1 else 0) ≤ count f l)%nat.
Proof.
  revert k. induction l as [|z l IH]; intros [|k]; simpl; try done.
  - intros [= ->]. destruct (f x); lia.
  - intros Hk. specialize (IH k Hk). destruct (f z); lia.
Qed.

Lemma count_split {A} (f g h : A → bool) (l : list A) :
  (∀ x, f x = g x || h x) → (∀ x, g x && h x = false) →
  count f l = (count g l + count h l)%nat.
Proof.
  intros Hf Hgh. induction l as [|x l IH]; simpl; [done|].
  rewrite Hf. specialize (Hgh x). destruct (g x), (h x); simpl in *; try done; lia.
Qed.

Lemma count_all {A} (f : A → bool) (x : A) n :
  f x = true → count f (replicate n x) = n.
Proof. intros H. induction n as [|n IH]; simpl; [done|]. by rewrite H, IH. Qed.

Lemma stop_counts (l : list caller) :
  count stop_in_progress l
  = (count stop_before_close l + count stop_waiting l)%nat.
Proof. apply count_split; by intros [? []|[]]. Qed.

Lemma stop_counts_wake (l : list caller) :
  count stop_before_close (wake_on_done_caller <$> l) = count stop_before_close l ∧
  count stop_waiting (wake_on_done_caller <$> l) = count stop_waiting l ∧
  count stop_before_close (wake_on_close_caller <$> l) = count stop_before_close l ∧
  count stop_waiting (wake_on_close_caller <$> l) = count stop_waiting l.
Proof. split_and!; apply count_fmap_ext; by intros [? []|[]]. Qed.

Lemma panic_counts_wake (l : list caller) :
  count submit_panicked (wake_on_done_caller <$> l) = count submit_panicked l ∧
  count submit_panicked_otherwise (wake_on_done_caller <$> l)
  = count submit_panicked_otherwise l ∧
  count submit_panicked_otherwise (wake_on_close_caller <$> l)
  = count submit_panicked_otherwise l.
Proof.
  split_and!; apply count_fmap_ext; by intros [? []|[]].
Qed.

Lemma alive_wake (l : list worker_pc) :
  count alive (wake_on_done_worker <$> l) = count alive l.
Proof. apply count_fmap_ext. by intros []. Qed.

(** What the counts say about the caller at [j], and how they change when
    it moves from [c] to [c']. *)
Ltac caller_at Hj :=
  let H1 := fresh "Hge" in let H2 := fresh "Hge" in
  let H3 := fresh "Hge" in let H4 := fresh "Hge" in
  pose proof (count_ge stop_before_close _ _ _ Hj) as H1;
  pose proof (count_ge stop_waiting _ _ _ Hj) as H2;
  pose proof (count_ge stop_in_progress _ _ _ Hj) as H3;
  pose proof (count_ge stop_past_cancel _ _ _ Hj) as H4;
  cbn in H1, H2, H3, H4.

Ltac caller_to Hj c' :=
  let H1 := fresh "Hto" in let H2 := fresh "Hto" in
  let H3 := fresh "Hto" in let H4 := fresh "Hto" in
  pose proof (count_insert stop_before_close _ _ _ c' Hj) as H1;
  pose proof (count_insert stop_waiting _ _ _ c' Hj) as H2;
  pose proof (count_insert submit_panicked _ _ _ c' Hj) as H3;
  pose proof (count_insert submit_panicked_otherwise _ _ _ c' Hj) as H4;
  cbn in H1, H2, H3, H4;
  rewrite ?bool_decide_eq_true_2 in H4 by done; cbn in H4.

Ltac worker_to Hk w' :=
  let H1 := fresh "Hto" in
  pose proof (count_insert alive _ _ _ w' Hk) as H1; cbn in H1.

Ltac acc_fin :=
  split; simpl; intros; rewrite ?alive_wake;
  repeat match goal with
  | H : ?x = ?x → _ |- _ => specialize (H eq_refl)
  | H : true = false → _ |- _ => clear H
  | H : false = true → _ |- _ => clear H
  | H : _ ∧ _ |- _ => destruct H
  end;
  try done; try lia; try (split_and!; try done; lia).

Lemma Accounts_step s a s' :
  Inv s → Accounts s → step s a = Some s' → Accounts s'.
Proof.
  intros [Hmu Hst _ _ Hpc] [Hwg Hcl Hop Hha Hcr Hsend]. unfold step.
  destruct (crashed s) eqn:Hcrs; [done|]. clear Hcr.
  destruct s as [[cap buf closed] n d st m w wl cl sq rq cr]; simpl in *. subst cr.
  pose proof (stop_counts cl) as Hsum.
  destruct (panic_counts_wake cl) as (Hp1 & Hp2 & Hp3).
  destruct a as [task| |j pick|k pick].
  - intros [= <-]. split; simpl; rewrite ?count_app; simpl; rewrite ?Nat.add_0_r; done.
  - intros [= <-]. split; simpl; rewrite ?count_app; simpl; rewrite ?Nat.add_0_r; done.
  - destruct (cl !! j) as [[task pc|pc]|] eqn:Hj; [| |done].
    + unfold Submit; simpl. destruct pc; try done.
      * destruct m; [done|]. destruct st; intros [= <-].
        -- caller_to Hj (CSubmit task (SubReturned (Some PoolClosed))).
           destruct closed; acc_fin.
        -- caller_to Hj (CSubmit task SubIncr). destruct closed; acc_fin.
      * intros [= <-]. caller_to Hj (CSubmit task SubSelect).
        destruct closed, st, m; acc_fin.
      * destruct (send_ready _ && _).
        -- destruct closed.
           ++ intros [= <-].
              caller_to Hj (CSubmit task (SubPanicked (Str "send on closed channel"))).
              destruct st, m; acc_fin.
           ++ destruct (parked_receiver _) as [[k rest]|] eqn:Hpr; intros [= <-];
                caller_to Hj (CSubmit task (SubReturned None)).
              ** apply parked_receiver_Some in Hpr; simpl in Hpr.
                 worker_to Hpr (WRun task).
                 destruct st, m; acc_fin.
              ** destruct st, m; acc_fin.
        -- destruct d; intros [= <-].
           ++ caller_to Hj (CSubmit task SubWoken).
              destruct closed, st, m; acc_fin.
           ++ caller_to Hj (CSubmit task SubParked).
              destruct closed, st, m; acc_fin.
      * intros [= <-].
        caller_to Hj (CSubmit task (SubReturned (Some PoolClosed))).
        destruct closed, st, m; acc_fin.
    + caller_at Hj. unfold Stop; simpl. destruct pc; try done.
      * destruct m; [done|]. destruct st; intros [= <-].
        -- caller_to Hj (CStop StopReturned). destruct closed; acc_fin.
        -- caller_to Hj (CStop StopCancel). destruct closed; acc_fin.
      * intros [= <-]. simpl.
        destruct (stop_counts_wake cl) as (Hw1 & Hw2 & _ & _).
        assert (Hj' : (wake_on_done_caller <$> cl) !! j = Some (CStop StopCancel))
          by (by rewrite list_lookup_fmap, Hj).
        caller_to Hj' (CStop StopClose).
        destruct closed, st, m; acc_fin.
      * destruct closed; intros [= <-]; simpl.
        -- exfalso. destruct (Hcl eq_refl) as (_ & _ & ?). lia.
        -- destruct (stop_counts_wake cl) as (_ & _ & Hw1 & Hw2).
           assert (Hj' : (wake_on_close_caller <$> cl) !! j = Some (CStop StopClose))
             by (by rewrite list_lookup_fmap, Hj).
           caller_to Hj' (CStop StopWait).
           destruct st, m, d; acc_fin.
      * destruct w; [|done]. intros [= <-].
        caller_to Hj (CStop StopReturned).
        destruct closed, st, m; acc_fin.
  - destruct (wl !! k) as [pc|] eqn:Hk; [|done].
    pose proof (count_ge alive _ _ _ Hk) as Hal.
    unfold worker; simpl. destruct pc; try done.
    + destruct (recv_ready _ && _).
      * destruct buf as [|task rest];
          destruct (parked_sender _) as [[[j task'] q]|] eqn:Hps;
          intros [= <-]; simpl;
          try (apply parked_sender_Some in Hps as Hj; simpl in Hj;
               caller_to Hj (CSubmit task' (SubReturned None)));
          first [worker_to Hk (WRun task) | worker_to Hk (WRun task')
                | worker_to Hk WReturn];
          destruct closed, st, m; acc_fin.
      * destruct d; intros [= <-]; simpl.
        -- worker_to Hk WReturn. destruct closed, st, m; acc_fin.
        -- worker_to Hk WParked. destruct closed, st, m; acc_fin.
    + destruct task as [v e|r]; intros [= <-]; simpl.
      * worker_to Hk WDecr. destruct closed, st, m; acc_fin.
      * split; simpl; try done. intros r' [= <-]. eauto.
    + intros [= <-]; simpl. worker_to Hk WSelect.
      destruct closed, st, m; acc_fin.
    + simpl in Hal. destruct w; intros [= <-]; simpl.
      * exfalso. lia.
      * worker_to Hk WExited. destruct closed, st, m; acc_fin.
Qed.

Lemma NewThreadPool_Accounts workers queueSize s0 :
  NewThreadPool workers queueSize = Returned s0 → Accounts s0.
Proof.
  unfold NewThreadPool, make_chan.
  destruct (queueSize <? 0); [done|]. intros [= <-].
  split; simpl; try done. by rewrite count_all.
Qed.

Lemma run_Accounts acts : ∀ s s',
  Inv s → Accounts s → run s acts = Some s' → Accounts s'.
Proof.
  induction acts as [|a rest IH]; intros s s' HI HA; simpl.
  - by intros [= <-].
  - destruct (step s a) as [s1|] eqn:Hs; [|done].
    apply IH; [by eapply pool_Inv_step|by eapply Accounts_step].
Qed.

Lemma reach_Accounts workers queueSize s0 acts s :
  NewThreadPool workers queueSize = Returned s0 → run s0 acts = Some s →
  Inv s ∧ Accounts s.
Proof.
  intros Hnew Hrun. split; [by eapply pool_reach_Inv|].
  pose proof (NewThreadPool_Accounts _ _ _ Hnew) as HA.
  apply NewThreadPool_Inv in Hnew as [HI _].
  by eapply run_Accounts.
Qed.

Lemma pool_run_app l1 : ∀ l2 s s1 s2,
  run s l1 = Some s1 → run s1 l2 = Some s2 → run s (l1 ++ l2) = Some s2.
Proof.
  induction l1 as [|a l1 IH]; intros l2 s s1 s2; simpl.
  - by intros [= <-].
  - destruct (step s a) as [s'|]; [|done]. apply IH.
Qed.

Lemma panicked_Submit s j task r :
  Accounts s → callers s !! j = Some (CSubmit task (SubPanicked r)) →
  r = Str "send on closed channel" ∧ ch_closed (tasks s) = true ∧
  stopped s = true ∧ ctx_done s = true.
Proof.
  intros HA Hj.
  pose proof (count_ge submit_panicked _ _ _ Hj) as Hge.
  pose proof (count_ge submit_panicked_otherwise _ _ _ Hj) as Hgo.
  rewrite (acc_send _ HA) in Hgo. simpl in Hge, Hgo.
  assert (Hr : r = Str "send on closed channel").
  { destruct (decide (r = Str "send on closed channel")) as [Hr|Hr]; [done|].
    rewrite bool_decide_eq_false_2 in Hgo by done. simpl in Hgo. lia. }
  assert (Hcl : ch_closed (tasks s) = true).
  { destruct (ch_closed (tasks s)) eqn:Hcl; [done|].
    destruct (acc_open _ HA Hcl) as [_ Hz]. lia. }
  destruct (acc_closed _ HA Hcl) as (Hst & Hd & _). done.
Qed.

(** A step raises a panic only in two ways: a worker calls a task that
    panics, or a call of [Submit] takes the send of its select on the
    closed channel. *)
Lemma panic_sources s a s' r :
  Inv s → Accounts s → step s a = Some s' → panicked s' r →
  panicked s r ∨
  (∃ k pick, a = AWorker k pick ∧ ws s !! k = Some (WRun (Panics r))) ∨
  (∃ j task, a = ACaller j true ∧
             callers s !! j = Some (CSubmit task SubSelect) ∧
             ch_closed (tasks s) = true ∧ r = Str "send on closed channel").
Proof.
  intros HI HA Hs Hp.
  pose proof (Accounts_step s a s' HI HA Hs) as HA'.
  destruct Hp as [Hcr|(j & task & Hj)].
  - (* filed under [crashed] *)
    destruct (acc_crashed _ HA' r Hcr) as [k' Hk'].
    unfold step in Hs. destruct (crashed s) eqn:Hcrs; [done|].
    destruct a as [t| |i pick|k pick].
    + injection Hs as <-. simpl in Hcr. congruence.
    + injection Hs as <-. simpl in Hcr. congruence.
    + exfalso. destruct (callers s !! i) as [[t pc|pc]|] eqn:Hi; [| |done].
      * unfold Submit in Hs.
        repeat (case_match; simplify_eq/=); congruence.
      * pose proof (count_ge stop_before_close _ _ _ Hi) as Hge.
        unfold Stop in Hs.
        repeat (case_match; simplify_eq/=); try congruence.
        destruct (acc_closed _ HA) as (_ & _ & Hz); [done|]. simpl in Hge. lia.
    + right. left. exists k, pick. split; [done|].
      destruct (ws s !! k) as [pc|] eqn:Hk; [|done].
      pose proof (count_ge alive _ _ _ Hk) as Hge.
      pose proof (acc_wg _ HA) as Hwg.
      unfold worker in Hs.
      repeat (case_match; simplify_eq/=); try congruence.
      exfalso. lia.
  - (* filed under the caller of [Submit] *)
    destruct (panicked_Submit s' j task r HA' Hj) as (-> & _).
    destruct (callers s !! j) as [c|] eqn:Hc.
    + destruct (decide (c = CSubmit task (SubPanicked (Str "send on closed channel"))))
        as [->|Hne]; [left; right; eauto|].
      right. right. exists j, task.
      unfold step in Hs. destruct (crashed s) eqn:Hcrs; [done|].
      assert (Hlt : (j < length (callers s))%nat) by (by eapply lookup_lt_Some).
      destruct a as [t| |i pick|k pick].
      * injection Hs as <-. simpl in Hj. rewrite lookup_app_l in Hj by done.
        congruence.
      * injection Hs as <-. simpl in Hj. rewrite lookup_app_l in Hj by done.
        congruence.
      * destruct (decide (i = j)) as [->|Hij].
        -- rewrite Hc in Hs. destruct c as [t pc|pc].
           ++ unfold Submit, send_ready in Hs.
              destruct pc; try done;
                repeat case_match; simplify_eq/=;
                rewrite ?list_lookup_insert_eq in Hj by done;
                simplify_eq/=.
              destruct (acc_closed _ HA) as (_ & Hd & _); [done|].
              destruct pick; [done|].
              match goal with H : negb _ || _ = true |- _ =>
                rewrite Hd in H; discriminate H end.
           ++ exfalso.
              pose proof (count_ge stop_in_progress _ _ _ Hc) as Hge.
              pose proof (panic_counts_wake (callers s)) as (Hp1 & Hp2 & Hp3).
              unfold Stop in Hs.
              destruct pc; try done;
                repeat case_match; simplify_eq/=;
                rewrite ?list_lookup_insert_eq in Hj
                  by (rewrite ?length_fmap; done);
                simplify_eq/=.
        -- exfalso. apply Hne.
           pose proof (inv_done _ HI) as Hdn.
           pose proof (inv_past _ HI) as Hpast.
           assert (Hpark : c ≠ CSubmit task SubParked ∨ ctx_done s = false).
           { destruct (ctx_done s) eqn:Hd; [left|by right].
             intros ->. specialize (Hdn eq_refl).
             pose proof (count_ge submit_parked _ _ _ Hc) as Hge.
             simpl in Hge. lia. }
           destruct (callers s !! i) as [[t pc|pc]|] eqn:Hi; [| |done].
           ++ unfold Submit in Hs.
              repeat case_match; simplify_eq/=;
                rewrite ?list_lookup_insert_ne in Hj by done; congruence.
           ++ pose proof (count_ge stop_past_cancel _ _ _ Hi) as Hge.
              unfold Stop in Hs.
              repeat case_match; simplify_eq/=;
                rewrite ?list_lookup_insert_ne in Hj by done;
                rewrite ?list_lookup_fmap, ?Hc in Hj; simpl in Hj;
                try congruence;
                destruct c as [t' []|[]]; simpl in Hj; try congruence;
                (destruct Hpark as [Hp|Hd];
                 [congruence|specialize (Hpast Hd); simpl in Hge; lia]).
      * exfalso. apply Hne.
        destruct (ws s !! k) as [pc|] eqn:Hk; [|done].
        unfold worker in Hs.
        destruct (parked_sender s) as [[[j' task'] q]|] eqn:Hps.
        -- apply parked_sender_Some in Hps as Hj'.
           destruct (decide (j' = j)) as [->|Hjj].
           ++ repeat case_match; simplify_eq/=;
                rewrite ?list_lookup_insert_ne in Hj by done;
                rewrite ?list_lookup_insert_eq in Hj by done; congruence.
           ++ repeat case_match; simplify_eq/=;
                rewrite ?list_lookup_insert_ne in Hj by done; congruence.
        -- repeat case_match; simplify_eq/=; congruence.
    + (* the caller is new *)
      exfalso. unfold step in Hs. destruct (crashed s) eqn:Hcrs; [done|].
      assert (Hlen : length (callers s') = length (callers s) →
                     False).
      { intros Hl. apply lookup_ge_None in Hc.
        apply lookup_lt_Some in Hj. lia. }
      destruct a as [t| |i pick|k pick].
      * injection Hs as <-. simpl in Hj.
        apply lookup_ge_None in Hc.
        rewrite lookup_app_r in Hj by done.
        destruct (j - length (callers s))%nat; simpl in Hj; [done|].
        by rewrite lookup_nil in Hj.
      * injection Hs as <-. simpl in Hj.
        apply lookup_ge_None in Hc.
        rewrite lookup_app_r in Hj by done.
        destruct (j - length (callers s))%nat; simpl in Hj; [done|].
        by rewrite lookup_nil in Hj.
      * apply Hlen. unfold Submit, Stop in Hs.
        repeat case_match; simplify_eq/=;
          rewrite ?length_insert, ?length_fmap, ?length_insert; done.
      * apply Hlen. unfold worker in Hs.
        repeat case_match; simplify_eq/=;
          rewrite ?length_insert, ?length_fmap, ?length_insert; done.
Qed.

(** X22. In every state of a pool the [WaitGroup] counter is the number of
    the workers that have not left, and at most one call of [Stop] holds
    the mutex.  The panics that the pool can raise, none of which the
    package recovers, are two: that of a task in the hands of a worker,
    with the value of the task, and that of a call of [Submit] that sends
    on the channel after [Stop] has closed it.  There is no other: the
    channel is never closed twice, and the [WaitGroup] counter never goes
    below zero. *)
Theorem panics_of_a_pool
  (workers queueSize : Z) (s0 s : state) (acts : list action)
  (Hnew : NewThreadPool workers queueSize = Returned s0)
  (Hrun : run s0 acts = Some s) :
  wg s = count alive (ws s) ∧
  (count stop_in_progress (callers s) ≤ 1)%nat ∧
  (∀ r, crashed s = Some r → ∃ k, ws s !! k = Some (WRun (Panics r))) ∧
  (∀ j task r, callers s !! j = Some (CSubmit task (SubPanicked r)) →
               r = Str "send on closed channel" ∧
               ch_closed (tasks s) = true ∧ stopped s = true) ∧
  (∀ a s' r, step s a = Some s' → panicked s' r →
     panicked s r ∨
     (∃ k pick, a = AWorker k pick ∧ ws s !! k = Some (WRun (Panics r))) ∨
     (∃ j task, a = ACaller j true ∧
                callers s !! j = Some (CSubmit task SubSelect) ∧
                ch_closed (tasks s) = true ∧ r = Str "send on closed channel")).
Proof.
  destruct (reach_Accounts _ _ _ _ _ Hnew Hrun) as [HI HA].
  split_and!.
  - apply HA.
  - rewrite (inv_mu _ HI). destruct (mu s); lia.
  - apply HA.
  - intros j task r Hj.
    by destruct (panicked_Submit s j task r HA Hj) as (? & ? & ? & _).
  - intros a s' r. by apply panic_sources.
Qed.

(** A pool of one worker in whose hands a task panics with boom. *)
Lemma panics_of_a_pool_witness :
  let acts := [ACallSubmit (Panics (Str "boom"));
               ACaller 0 true; ACaller 0 true; ACaller 0 true;
               AWorker 0 true; AWorker 0 true] in
  ∃ s0 s,
    NewThreadPool 1 1 = Returned s0 ∧ run s0 acts = Some s ∧
    crashed s = Some (Str "boom") ∧
    ∃ k, ws s !! k = Some (WRun (Panics (Str "boom"))).
Proof.
  intros acts.
  destruct (NewThreadPool 1 1) as [s0|] eqn:Hnew;
    [|vm_compute in Hnew; discriminate].
  destruct (run s0 acts) as [s|] eqn:Hrun;
    [|vm_compute in Hnew; injection Hnew as <-; vm_compute in Hrun; discriminate].
  exists s0, s. split; [done|]. split; [done|].
  destruct (panics_of_a_pool 1 1 s0 s acts Hnew Hrun)
    as (_ & _ & Hcr & _).
  assert (Hboom : crashed s = Some (Str "boom")).
  { vm_compute in Hnew. injection Hnew as <-.
    vm_compute in Hrun. by injection Hrun as <-. }
  split; [exact Hboom|exact (Hcr _ Hboom)].
Defined.

Lemma halted_of_returned s i :
  Inv s → Accounts s → callers s !! i = Some (CStop StopReturned) →
  halted s ∧ crashed s = None.
Proof.
  intros HI HA Hi.
  destruct (Stop_returned s i HI Hi) as [Hst Hmu].
  destruct (acc_halted _ HA Hst Hmu) as [Hcl Hwg].
  destruct (acc_closed _ HA Hcl) as (_ & Hd & _).
  assert (Hex : ∀ k w, ws s !! k = Some w → w = WExited).
  { intros k w Hk. pose proof (count_ge alive _ _ _ Hk) as Hge.
    rewrite <- (acc_wg _ HA), Hwg in Hge. destruct w; simpl in Hge; try lia. done. }
  split; [by split_and!|].
  destruct (crashed s) as [r|] eqn:Hcr; [|done].
  destruct (acc_crashed _ HA r Hcr) as [k Hk]. by specialize (Hex k _ Hk).
Qed.

Lemma halted_step s a s' :
  Inv s → halted s → step s a = Some s' →
  halted s' ∧ crashed s' = None ∧ tasks s' = tasks s ∧ ws s' = ws s.
Proof.
  intros HI (Hst & Hmu & Hd & Hcl & Hwg & Hex). unfold step.
  destruct (crashed s) eqn:Hcr; [done|].
  destruct a as [task| |j pick|k pick].
  - intros [= <-]. by split_and!.
  - intros [= <-]. by split_and!.
  - destruct (callers s !! j) as [[task pc|pc]|] eqn:Hj; [| |done].
    + unfold Submit, send_ready. rewrite Hmu, Hst, Hcl, Hd. simpl.
      destruct pc; try done.
      * intros [= <-]. by split_and!.
      * intros [= <-]. by split_and!.
      * destruct pick; intros [= <-]; by split_and!.
      * intros [= <-]. by split_and!.
    + pose proof (count_ge stop_in_progress _ _ _ Hj) as Hge.
      rewrite (inv_mu _ HI), Hmu in Hge.
      unfold Stop. rewrite Hmu, Hst. destruct pc; simpl in Hge; try lia; try done.
      intros [= <-]. by split_and!.
  - destruct (ws s !! k) as [pc|] eqn:Hk; [|done].
    rewrite (Hex k pc Hk). done.
Qed.

Lemma halted_run acts : ∀ s s',
  Inv s → halted s → crashed s = None → run s acts = Some s' →
  halted s' ∧ crashed s' = None ∧ tasks s' = tasks s ∧ ws s' = ws s.
Proof.
  induction acts as [|a rest IH]; intros s s' HI Hh Hcr; simpl.
  - intros [= <-]. by split_and!.
  - destruct (step s a) as [s1|] eqn:Hs; [|done]. intros Hrun.
    destruct (halted_step s a s1 HI Hh Hs) as (Hh1 & Hcr1 & Ht1 & Hw1).
    destruct (IH s1 s' (pool_Inv_step _ _ _ HI Hs) Hh1 Hcr1 Hrun)
      as (Hh' & Hcr' & Ht' & Hw').
    split_and!; congruence.
Qed.

(** In a pool that has halted no call of [Submit] gets past the test of
    [stopped] any more: a call that is past it was past it before. *)
Lemma halted_in_flight_step s a s' j c' :
  Inv s → halted s → step s a = Some s' →
  callers s' !! j = Some c' → in_flight c' = true →
  ∃ c, callers s !! j = Some c ∧ in_flight c = true.
Proof.
  intros HI (Hst & Hmu & Hd & Hcl & Hwg & Hex). unfold step.
  destruct (crashed s) eqn:Hcr; [done|].
  assert (Hnew : ∀ c0, in_flight c0 = false →
            (callers s ++ [c0]) !! j = Some c' → in_flight c' = true →
            ∃ c, callers s !! j = Some c ∧ in_flight c = true).
  { intros c0 Hc0 Hj Hf. apply lookup_app_Some in Hj as [Hj|[_ Hj]]; [eauto|].
    apply list_lookup_singleton_Some in Hj as [_ <-]. congruence. }
  assert (Hmove : ∀ i c0 c1, callers s !! i = Some c0 →
            (in_flight c1 = true → in_flight c0 = true) →
            <[i := c1]> (callers s) !! j = Some c' → in_flight c' = true →
            ∃ c, callers s !! j = Some c ∧ in_flight c = true).
  { intros i c0 c1 Hi Himp Hj Hf. destruct (decide (i = j)) as [->|Hne].
    - rewrite list_lookup_insert_eq in Hj by (by eapply lookup_lt_Some).
      injection Hj as <-. eauto.
    - rewrite list_lookup_insert_ne in Hj by done. eauto. }
  destruct a as [task| |i pick|k pick].
  - intros [= <-]. by apply Hnew.
  - intros [= <-]. by apply Hnew.
  - destruct (callers s !! i) as [[task pc|pc]|] eqn:Hi; [| |done].
    + unfold Submit, send_ready. rewrite Hmu, Hst, Hcl, Hd. simpl.
      destruct pc; try done.
      * intros [= <-]. by apply (Hmove i _ _ Hi).
      * intros [= <-]. by apply (Hmove i _ _ Hi).
      * destruct pick; intros [= <-]; by apply (Hmove i _ _ Hi).
      * intros [= <-]. by apply (Hmove i _ _ Hi).
    + pose proof (count_ge stop_in_progress _ _ _ Hi) as Hge.
      rewrite (inv_mu _ HI), Hmu in Hge.
      unfold Stop. rewrite Hmu, Hst. destruct pc; simpl in Hge; try lia; try done.
      intros [= <-]. by apply (Hmove i _ _ Hi).
  - destruct (ws s !! k) as [pc|] eqn:Hk; [|done].
    rewrite (Hex k pc Hk). done.
Qed.

Lemma halted_in_flight_run acts : ∀ s s' j c',
  Inv s → halted s → crashed s = None → run s acts = Some s' →
  callers s' !! j = Some c' → in_flight c' = true →
  ∃ c, callers s !! j = Some c ∧ in_flight c = true.
Proof.
  induction acts as [|a rest IH]; intros s s' j c' HI Hh Hcr; simpl.
  - intros [= <-]. eauto.
  - destruct (step s a) as [s1|] eqn:Hs; [|done]. intros Hrun Hj Hf.
    destruct (halted_step s a s1 HI Hh Hs) as (Hh1 & Hcr1 & _).
    destruct (IH s1 s' j c' (pool_Inv_step _ _ _ HI Hs) Hh1 Hcr1 Hrun Hj Hf)
      as (c1 & Hj1 & Hf1).
    by eapply halted_in_flight_step.
Qed.

Lemma Wait_pending s :
  counted s → Z.of_nat (pending s) ≤ maxInt →
  Wait s = true ↔ pending s = 0%nat.
Proof.
  unfold counted, Wait, SafeCounter.Get. intros -> Hsmall.
  rewrite wrap64_small by (unfold minInt, maxInt in *; lia).
  destruct (Z.of_nat (pending s) >? 0) eqn:Hgt; simpl.
  - apply Z.gtb_lt in Hgt. split; [done|lia].
  - pose proof (Zgt_cases (Z.of_nat (pending s)) 0) as Hc. rewrite Hgt in Hc.
    split; [lia|done].
Qed.

(** The [cancelFunc()] of [Stop] wakes every call of [Submit] that is
    parked on the send, and once a call of [Stop] has returned no call of
    [Submit] is parked. *)
Lemma Stop_wakes_parked_Submit s i pick :
  crashed s = None → callers s !! i = Some (CStop StopCancel) →
  ∃ s', step s (ACaller i pick) = Some s' ∧ ctx_done s' = true ∧
        ∀ j task, callers s !! j = Some (CSubmit task SubParked) →
                  callers s' !! j = Some (CSubmit task SubWoken).
Proof.
  intros Hcr Hi. unfold step. rewrite Hcr, Hi. simpl.
  eexists. split; [done|]. split; [done|]. simpl.
  intros j task Hj.
  assert (i ≠ j) by (intros ->; congruence).
  rewrite list_lookup_insert_ne by done.
  by rewrite list_lookup_fmap, Hj.
Qed.

Lemma no_Submit_parked_after_Stop workers queueSize s0 acts s i j task :
  NewThreadPool workers queueSize = Returned s0 → run s0 acts = Some s →
  callers s !! i = Some (CStop StopReturned) →
  callers s !! j ≠ Some (CSubmit task SubParked).
Proof.
  intros Hnew Hrun Hi Hj.
  destruct (reach_Accounts _ _ _ _ _ Hnew Hrun) as [HI HA].
  destruct (halted_of_returned s i HI HA Hi) as [(_ & _ & Hd & _) _].
  pose proof (inv_done _ HI Hd) as Hz.
  pose proof (count_ge submit_parked _ _ _ Hj) as Hge. simpl in Hge. lia.
Qed.

(** X23. Once a call of [Stop] has returned, the context is cancelled, the
    channel is closed and every worker has left; and from then on,
    whatever is called, the queue and the workers stay as they are: the
    tasks that were left in the queue are never run, and a call of [Wait]
    does not return while the queue holds such a task.  No worker is left
    to panic and the channel is not closed again; the one panic that can
    still be raised is that of a call of [Submit] that was past the test
    of [stopped] when [Stop] returned and sends on the closed channel.  A
    call of [Submit] that is made later, or had not passed the test,
    does not panic. *)
Theorem after_Stop_has_returned
  (workers queueSize : Z) (s0 s : state) (acts : list action) (i : nat)
  (Hnew : NewThreadPool workers queueSize = Returned s0)
  (Hrun : run s0 acts = Some s)
  (Hi : callers s !! i = Some (CStop StopReturned)) :
  ctx_done s = true ∧ ch_closed (tasks s) = true ∧ crashed s = None ∧
  (∀ k w, ws s !! k = Some w → w = WExited) ∧
  ∀ acts' s', run s acts' = Some s' →
    tasks s' = tasks s ∧ ws s' = ws s ∧ crashed s' = None ∧
    (ch_buf (tasks s) ≠ [] → Z.of_nat (pending s') ≤ maxInt → Wait s' = false) ∧
    (∀ r, panicked s' r →
          r = Str "send on closed channel" ∧
          ∃ j task c, callers s' !! j = Some (CSubmit task (SubPanicked r)) ∧
                      callers s !! j = Some c ∧ in_flight c = true).
Proof.
  destruct (reach_Accounts _ _ _ _ _ Hnew Hrun) as [HI HA].
  destruct (halted_of_returned s i HI HA Hi) as [Hh Hcr].
  pose proof Hh as (_ & _ & Hd & Hcl & _ & Hex).
  split_and!; try done.
  intros acts' s' Hrun'.
  destruct (halted_run acts' s s' HI Hh Hcr Hrun') as (_ & Hcr' & Ht & Hw).
  destruct (reach_Accounts _ _ _ _ _ Hnew (pool_run_app _ _ _ _ _ Hrun Hrun'))
    as [HI' HA'].
  split_and!; try done.
  - intros Hbuf Hsmall.
    assert (Hc : counted s').
    { eapply run_counted; [|exact (pool_run_app _ _ _ _ _ Hrun Hrun')].
      by eapply NewThreadPool_counted. }
    destruct (Wait s') eqn:HW; [|done].
    apply (Wait_pending s' Hc Hsmall) in HW.
    unfold pending in HW. rewrite Ht in HW.
    destruct (ch_buf (tasks s)); [done|]. simpl in HW. lia.
  - intros r [Hcrash|(j & task & Hj)]; [congruence|].
    destruct (panicked_Submit s' j task r HA' Hj) as (Hr & _).
    split; [done|].
    destruct (halted_in_flight_run acts' s s' j _ HI Hh Hcr Hrun' Hj eq_refl)
      as (c & Hc & Hf).
    by exists j, task, c.
Qed.

(** A pool without workers: a call of [Submit] passes the test of
    [stopped], [Stop] runs to its end, and the call goes on to its select,
    where it panics. *)
Lemma after_Stop_has_returned_witness :
  let ok := Returns Nil None in
  let acts := [ACallSubmit ok; ACaller 0 true;
               ACallStop; ACaller 1 true; ACaller 1 true; ACaller 1 true;
               ACaller 1 true] in
  let acts' := [ACaller 0 true; ACaller 0 true] in
  ∃ s0 s s',
    NewThreadPool 0 1 = Returned s0 ∧ run s0 acts = Some s ∧
    run s acts' = Some s' ∧
    callers s !! 1%nat = Some (CStop StopReturned) ∧
    callers s !! 0%nat = Some (CSubmit ok SubIncr) ∧
    callers s' !! 0%nat
      = Some (CSubmit ok (SubPanicked (Str "send on closed channel"))) ∧
    tasks s' = tasks s.
Proof.
  intros ok acts acts'.
  destruct (NewThreadPool 0 1) as [s0|] eqn:Hnew;
    [|vm_compute in Hnew; discriminate].
  destruct (run s0 acts) as [s|] eqn:Hrun;
    [|vm_compute in Hnew; injection Hnew as <-; vm_compute in Hrun; discriminate].
  destruct (run s acts') as [s'|] eqn:Hrun';
    [|vm_compute in Hnew; injection Hnew as <-;
      vm_compute in Hrun; injection Hrun as <-;
      vm_compute in Hrun'; discriminate].
  exists s0, s, s'. split; [done|]. split; [done|]. split; [done|].
  assert (Hs : callers s !! 1%nat = Some (CStop StopReturned) ∧
               callers s !! 0%nat = Some (CSubmit ok SubIncr)).
  { vm_compute in Hnew. injection Hnew as <-.
    vm_compute in Hrun. by injection Hrun as <-. }
  destruct Hs as [Hi H0].
  destruct (after_Stop_has_returned 0 1 s0 s acts 1 Hnew Hrun Hi)
    as (_ & _ & _ & _ & Hlater).
  destruct (Hlater acts' s' Hrun') as (Ht & _).
  split; [exact Hi|]. split; [exact H0|]. split; [|exact Ht].
  vm_compute in Hnew. injection Hnew as <-.
  vm_compute in Hrun. injection Hrun as <-.
  vm_compute in Hrun'. by injection Hrun' as <-.
Defined.

(** A caller of [Submit] that panicked stays as it is. *)
Lemma panicked_stays s j task r a s' :
  callers s !! j = Some (CSubmit task (SubPanicked r)) →
  step s a = Some s' →
  callers s' !! j = Some (CSubmit task (SubPanicked r)).
Proof.
  intros Hj. unfold step. destruct (crashed s); [done|].
  assert (Hlt : (j < length (callers s))%nat) by (by eapply lookup_lt_Some).
  destruct a as [t| |i pick|k pick].
  - intros [= <-]. simpl. by rewrite lookup_app_l.
  - intros [= <-]. simpl. by rewrite lookup_app_l.
  - destruct (decide (i = j)) as [->|Hne]; [by rewrite Hj|].
    assert (∀ c, <[i := c]> (callers s) !! j = Some (CSubmit task (SubPanicked r)))
      by (intros c; by rewrite list_lookup_insert_ne).
    assert (∀ c, <[i := c]> (wake_on_done_caller <$> callers s) !! j
                 = Some (CSubmit task (SubPanicked r)))
      by (intros c; rewrite list_lookup_insert_ne by done;
          by rewrite list_lookup_fmap, Hj).
    assert (∀ c, <[i := c]> (wake_on_close_caller <$> callers s) !! j
                 = Some (CSubmit task (SubPanicked r)))
      by (intros c; rewrite list_lookup_insert_ne by done;
          by rewrite list_lookup_fmap, Hj).
    unfold Submit, Stop. intros Hs.
    repeat (case_match; simplify_eq/=); auto.
  - destruct (ws s !! k) as [pc|] eqn:Hk; [|done].
    unfold worker. intros Hs.
    destruct (parked_sender s) as [[[j' task'] q]|] eqn:Hps.
    + apply parked_sender_Some in Hps as Hj'.
      assert (j' ≠ j) by (intros ->; congruence).
      repeat (case_match; simplify_eq/=); auto;
        by rewrite list_lookup_insert_ne.
    + repeat (case_match; simplify_eq/=); auto.
Qed.

(** X24. A round of [Wait] ends the wait exactly when no task is pending: none
    with a caller of [Submit] that has counted it, none in the queue, none
    with a worker.  A caller of [Submit] that panicked on the closed
    channel has left its unit on the counter, so that [Wait] does not
    return any more. *)
Theorem Wait_returns_when_nothing_is_pending
  (workers queueSize : Z) (s0 s : state) (acts : list action)
  (Hnew : NewThreadPool workers queueSize = Returned s0)
  (Hrun : run s0 acts = Some s)
  (Hsmall : Z.of_nat (pending s) ≤ maxInt) :
  (Wait s = true ↔
   count submit_pending (callers s) = 0%nat ∧ ch_buf (tasks s) = [] ∧
   count worker_busy (ws s) = 0%nat) ∧
  (∀ j task r, callers s !! j = Some (CSubmit task (SubPanicked r)) →
               Wait s = false ∧
               ∀ acts' s', run s acts' = Some s' →
                           callers s' !! j = Some (CSubmit task (SubPanicked r))).
Proof.
  assert (Hc : counted s).
  { eapply run_counted; [|exact Hrun]. by eapply NewThreadPool_counted. }
  pose proof (Wait_pending s Hc Hsmall) as HW.
  split.
  - rewrite HW. unfold pending. split.
    + intros H0. split_and!; try lia.
      destruct (ch_buf (tasks s)); [done|]. simpl in H0. lia.
    + intros (-> & -> & ->). done.
  - intros j task r Hj. split.
    + destruct (Wait s) eqn:HWs; [|done]. exfalso.
      apply proj1 in HW. specialize (HW eq_refl).
      pose proof (count_ge submit_pending _ _ _ Hj) as Hge. simpl in Hge.
      unfold pending in HW. lia.
    + clear -Hj. intros acts'. revert s Hj.
      induction acts' as [|a rest IH]; intros s Hj s'; simpl.
      * by intros [= <-].
      * destruct (step s a) as [s1|] eqn:Hs; [|done]. apply IH.
        by eapply panicked_stays.
Qed.

(** The call of [Submit] that panics: it passed the test of [stopped]
    before [Stop] ran to its end. *)
Lemma Wait_returns_when_nothing_is_pending_witness :
  let ok := Returns Nil None in
  let acts := [ACallSubmit ok; ACaller 0 true;
               ACallStop; ACaller 1 true; ACaller 1 true; ACaller 1 true;
               ACaller 1 true;
               ACaller 0 true; ACaller 0 true] in
  ∃ s0 s,
    NewThreadPool 0 1 = Returned s0 ∧ run s0 acts = Some s ∧
    callers s !! 0%nat
      = Some (CSubmit ok (SubPanicked (Str "send on closed channel"))) ∧
    Wait s = false.
Proof.
  intros ok acts.
  destruct (NewThreadPool 0 1) as [s0|] eqn:Hnew;
    [|vm_compute in Hnew; discriminate].
  destruct (run s0 acts) as [s|] eqn:Hrun;
    [|vm_compute in Hnew; injection Hnew as <-; vm_compute in Hrun; discriminate].
  exists s0, s. split; [done|]. split; [done|].
  assert (Hs : callers s !! 0%nat
               = Some (CSubmit ok (SubPanicked (Str "send on closed channel")))
               ∧ Z.of_nat (pending s) ≤ maxInt).
  { vm_compute in Hnew. injection Hnew as <-.
    vm_compute in Hrun. injection Hrun as <-. split; [done|by vm_compute]. }
  destruct Hs as [Hj Hsmall].
  destruct (Wait_returns_when_nothing_is_pending 0 1 s0 s acts Hnew Hrun Hsmall)
    as [_ Hp].
  split; [exact Hj|]. exact (proj1 (Hp _ _ _ Hj)).
Defined.

Lemma workers_fixed_step s a s' :
  step s a = Some s' → length (ws s') = length (ws s).
Proof.
  unfold step, Submit, Stop, worker. intros Hs.
  repeat (case_match; simplify_eq/=);
    rewrite ?length_insert, ?length_fmap, ?length_insert; done.
Qed.

Lemma workers_fixed_run acts : ∀ s s',
  run s acts = Some s' → length (ws s') = length (ws s).
Proof.
  induction acts as [|a rest IH]; intros s s'; simpl.
  - by intros [= <-].
  - destruct (step s a) as [s1|] eqn:Hs; [|done]. intros Hrun.
    rewrite (IH _ _ Hrun). by eapply workers_fixed_step.
Qed.

(** X25. A pool that was created with no worker, or with a negative number
    of them, has none for good: no task is ever taken from the queue, which
    only grows, so that no task is run and none can panic, and [Stop] has
    nobody to wait for.  The one panic that such a pool can raise is that
    of a call of [Submit] that sends on the channel after [Stop] has
    closed it. *)
Theorem pool_without_workers
  (workers queueSize : Z) (s0 s : state) (acts : list action)
  (Hnew : NewThreadPool workers queueSize = Returned s0)
  (Hnone : workers ≤ 0)
  (Hrun : run s0 acts = Some s) :
  ws s = [] ∧ wg s = 0%nat ∧
  (∀ r, panicked s r →
        r = Str "send on closed channel" ∧ ch_closed (tasks s) = true ∧
        stopped s = true ∧
        ∃ j task, callers s !! j = Some (CSubmit task (SubPanicked r))) ∧
  ∀ a s', step s a = Some s' → ch_buf (tasks s) `prefix_of` ch_buf (tasks s').
Proof.
  destruct (reach_Accounts _ _ _ _ _ Hnew Hrun) as [HI HA].
  assert (Hws : ws s = []).
  { apply length_zero_iff_nil. rewrite (workers_fixed_run _ _ _ Hrun).
    unfold NewThreadPool in Hnew. destruct (make_chan queueSize); [|done].
    injection Hnew as <-. simpl. rewrite length_replicate. lia. }
  split_and!.
  - done.
  - by rewrite (acc_wg _ HA), Hws.
  - intros r [Hcr|(j & task & Hj)].
    + destruct (acc_crashed _ HA r Hcr) as [k Hk]. by rewrite Hws in Hk.
    + destruct (panicked_Submit s j task r HA Hj) as (Hr & Hcl & Hst & _).
      split_and!; eauto.
  - intros a s'. unfold step. destruct (crashed s); [done|].
    destruct a as [t| |j pick|k pick].
    + by intros [= <-].
    + by intros [= <-].
    + unfold Submit, Stop. intros Hs.
      repeat (case_match; simplify_eq/=); try done.
      by apply prefix_app_r.
    + by rewrite Hws.
Qed.

(** A pool of no worker with room for two tasks, one of them queued. *)
Lemma pool_without_workers_witness :
  let ok := Returns Nil None in
  let acts := [ACallSubmit ok; ACaller 0 true; ACaller 0 true; ACaller 0 true] in
  ∃ s0 s,
    NewThreadPool 0 2 = Returned s0 ∧ run s0 acts = Some s ∧
    ch_buf (tasks s) = [ok] ∧ ws s = [].
Proof.
  intros ok acts.
  destruct (NewThreadPool 0 2) as [s0|] eqn:Hnew;
    [|vm_compute in Hnew; discriminate].
  destruct (run s0 acts) as [s|] eqn:Hrun;
    [|vm_compute in Hnew; injection Hnew as <-; vm_compute in Hrun; discriminate].
  exists s0, s. split; [done|]. split; [done|].
  assert (Hnone : 0 ≤ 0) by lia.
  destruct (pool_without_workers 0 2 s0 s acts Hnew Hnone Hrun) as (Hws & _).
  split; [|exact Hws].
  vm_compute in Hnew. injection Hnew as <-.
  vm_compute in Hrun. by injection Hrun as <-.
Defined.

(** X26. A call of [Submit] that passed the test of [stopped] and comes to its
    select when the channel is closed finds both cases ready, the send and
    [ctx.Done()]: when the runtime takes the send, the call panics; when it
    takes [ctx.Done()], the call goes on to return the error of a closed
    pool.  In neither case is the task queued. *)
Theorem Submit_select_on_closed_channel
  (workers queueSize : Z) (s0 s : state) (acts : list action)
  (j : nat) (task : Task)
  (Hnew : NewThreadPool workers queueSize = Returned s0)
  (Hrun : run s0 acts = Some s)
  (Hlive : crashed s = None)
  (Hj : callers s !! j = Some (CSubmit task SubSelect))
  (Hclosed : ch_closed (tasks s) = true) :
  ctx_done s = true ∧
  step s (ACaller j true)
  = Some (set_caller s j
            (CSubmit task (SubPanicked (Str "send on closed channel")))) ∧
  step s (ACaller j false) = Some (set_caller s j (CSubmit task SubWoken)) ∧
  ∀ pick s', step s (ACaller j pick) = Some s' → tasks s' = tasks s.
Proof.
  destruct (reach_Accounts _ _ _ _ _ Hnew Hrun) as [HI HA].
  destruct (acc_closed _ HA Hclosed) as (_ & Hd & _).
  unfold step. rewrite Hlive, Hj. unfold Submit, send_ready.
  rewrite Hclosed, Hd. simpl. split_and!; try done.
  intros [] s' [= <-]; done.
Qed.

(** The call of [Submit] that passed the test of [stopped] before [Stop]
    ran to its end, at its select. *)
Lemma Submit_select_on_closed_channel_witness :
  let ok := Returns Nil None in
  let acts := [ACallSubmit ok; ACaller 0 true;
               ACallStop; ACaller 1 true; ACaller 1 true; ACaller 1 true;
               ACaller 1 true;
               ACaller 0 true] in
  ∃ s0 s,
    NewThreadPool 0 1 = Returned s0 ∧ run s0 acts = Some s ∧
    callers s !! 0%nat = Some (CSubmit ok SubSelect) ∧
    step s (ACaller 0 true)
    = Some (set_caller s 0
              (CSubmit ok (SubPanicked (Str "send on closed channel")))).
Proof.
  intros ok acts.
  destruct (NewThreadPool 0 1) as [s0|] eqn:Hnew;
    [|vm_compute in Hnew; discriminate].
  destruct (run s0 acts) as [s|] eqn:Hrun;
    [|vm_compute in Hnew; injection Hnew as <-; vm_compute in Hrun; discriminate].
  exists s0, s. split; [done|]. split; [done|].
  assert (Hs : crashed s = None ∧
               callers s !! 0%nat = Some (CSubmit ok SubSelect) ∧
               ch_closed (tasks s) = true).
  { vm_compute in Hnew. injection Hnew as <-.
    vm_compute in Hrun. by injection Hrun as <-. }
  destruct Hs as (Hlive & Hj & Hclosed).
  destruct (Submit_select_on_closed_channel 0 1 s0 s acts 0 ok
              Hnew Hrun Hlive Hj Hclosed) as (_ & Hpanic & _).
  split; [exact Hj|exact Hpanic].
Defined.

End ThreadPoolLaws.
